(** * Biscuit kernel core: circular buffers, fd pass queue, process table,
      console daemon and trap stub of [src/kernel/main.go]

    A shallow embedding of the Go code.  Go's [int] is a 64-bit two's
    complement integer and [uint]/[uintptr] a 64-bit unsigned one; both are
    carried as [Z] with the wrap-around written out.  Run-time panics
    (explicit [panic], slice bounds, division by zero, nil dereference) are
    the [Panic] outcome. *)

From Stdlib Require Import ZArith List Lia String Sorted.
From Stdlib.Strings Require Import Byte.
From stdpp Require Import base option list gmap.
From Equations Require Import Equations.
From ITree Require ITree Props.Leaf.

Local Open Scope Z_scope.

(** ** Go primitives *)

Module Go.

Definition INT_MIN : Z := -9223372036854775808.
Definition INT_MAX : Z := 9223372036854775807.
Definition UINT_MOD : Z := 18446744073709551616.

(** Result of a signed 64-bit operation whose mathematical value is [z]. *)
Definition wrap_int (z : Z) : Z := (z - INT_MIN) mod UINT_MOD + INT_MIN.

(** Result of an unsigned 64-bit operation whose mathematical value is [z]. *)
Definition wrap_uint (z : Z) : Z := z mod UINT_MOD.

Inductive outcome (A : Type) : Type :=
| Done (a : A)
| Panic (msg : string).
Arguments Done {A} a.
Arguments Panic {A} msg.

#[export] Instance outcome_ret : MRet outcome := fun _ a => Done a.
#[export] Instance outcome_bind : MBind outcome := fun _ _ f m =>
  match m with
  | Done a => f a
  | Panic msg => Panic msg
  end.

Definition is_done {A} (o : outcome A) : bool :=
  match o with Done _ => true | Panic _ => false end.

(** [a % b] on integers: truncated remainder, panics on a zero divisor. *)
Definition rem (a b : Z) : outcome Z :=
  if b =? 0 then Panic "integer divide by zero" else Done (Z.rem a b).

Definition len {A} (l : list A) : Z := Z.of_nat (length l).

(** A slice is carried as the list of its [len] elements; the capacity
    beyond [len] is not modelled, so the upper bound of a slice expression
    is checked against [len] (Go checks [s[lo:hi]] against [cap]; the two
    agree wherever the code below slices, since there [hi <= len]).
    [s[lo:]]. *)
Definition slice_from {A} (s : list A) (lo : Z) : outcome (list A) :=
  if (0 <=? lo) && (lo <=? len s)
  then Done (drop (Z.to_nat lo) s)
  else Panic "slice bounds out of range".

(** [s[lo:hi]]. *)
Definition slice_range {A} (s : list A) (lo hi : Z) : outcome (list A) :=
  if (0 <=? lo) && (lo <=? hi) && (hi <=? len s)
  then Done (take (Z.to_nat (hi - lo)) (drop (Z.to_nat lo) s))
  else Panic "slice bounds out of range".

(** [s[:hi]]. *)
Definition slice_to {A} (s : list A) (hi : Z) : outcome (list A) :=
  slice_range s 0 hi.

(** The builtin [copy(dst, src)]: the new contents of [dst] and the number
    of elements copied. *)
Definition copy {A} (dst src : list A) : list A * Z :=
  let n := Nat.min (length dst) (length src) in
  (take n src ++ drop n dst, Z.of_nat n).

Lemma wrap_int_id z : INT_MIN <= z <= INT_MAX -> wrap_int z = z.
Proof.
  unfold wrap_int, INT_MIN, INT_MAX, UINT_MOD. intros Hz.
  rewrite Z.mod_small; lia.
Qed.

Lemma wrap_uint_id z : 0 <= z < UINT_MOD -> wrap_uint z = z.
Proof. unfold wrap_uint. intros Hz. apply Z.mod_small. exact Hz. Qed.

Lemma wrap_uint_range z : 0 <= wrap_uint z < UINT_MOD.
Proof. unfold wrap_uint, UINT_MOD. apply Z.mod_pos_bound. lia. Qed.

Lemma copy_length {A} (dst src : list A) : length (copy dst src).1 = length dst.
Proof.
  unfold copy. cbn. rewrite length_app, length_take, length_drop. lia.
Qed.

Lemma copy_count {A} (dst src : list A) :
  0 <= (copy dst src).2 <= len dst /\ (copy dst src).2 <= len src.
Proof. unfold copy, len. cbn. lia. Qed.

End Go.
Import Go.

Definition uint8 : Type := Byte.byte.
Definition Err_t : Type := Z.
Definition Pa_t : Type := Z.

(** Modelled from the spec: the page size constant is declared outside
  main.go; the spec fixes the circular buffer's backing store to a single
  4 KiB page. *)
Definition PGSIZE : Z := 4096.

(** Modelled from the spec: the errno constants are declared outside
  main.go; the spec models them on POSIX, where ENOMEM is 12. *)
Definition ENOMEM : Err_t := 12.

(** ** userio_i: reading and writing user memory *)

(** [uioread u dst] copies user memory to [dst]; since the callee writes
  through the slice it is handed, the model returns the new contents of
  [dst] next to the updated receiver. *)
Class userio_i (U : Type) : Type := {
  uiowrite : U -> list uint8 -> U * (Z * Err_t);
  uioread : U -> list uint8 -> U * list uint8 * (Z * Err_t);
  remain : U -> Z;
  totalsz : U -> Z
}.

(** What Go gives by construction or what every implementation in the kernel
  respects: a callee cannot change the length of the slice it is handed,
  and the count it reports lies between zero and that length. *)
Class userio_ok (U : Type) `{userio_i U} : Prop := {
  uioread_length : forall u dst, length (uioread u dst).1.2 = length dst;
  uioread_count : forall u dst, 0 <= (uioread u dst).2.1 <= len dst;
  uiowrite_count : forall u src, 0 <= (uiowrite u src).2.1 <= len src
}.

Module Nilbuf.
Inductive _nilbuf_t : Type := zeroubuf.

#[export] Instance nilbuf_userio : userio_i _nilbuf_t := {|
  uiowrite nb src := (nb, (0, 0));
  uioread nb dst := (nb, dst, (0, 0));
  remain nb := 0;
  totalsz nb := 0
|}.

#[export] Instance nilbuf_ok : userio_ok _nilbuf_t.
Proof.
  split; intros; cbn; unfold len; try reflexivity; lia.
Qed.
End Nilbuf.

Module Fakeubuf.
(** [fbuf] aliases the kernel slice handed to [fake_init]: [mem] is that
    slice's storage and [fbuf_lo] where [fbuf] currently starts in it, so
    that what [uiowrite] stored stays visible to the slice's owner. *)
Record fakeubuf_t : Type := {
  mem : list uint8;
  fbuf_lo : nat;
  off : Z;
  len_ : Z
}.

Definition fbuf (fb : fakeubuf_t) : list uint8 := drop (fbuf_lo fb) (mem fb).

Definition fake_init (buf : list uint8) : fakeubuf_t :=
  {| mem := buf; fbuf_lo := 0; off := 0; len_ := len buf |}.

Definition fb_remain (fb : fakeubuf_t) : Z := len (fbuf fb).
Definition fb_totalsz (fb : fakeubuf_t) : Z := len_ fb.

Definition _tx (fb : fakeubuf_t) (buf : list uint8) (tofbuf : bool)
  : fakeubuf_t * list uint8 * (Z * Err_t) :=
  if tofbuf then
    let '(fbuf', c) := copy (fbuf fb) buf in
    ({| mem := take (fbuf_lo fb) (mem fb) ++ fbuf';
        fbuf_lo := (fbuf_lo fb + Z.to_nat c)%nat;
        off := off fb; len_ := len_ fb |}, buf, (c, 0))
  else
    let '(buf', c) := copy buf (fbuf fb) in
    ({| mem := mem fb;
        fbuf_lo := (fbuf_lo fb + Z.to_nat c)%nat;
        off := off fb; len_ := len_ fb |}, buf', (c, 0)).

#[export] Instance fakeubuf_userio : userio_i fakeubuf_t := {|
  uiowrite fb src := let r := _tx fb src true in (r.1.1, r.2);
  uioread fb dst := _tx fb dst false;
  remain := fb_remain;
  totalsz := fb_totalsz
|}.

(** The bytes stored so far through [uiowrite], as the owner of the slice
    sees them. *)
Definition stored (fb : fakeubuf_t) : list uint8 := take (fbuf_lo fb) (mem fb).

#[export] Instance fakeubuf_ok : userio_ok fakeubuf_t.
Proof.
  split; intros fb b.
  - pose proof (copy_length b (fbuf fb)) as Hl.
    change (uioread fb b) with (_tx fb b false). unfold _tx.
    destruct (copy b (fbuf fb)) as [b' c]. exact Hl.
  - pose proof (copy_count b (fbuf fb)) as Hc.
    change (uioread fb b) with (_tx fb b false). unfold _tx.
    destruct (copy b (fbuf fb)) as [b' c]. cbn in *. lia.
  - pose proof (copy_count (fbuf fb) b) as Hc.
    change (uiowrite fb b) with ((_tx fb b true).1.1, (_tx fb b true).2).
    unfold _tx. destruct (copy (fbuf fb) b) as [b' c]. cbn in *. lia.
Qed.
End Fakeubuf.

(** ** circbuf_t: the circular buffer read and written by user space *)

Module Circbuf.

(** Calls into the physical page allocator made from here. *)
Inductive pgevent : Type :=
| Refup (p_pg : Pa_t)
| Refdown (p_pg : Pa_t).

(** Modelled from the spec: the page allocator is defined outside main.go.
    Its allocation "returns a failure flag; every caller must handle it", so
    it is an oracle here: [newpages] lists the answers the next calls of
    [refpg_new_nozero] will give (a page and its physical address, or
    failure), [reflog] records the reference count calls received. *)
Record physmem : Type := {
  reflog : list pgevent;
  newpages : list (option (list uint8 * Pa_t))
}.

Definition refup (p_pg : Pa_t) (pm : physmem) : physmem :=
  {| reflog := reflog pm ++ [Refup p_pg]; newpages := newpages pm |}.

Definition refdown (p_pg : Pa_t) (pm : physmem) : physmem :=
  {| reflog := reflog pm ++ [Refdown p_pg]; newpages := newpages pm |}.

Definition refpg_new_nozero (pm : physmem)
  : physmem * option (list uint8 * Pa_t) :=
  match newpages pm with
  | [] => (pm, None)
  | a :: rest => ({| reflog := reflog pm; newpages := rest |}, a)
  end.

Record circbuf_t : Type := {
  buf : option (list uint8);
  bufsz : Z;
  head : Z;
  tail : Z;
  p_pg : Pa_t
}.

(** The zero value of the struct. *)
Definition zero : circbuf_t :=
  {| buf := None; bufsz := 0; head := 0; tail := 0; p_pg := 0 |}.

Definition set_buf (cb : circbuf_t) (b : option (list uint8)) : circbuf_t :=
  {| buf := b; bufsz := bufsz cb; head := head cb; tail := tail cb;
     p_pg := p_pg cb |}.

Definition set_head (cb : circbuf_t) (h : Z) : circbuf_t :=
  {| buf := buf cb; bufsz := bufsz cb; head := h; tail := tail cb;
     p_pg := p_pg cb |}.

Definition set_tail (cb : circbuf_t) (t : Z) : circbuf_t :=
  {| buf := buf cb; bufsz := bufsz cb; head := head cb; tail := t;
     p_pg := p_pg cb |}.

(** The elements of [cb.buf]; a nil slice has none. *)
Definition buf_elems (cb : circbuf_t) : list uint8 := default [] (buf cb).

(** [dst = cb.buf[lo:...]] aliases the buffer: after a callee left [dst']
    in it, this is what the buffer holds. *)
Definition written (cb : circbuf_t) (lo : Z) (dst' : list uint8) : circbuf_t :=
  match buf cb with
  | None => cb
  | Some b =>
      set_buf cb (Some (take (Z.to_nat lo) b ++ dst'
                        ++ drop (Z.to_nat lo + length dst') b))
  end.

Definition cb_init (cb : circbuf_t) (sz : Z) : outcome (circbuf_t * Err_t) :=
  let bufmax := PGSIZE in
  if (sz <=? 0) || (sz >? bufmax) then Panic "bad circbuf size"
  else Done ({| buf := buf cb; bufsz := sz; head := 0; tail := 0;
                p_pg := p_pg cb |}, 0).

Definition cb_init_phys (cb : circbuf_t) (v : option (list uint8))
    (p : Pa_t) (pm : physmem) : circbuf_t * physmem :=
  let pm := refup p pm in
  ({| buf := v; bufsz := len (default [] v); head := 0; tail := 0;
      p_pg := p |}, pm).

Definition cb_release (cb : circbuf_t) (pm : physmem) : circbuf_t * physmem :=
  match buf cb with
  | None => (cb, pm)
  | Some _ =>
      let pm := refdown (p_pg cb) pm in
      ({| buf := None; bufsz := bufsz cb; head := 0; tail := 0; p_pg := 0 |},
       pm)
  end.

Definition cb_ensure (cb : circbuf_t) (pm : physmem)
  : outcome (circbuf_t * physmem * Err_t) :=
  match buf cb with
  | Some _ => Done (cb, pm, 0)
  | None =>
      if bufsz cb =? 0 then Panic "not initted" else
      match refpg_new_nozero pm with
      | (pm, None) => Done (cb, pm, - ENOMEM)
      | (pm, Some (pg, p)) =>
          bpg ← slice_to pg (bufsz cb);
          let '(cb, pm) := cb_init_phys cb (Some bpg) p pm in
          Done (cb, pm, 0)
      end
  end.

Definition full (cb : circbuf_t) : bool :=
  wrap_int (head cb - tail cb) =? bufsz cb.

Definition empty (cb : circbuf_t) : bool := head cb =? tail cb.

Definition left (cb : circbuf_t) : Z :=
  let used := wrap_int (head cb - tail cb) in
  let rem := wrap_int (bufsz cb - used) in
  rem.

Definition used (cb : circbuf_t) : Z :=
  let used := wrap_int (head cb - tail cb) in
  used.

(** The part of [copyin] after the "wraparound?" branch. *)
Definition copyin_rest {U} `{userio_i U} (cb : circbuf_t) (src : U)
    (c hi ti : Z) : outcome (circbuf_t * U * (Z * Err_t)) :=
  if hi >? ti then Panic "wut?" else
  dst ← slice_range (buf_elems cb) hi ti;
  let '(src, dst', (wrote, err)) := uioread src dst in
  let cb := written cb hi dst' in
  let c := wrap_int (c + wrote) in
  if negb (err =? 0) then Done (cb, src, (c, err)) else
  Done (set_head cb (wrap_int (head cb + c)), src, (c, 0)).

Definition copyin {U} `{userio_i U} (cb : circbuf_t) (src : U) (pm : physmem)
  : outcome (circbuf_t * U * physmem * (Z * Err_t)) :=
  '(cb, pm, err) ← cb_ensure cb pm;
  if negb (err =? 0) then Done (cb, src, pm, (0, err)) else
  if full cb then Done (cb, src, pm, (0, 0)) else
  hi ← rem (head cb) (bufsz cb);
  ti ← rem (tail cb) (bufsz cb);
  r ← (if ti <=? hi then
         dst ← slice_from (buf_elems cb) hi;
         let '(src, dst', (wrote, err)) := uioread src dst in
         let cb := written cb hi dst' in
         if negb (err =? 0) then Done (cb, src, (0, err)) else
         if negb (wrote =? len dst)
         then Done (set_head cb (wrap_int (head cb + wrote)), src, (wrote, 0))
         else
           hi ← rem (wrap_int (head cb + wrote)) (bufsz cb);
           copyin_rest cb src (wrap_int (0 + wrote)) hi ti
       else copyin_rest cb src 0 hi ti);
  let '(cb, src, res) := r in
  Done (cb, src, pm, res).

(** [if max != 0 && max < len(src) { src = src[:max] }]. *)
Definition limit (src : list uint8) (max : Z) : outcome (list uint8) :=
  if negb (max =? 0) && (max <? len src) then slice_to src max else Done src.

(** The part of [copyout_n] after the "wraparound?" branch. *)
Definition copyout_rest {U} `{userio_i U} (cb : circbuf_t) (dst : U)
    (c max hi ti : Z) : outcome (circbuf_t * U * (Z * Err_t)) :=
  if ti >? hi then Panic "wut?" else
  src ← slice_range (buf_elems cb) ti hi;
  src ← limit src max;
  let '(dst, (wrote, err)) := uiowrite dst src in
  if negb (err =? 0) then Done (cb, dst, (0, err)) else
  let c := wrap_int (c + wrote) in
  Done (set_tail cb (wrap_int (tail cb + c)), dst, (c, 0)).

Definition copyout_n {U} `{userio_i U} (cb : circbuf_t) (dst : U) (max : Z)
    (pm : physmem) : outcome (circbuf_t * U * physmem * (Z * Err_t)) :=
  '(cb, pm, err) ← cb_ensure cb pm;
  if negb (err =? 0) then Done (cb, dst, pm, (0, err)) else
  if empty cb then Done (cb, dst, pm, (0, 0)) else
  hi ← rem (head cb) (bufsz cb);
  ti ← rem (tail cb) (bufsz cb);
  r ← (if hi <=? ti then
         src ← slice_from (buf_elems cb) ti;
         src ← limit src max;
         let '(dst, (wrote, err)) := uiowrite dst src in
         if negb (err =? 0) then Done (cb, dst, (0, err)) else
         if negb (wrote =? len src) || (wrote =? max)
         then Done (set_tail cb (wrap_int (tail cb + wrote)), dst, (wrote, 0))
         else
           let c := wrap_int (0 + wrote) in
           let max := if negb (max =? 0) then wrap_int (max - c) else max in
           ti ← rem (wrap_int (tail cb + wrote)) (bufsz cb);
           copyout_rest cb dst c max hi ti
       else copyout_rest cb dst 0 max hi ti);
  let '(cb, dst, res) := r in
  Done (cb, dst, pm, res).

Definition copyout {U} `{userio_i U} (cb : circbuf_t) (dst : U) (pm : physmem)
  : outcome (circbuf_t * U * physmem * (Z * Err_t)) :=
  copyout_n cb dst 0 pm.

(** Advances the head index [sz] bytes. *)
Definition _advhead (cb : circbuf_t) (sz : Z) : outcome circbuf_t :=
  if full cb || (left cb <? sz) then Panic "advancing full cb"
  else Done (set_head cb (wrap_int (head cb + sz))).

Definition _advtail (cb : circbuf_t) (sz : Z) : outcome circbuf_t :=
  if negb (sz =? 0) && (empty cb || (used cb <? sz))
  then Panic "advancing empty cb"
  else Done (set_tail cb (wrap_int (tail cb + sz))).

End Circbuf.

(** *** The counters' invariant *)

Module CircbufInv.
Import Circbuf.

(** Every page the allocator hands out is [PGSIZE] bytes long. *)
Definition pages_ok (pm : physmem) : Prop :=
  Forall (fun a => forall pg p, a = Some (pg, p) -> len pg = PGSIZE)
         (newpages pm).

(** [bound] limits how far [head] has advanced. *)
Record Inv (bound : Z) (cb : circbuf_t) : Prop := {
  inv_sz : 0 < bufsz cb <= PGSIZE;
  inv_tail : 0 <= tail cb <= head cb;
  inv_used : head cb - tail cb <= bufsz cb;
  inv_head : head cb <= bound;
  inv_buf : forall b, buf cb = Some b -> len b = bufsz cb
}.

Lemma Inv_mono bound bound' cb : bound <= bound' -> Inv bound cb -> Inv bound' cb.
Proof. intros Hb [? ? ? ? ?]. split; auto; lia. Qed.

Lemma rem_done a b r : rem a b = Done r -> b <> 0 /\ r = Z.rem a b.
Proof.
  unfold rem. destruct (Z.eqb_spec b 0); [discriminate|].
  intros [= <-]. auto.
Qed.

Lemma slice_from_done {A} (s d : list A) lo :
  slice_from s lo = Done d ->
  0 <= lo <= len s /\ d = drop (Z.to_nat lo) s /\ len d = len s - lo.
Proof.
  unfold slice_from, len.
  destruct (Z.leb_spec 0 lo), (Z.leb_spec lo (Z.of_nat (length s)));
    cbn; try discriminate.
  intros [= <-]. rewrite length_drop. repeat split; lia.
Qed.

Lemma slice_range_done {A} (s d : list A) lo hi :
  slice_range s lo hi = Done d ->
  0 <= lo <= hi /\ hi <= len s /\ len d = hi - lo.
Proof.
  unfold slice_range, len.
  destruct (Z.leb_spec 0 lo), (Z.leb_spec lo hi),
    (Z.leb_spec hi (Z.of_nat (length s))); cbn; try discriminate.
  intros [= <-]. rewrite length_take, length_drop. lia.
Qed.

Lemma limit_done src max s :
  limit src max = Done s ->
  len s <= len src /\ (max <> 0 -> len s <= max) /\
  (s = src \/ len s = max).
Proof.
  unfold limit.
  destruct (Z.eqb_spec max 0), (Z.ltb_spec max (len src)); cbn;
    try (intros [= <-]; split; [lia | split; [lia | auto]]).
  unfold slice_to. intros Hs. apply slice_range_done in Hs. lia.
Qed.

(** Where the two indices stand in the ring, from the counters. *)
Lemma ring_index sz h t :
  0 < sz -> 0 <= t <= h -> h - t <= sz ->
  0 <= Z.rem h sz < sz /\ 0 <= Z.rem t sz < sz /\
  ((Z.rem t sz <= Z.rem h sz /\ h - t = Z.rem h sz - Z.rem t sz) \/
   (Z.rem h sz <= Z.rem t sz /\ h - t = sz + Z.rem h sz - Z.rem t sz)).
Proof.
  intros Hsz Ht Hu.
  rewrite !Z.rem_mod_nonneg by lia.
  pose proof (Z.mod_pos_bound h sz Hsz) as Hh.
  pose proof (Z.mod_pos_bound t sz Hsz) as Ht'.
  pose proof (Z.div_mod h sz ltac:(lia)) as Eh.
  pose proof (Z.div_mod t sz ltac:(lia)) as Et.
  assert (h / sz - t / sz = 0 \/ h / sz - t / sz = 1) as [Hq|Hq] by nia.
  - split; [lia|]. split; [lia|]. left. nia.
  - split; [lia|]. split; [lia|]. right. nia.
Qed.

(** Having written up to the end of the buffer, the index is back at 0. *)
Lemma rem_at_end sz h : 0 < sz -> 0 <= h -> Z.rem (h + (sz - Z.rem h sz)) sz = 0.
Proof.
  intros Hsz Hh.
  pose proof (Z.rem_bound_pos h sz Hh Hsz) as Hb.
  rewrite (Z.rem_mod_nonneg (h + _)) by lia.
  rewrite Z.rem_mod_nonneg by lia.
  replace (h + (sz - h mod sz)) with ((h / sz + 1) * sz).
  - apply Z.mod_mul. lia.
  - pose proof (Z.div_mod h sz ltac:(lia)). lia.
Qed.

Lemma written_fields cb lo d :
  bufsz (written cb lo d) = bufsz cb /\ head (written cb lo d) = head cb /\
  tail (written cb lo d) = tail cb.
Proof. unfold written. destruct (buf cb); auto. Qed.

Lemma written_buf_len cb lo d b' :
  (forall b, buf cb = Some b -> len b = bufsz cb) ->
  0 <= lo -> lo + len d <= bufsz cb ->
  buf (written cb lo d) = Some b' -> len b' = bufsz cb.
Proof.
  intros Hb Hlo Hd. unfold written.
  destruct (buf cb) as [b|] eqn:E; cbn; [|rewrite E; discriminate].
  intros [= <-]. specialize (Hb b eq_refl). unfold len in *.
  rewrite !length_app, length_take, length_drop. lia.
Qed.

(** Moving a counter, with the buffer possibly written through. *)
Lemma Inv_moved bound bound' cb cb' :
  Inv bound cb ->
  bufsz cb' = bufsz cb ->
  (forall b, buf cb' = Some b -> len b = bufsz cb) ->
  0 <= tail cb' <= head cb' -> head cb' - tail cb' <= bufsz cb ->
  head cb' <= bound' ->
  Inv bound' cb'.
Proof.
  intros [? ? ? ? ?] Hsz Hb Ht Hu Hh.
  split; rewrite ?Hsz; auto.
Qed.

Lemma cb_ensure_inv bound cb pm cb' pm' err :
  Inv bound cb -> pages_ok pm -> 0 <= bound ->
  cb_ensure cb pm = Done (cb', pm', err) ->
  Inv bound cb' /\ pages_ok pm' /\ bufsz cb' = bufsz cb /\
  (err = 0 -> exists b, buf cb' = Some b) /\
  (err <> 0 -> cb' = cb).
Proof.
  intros HI Hpm Hb. unfold cb_ensure.
  destruct (buf cb) as [b|] eqn:Eb.
  - intros [= <- <- <-]. split_and!; eauto.
  - destruct (Z.eqb_spec (bufsz cb) 0); [discriminate|].
    unfold refpg_new_nozero, pages_ok in *.
    destruct (newpages pm) as [|a rest] eqn:Ep.
    + intros [= <- <- <-]. rewrite Ep. split_and!; auto.
      unfold ENOMEM. lia.
    + apply Forall_cons in Hpm as [Ha Hrest].
      destruct a as [[pg p]|].
      * specialize (Ha pg p eq_refl).
        destruct (slice_to pg (bufsz cb)) as [bpg|] eqn:Es; [|discriminate].
        cbn. intros [= <- <- <-]. cbn.
        apply slice_range_done in Es. destruct HI.
        split_and!; cbn; try lia; eauto.
        split; cbn; try lia. intros b' [= <-]. lia.
      * intros [= <- <- <-]. cbn. split_and!; auto.
        unfold ENOMEM. lia.
Qed.

Section Steps.
Context {U : Type} `{Hok : userio_ok U}.

Lemma copyin_rest_inv bound bound' cb (src : U) c hi ti cb' src' res :
  Inv bound cb ->
  0 <= c -> 0 <= hi -> ti <= bufsz cb ->
  head cb - tail cb + c + (ti - hi) <= bufsz cb ->
  tail cb + bufsz cb <= bound' -> bound <= bound' -> bound' <= INT_MAX ->
  copyin_rest cb src c hi ti = Done (cb', src', res) ->
  Inv bound' cb' /\ bufsz cb' = bufsz cb.
Proof.
  intros HI Hc Hhi Hti Hroom Hb' Hbb Hmax. unfold copyin_rest.
  destruct (Z.gtb_spec hi ti); [discriminate|].
  destruct (slice_range (buf_elems cb) hi ti) as [dst|] eqn:Es; [|discriminate].
  apply slice_range_done in Es. cbn.
  pose proof (uioread_count src dst) as Hn.
  pose proof (uioread_length src dst) as Hl.
  destruct (uioread src dst) as [[s d] [w e]]. cbn in Hn, Hl.
  destruct (written_fields cb hi d) as (Fsz & Fh & Ft).
  assert (Hd : len d = len dst) by (unfold len; lia).
  pose proof (written_buf_len cb hi d) as Hw.
  pose proof HI as [? ? ? ? ?].
  unfold INT_MAX in *.
  rewrite (wrap_int_id (c + w)) by (unfold INT_MIN, INT_MAX, PGSIZE in *; lia).
  destruct (Z.eqb_spec e 0); cbn; intros [= <- <- <-].
  - rewrite Fh. rewrite wrap_int_id by (unfold INT_MIN, INT_MAX; lia).
    split; [|cbn; lia].
    eapply Inv_moved; eauto; cbn; rewrite ?Ft; try lia.
    intros b Eb. eapply Hw; eauto; lia.
  - split; [|lia].
    eapply Inv_moved; eauto; rewrite ?Ft, ?Fh; try lia.
    intros b Eb. eapply Hw; eauto; lia.
Qed.

Lemma copyin_inv bound cb (src : U) pm cb' src' pm' res :
  Inv bound cb -> pages_ok pm -> 0 <= bound ->
  bound + bufsz cb <= INT_MAX ->
  copyin cb src pm = Done (cb', src', pm', res) ->
  Inv (bound + bufsz cb) cb' /\ pages_ok pm' /\ bufsz cb' = bufsz cb.
Proof.
  intros HI Hpm Hb Hmax. unfold copyin.
  destruct (cb_ensure cb pm) as [[[cb1 pm1] err]|] eqn:Ee; [|discriminate].
  apply (cb_ensure_inv bound) in Ee as (HI1 & Hpm1 & Hsz1 & Hbuf & _); auto.
  cbn. rewrite <- Hsz1. clear HI Hpm.
  assert (Hmono : Inv (bound + bufsz cb1) cb1)
    by (destruct HI1; eapply Inv_mono; [|split; eauto]; lia).
  destruct (Z.eqb_spec err 0); cbn; [|intros [= <- <- <- <-]; auto].
  pose proof HI1 as [? ? ? ? ?].
  unfold full. rewrite wrap_int_id by (unfold INT_MIN, INT_MAX, PGSIZE in *; lia).
  destruct (Z.eqb_spec (head cb1 - tail cb1) (bufsz cb1));
    [intros [= <- <- <- <-]; auto|].
  unfold rem. destruct (Z.eqb_spec (bufsz cb1) 0); [lia|]. cbn.
  destruct (ring_index (bufsz cb1) (head cb1) (tail cb1)) as (Hhi & Hti & Hcase);
    try lia.
  set (hi := Z.rem (head cb1) (bufsz cb1)) in *.
  set (ti := Z.rem (tail cb1) (bufsz cb1)) in *.
  destruct (Z.leb_spec ti hi).
  - destruct (slice_from (buf_elems cb1) hi) as [dst|] eqn:Es; [|discriminate].
    apply slice_from_done in Es as (Hlo & _ & Hlen). cbn.
    assert (Hbl : len (buf_elems cb1) = bufsz cb1).
    { destruct Hbuf as [b Eb]; auto. unfold buf_elems. rewrite Eb. cbn. auto. }
    pose proof (uioread_count src dst) as Hn.
    pose proof (uioread_length src dst) as Hl.
    destruct (uioread src dst) as [[s d] [w er]]. cbn in Hn, Hl.
    destruct (written_fields cb1 hi d) as (Fsz & Fh & Ft).
    assert (Hd : len d = len dst) by (unfold len; lia).
    pose proof (written_buf_len cb1 hi d) as Hw.
    assert (HIw : Inv bound (written cb1 hi d)).
    { eapply Inv_moved; eauto; rewrite ?Ft, ?Fh; try lia.
      intros b Eb. eapply Hw; eauto; lia. }
    rewrite Fh, Fsz.
    destruct (Z.eqb_spec er 0); cbn.
    2:{ intros [= <- <- <- <-]. split_and!; auto.
        eapply Inv_mono; [|exact HIw]. lia. }
    rewrite (wrap_int_id (head cb1 + w))
      by (unfold INT_MIN, INT_MAX, PGSIZE in *; lia).
    destruct (Z.eqb_spec w (len dst)); cbn.
    + destruct (Z.eqb_spec (bufsz cb1) 0); [lia|]. cbn.
      assert (Hz : Z.rem (head cb1 + w) (bufsz cb1) = 0).
      { replace w with (bufsz cb1 - Z.rem (head cb1) (bufsz cb1)) by (subst hi; lia).
        apply rem_at_end; lia. }
      rewrite Hz.
      destruct (copyin_rest (written cb1 hi d) s (wrap_int (0 + w)) 0 ti)
        as [[[cb2 s2] r2]|] eqn:Er; [|discriminate].
      cbn. intros [= <- <- <- <-].
      rewrite wrap_int_id in Er by (unfold INT_MIN, INT_MAX, PGSIZE in *; lia).
      eapply (copyin_rest_inv bound (bound + bufsz cb1)) in Er;
        rewrite ?Fh, ?Ft, ?Fsz; eauto; try lia.
      destruct Er as [? ?]. split_and!; auto. lia.
    + intros [= <- <- <- <-]. split_and!; auto.
      eapply Inv_moved; [exact HI1| | | | |]; cbn;
        rewrite ?Ft, ?Fh, ?Fsz; auto; try lia.
      intros b Eb. eapply Hw; eauto; lia.
  - destruct (copyin_rest cb1 src 0 hi ti) as [[[cb2 s2] r2]|] eqn:Er;
      [|discriminate].
    cbn. intros [= <- <- <- <-].
    eapply (copyin_rest_inv bound (bound + bufsz cb1)) in Er; eauto; try lia.
    destruct Er as [? ?]. split_and!; auto.
Qed.

Lemma copyout_rest_inv bound cb (dst : U) c max hi ti cb' dst' res :
  Inv bound cb ->
  0 <= c -> 0 <= ti -> hi <= bufsz cb ->
  c + (hi - ti) <= head cb - tail cb -> bound <= INT_MAX ->
  copyout_rest cb dst c max hi ti = Done (cb', dst', res) ->
  Inv bound cb' /\ bufsz cb' = bufsz cb.
Proof.
  intros HI Hc Hti Hhi Hroom Hmax. unfold copyout_rest.
  destruct (Z.gtb_spec ti hi); [discriminate|].
  destruct (slice_range (buf_elems cb) ti hi) as [src0|] eqn:Es; [|discriminate].
  apply slice_range_done in Es. cbn.
  destruct (limit src0 max) as [src|] eqn:El; [|discriminate].
  apply limit_done in El as (Hls & _). cbn.
  pose proof (uiowrite_count dst src) as Hn.
  destruct (uiowrite dst src) as [d [w er]]. cbn in Hn.
  pose proof HI as [? ? ? ? ?].
  destruct (Z.eqb_spec er 0); cbn; intros [= <- <- <-]; [|auto].
  rewrite (wrap_int_id (c + w)) by (unfold INT_MIN, INT_MAX, PGSIZE in *; lia).
  rewrite wrap_int_id by (unfold INT_MIN, INT_MAX, PGSIZE in *; lia).
  split; [|reflexivity].
  eapply Inv_moved; eauto; cbn; lia.
Qed.

Lemma copyout_n_inv bound cb (dst : U) max pm cb' dst' pm' res :
  Inv bound cb -> pages_ok pm -> 0 <= bound -> bound <= INT_MAX ->
  copyout_n cb dst max pm = Done (cb', dst', pm', res) ->
  Inv bound cb' /\ pages_ok pm' /\ bufsz cb' = bufsz cb.
Proof.
  intros HI Hpm Hb Hmax. unfold copyout_n.
  destruct (cb_ensure cb pm) as [[[cb1 pm1] err]|] eqn:Ee; [|discriminate].
  apply (cb_ensure_inv bound) in Ee as (HI1 & Hpm1 & Hsz1 & Hbuf & _); auto.
  cbn. rewrite <- Hsz1. clear HI Hpm.
  destruct (Z.eqb_spec err 0); cbn; [|intros [= <- <- <- <-]; auto].
  pose proof HI1 as [? ? ? ? ?].
  unfold empty.
  destruct (Z.eqb_spec (head cb1) (tail cb1)); [intros [= <- <- <- <-]; auto|].
  unfold rem. destruct (Z.eqb_spec (bufsz cb1) 0); [lia|]. cbn.
  destruct (ring_index (bufsz cb1) (head cb1) (tail cb1)) as (Hhi & Hti & Hcase);
    try lia.
  set (hi := Z.rem (head cb1) (bufsz cb1)) in *.
  set (ti := Z.rem (tail cb1) (bufsz cb1)) in *.
  destruct (Z.leb_spec hi ti).
  - destruct (slice_from (buf_elems cb1) ti) as [src0|] eqn:Es; [|discriminate].
    apply slice_from_done in Es as (Hlo & _ & Hlen). cbn.
    assert (Hbl : len (buf_elems cb1) = bufsz cb1).
    { destruct Hbuf as [b Eb]; auto. unfold buf_elems. rewrite Eb. cbn. auto. }
    destruct (limit src0 max) as [src|] eqn:El; [|discriminate].
    apply limit_done in El as (Hls & _ & Hlim). cbn.
    pose proof (uiowrite_count dst src) as Hn.
    destruct (uiowrite dst src) as [d [w er]]. cbn in Hn.
    destruct (Z.eqb_spec er 0); cbn; [|intros [= <- <- <- <-]; auto].
    rewrite (wrap_int_id (tail cb1 + w))
      by (unfold INT_MIN, INT_MAX, PGSIZE in *; lia).
    destruct (Z.eqb_spec w (len src)), (Z.eqb_spec w max); cbn;
      try (intros [= <- <- <- <-]; split_and!; auto;
           eapply Inv_moved; eauto; cbn; lia).
    destruct Hlim as [-> | Hlim]; [|lia].
    destruct (Z.eqb_spec (bufsz cb1) 0); [lia|]. cbn.
    assert (Hz : Z.rem (tail cb1 + w) (bufsz cb1) = 0).
    { replace w with (bufsz cb1 - Z.rem (tail cb1) (bufsz cb1)) by (subst ti; lia).
      apply rem_at_end; lia. }
    rewrite Hz.
    match goal with
    | |- context [copyout_rest cb1 d ?c ?m hi 0] =>
        destruct (copyout_rest cb1 d c m hi 0) as [[[cb2 d2] r2]|] eqn:Er;
        [|discriminate]
    end.
    cbn. intros [= <- <- <- <-].
    rewrite wrap_int_id in Er by (unfold INT_MIN, INT_MAX, PGSIZE in *; lia).
    eapply (copyout_rest_inv bound) in Er; eauto; try lia.
    destruct Er as [? ?]. split_and!; auto.
  - destruct (copyout_rest cb1 dst 0 max hi ti) as [[[cb2 d2] r2]|] eqn:Er;
      [|discriminate].
    cbn. intros [= <- <- <- <-].
    eapply (copyout_rest_inv bound) in Er; eauto; try lia.
    destruct Er as [? ?]. split_and!; auto.
Qed.

End Steps.

(** On a state that satisfies the invariant no call panics. *)

Lemma slice_range_ok {A} (s : list A) lo hi :
  0 <= lo <= hi -> hi <= len s -> exists d, slice_range s lo hi = Done d.
Proof.
  intros Hlo Hhi. unfold slice_range.
  destruct (Z.leb_spec 0 lo), (Z.leb_spec lo hi), (Z.leb_spec hi (len s));
    try lia.
  cbn. eauto.
Qed.

Lemma slice_from_ok {A} (s : list A) lo :
  0 <= lo <= len s -> exists d, slice_from s lo = Done d.
Proof.
  intros Hlo. unfold slice_from.
  destruct (Z.leb_spec 0 lo), (Z.leb_spec lo (len s)); try lia.
  cbn. eauto.
Qed.

Lemma limit_ok src max : 0 <= max -> exists s, limit src max = Done s.
Proof.
  intros Hmax. unfold limit.
  destruct (Z.eqb_spec max 0), (Z.ltb_spec max (len src)); cbn; eauto.
  apply slice_range_ok; lia.
Qed.

Lemma cb_ensure_ok bound cb pm :
  Inv bound cb -> pages_ok pm -> exists r, cb_ensure cb pm = Done r.
Proof.
  intros [? ? ? ? ?] Hpm. unfold cb_ensure.
  destruct (buf cb); eauto.
  destruct (Z.eqb_spec (bufsz cb) 0); [lia|].
  unfold refpg_new_nozero, pages_ok in *.
  destruct (newpages pm) as [|[[pg p]|] rest]; eauto.
  apply Forall_cons in Hpm as [Ha _]. specialize (Ha pg p eq_refl).
  destruct (slice_range_ok pg 0 (bufsz cb)) as [bpg Eb]; try lia.
  unfold slice_to. rewrite Eb. cbn. eauto.
Qed.

Lemma buf_elems_len bound cb :
  Inv bound cb -> (exists b, buf cb = Some b) -> len (buf_elems cb) = bufsz cb.
Proof.
  intros [? ? ? ? Hb] [b Eb]. unfold buf_elems. rewrite Eb. cbn. auto.
Qed.

Section Progress.
Context {U : Type} `{Hok : userio_ok U}.

Lemma copyin_rest_ok cb (src : U) c hi ti :
  0 <= hi <= ti -> ti <= len (buf_elems cb) ->
  exists r, copyin_rest cb src c hi ti = Done r.
Proof.
  intros Hhi Hti. unfold copyin_rest.
  destruct (Z.gtb_spec hi ti); [lia|].
  destruct (slice_range_ok (buf_elems cb) hi ti) as [dst ->]; try lia.
  cbn. destruct (uioread src dst) as [[s d] [w er]].
  destruct (negb (er =? 0)); eauto.
Qed.

Lemma copyin_ok bound cb (src : U) pm :
  Inv bound cb -> pages_ok pm -> 0 <= bound ->
  bound + bufsz cb <= INT_MAX ->
  exists r, copyin cb src pm = Done r.
Proof.
  intros HI Hpm Hb Hmax. unfold copyin.
  destruct (cb_ensure_ok _ _ _ HI Hpm) as [[[cb1 pm1] err] Ee]. rewrite Ee.
  apply (cb_ensure_inv bound) in Ee as (HI1 & Hpm1 & Hsz1 & Hbuf & _); auto.
  rewrite <- Hsz1 in Hmax.
  cbn. destruct (Z.eqb_spec err 0); cbn; eauto.
  destruct (full cb1); eauto.
  pose proof (buf_elems_len _ _ HI1 (Hbuf ltac:(assumption))) as Hbl.
  pose proof HI1 as [? ? ? ? ?].
  unfold rem. destruct (Z.eqb_spec (bufsz cb1) 0); [lia|]. cbn.
  destruct (ring_index (bufsz cb1) (head cb1) (tail cb1)) as (Hhi & Hti & _);
    try lia.
  set (hi := Z.rem (head cb1) (bufsz cb1)) in *.
  set (ti := Z.rem (tail cb1) (bufsz cb1)) in *.
  destruct (Z.leb_spec ti hi).
  - destruct (slice_from_ok (buf_elems cb1) hi) as [dst Es]; try lia.
    rewrite Es. apply slice_from_done in Es as (_ & _ & Hlen). cbn.
    pose proof (uioread_count src dst) as Hn.
    pose proof (uioread_length src dst) as Hl.
    destruct (uioread src dst) as [[s d] [w er]]. cbn in Hn, Hl.
    destruct (written_fields cb1 hi d) as (Fsz & Fh & Ft).
    destruct (negb (er =? 0)); cbn; eauto.
    destruct (Z.eqb_spec w (len dst)); cbn; eauto.
    rewrite Fsz, Fh.
    destruct (Z.eqb_spec (bufsz cb1) 0); [lia|]. cbn.
    rewrite (wrap_int_id (head cb1 + w))
      by (unfold INT_MIN, INT_MAX, PGSIZE in *; lia).
    assert (Hz : Z.rem (head cb1 + w) (bufsz cb1) = 0).
    { replace w with (bufsz cb1 - Z.rem (head cb1) (bufsz cb1)) by (subst hi; lia).
      apply rem_at_end; lia. }
    rewrite Hz.
    destruct (copyin_rest_ok (written cb1 hi d) s (wrap_int (0 + w)) 0 ti)
      as [[[cb2 s2] r2] ->]; cbn; eauto; try lia.
    assert (HIw : Inv bound (written cb1 hi d)).
    { eapply Inv_moved; eauto; rewrite ?Ft, ?Fh; try lia.
      intros b Eb. apply (written_buf_len cb1 hi d b); auto;
        unfold len in *; lia. }
    rewrite (buf_elems_len _ _ HIw); [lia|].
    destruct Hbuf as [b Eb]; auto. unfold written. rewrite Eb. cbn. eauto.
  - destruct (copyin_rest_ok cb1 src 0 hi ti) as [[[cb2 s2] r2] ->];
      cbn; eauto; lia.
Qed.

Lemma copyout_rest_ok cb (dst : U) c max hi ti :
  0 <= ti <= hi -> hi <= len (buf_elems cb) -> 0 <= max ->
  exists r, copyout_rest cb dst c max hi ti = Done r.
Proof.
  intros Hti Hhi Hmax. unfold copyout_rest.
  destruct (Z.gtb_spec ti hi); [lia|].
  destruct (slice_range_ok (buf_elems cb) ti hi) as [src0 ->]; try lia.
  cbn. destruct (limit_ok src0 max Hmax) as [src ->]. cbn.
  destruct (uiowrite dst src) as [d [w er]].
  destruct (negb (er =? 0)); eauto.
Qed.

Lemma copyout_n_ok bound cb (dst : U) max pm :
  Inv bound cb -> pages_ok pm -> 0 <= bound -> bound <= INT_MAX ->
  0 <= max <= INT_MAX ->
  exists r, copyout_n cb dst max pm = Done r.
Proof.
  intros HI Hpm Hb Hbmax Hmax. unfold copyout_n.
  destruct (cb_ensure_ok _ _ _ HI Hpm) as [[[cb1 pm1] err] Ee]. rewrite Ee.
  apply (cb_ensure_inv bound) in Ee as (HI1 & Hpm1 & Hsz1 & Hbuf & _); auto.
  cbn. destruct (Z.eqb_spec err 0); cbn; eauto.
  unfold empty. destruct (Z.eqb_spec (head cb1) (tail cb1)); eauto.
  pose proof (buf_elems_len _ _ HI1 (Hbuf ltac:(assumption))) as Hbl.
  pose proof HI1 as [? ? ? ? ?].
  unfold rem. destruct (Z.eqb_spec (bufsz cb1) 0); [lia|]. cbn.
  destruct (ring_index (bufsz cb1) (head cb1) (tail cb1)) as (Hhi & Hti & Hcase);
    try lia.
  set (hi := Z.rem (head cb1) (bufsz cb1)) in *.
  set (ti := Z.rem (tail cb1) (bufsz cb1)) in *.
  destruct (Z.leb_spec hi ti).
  - destruct (slice_from_ok (buf_elems cb1) ti) as [src0 Es]; try lia.
    rewrite Es. apply slice_from_done in Es as (_ & _ & Hlen). cbn.
    destruct (limit_ok src0 max) as [src El]; [lia|]. rewrite El.
    apply limit_done in El as (Hls & Hle & Hlim). cbn.
    pose proof (uiowrite_count dst src) as Hn.
    destruct (uiowrite dst src) as [d [w er]]. cbn in Hn.
    destruct (negb (er =? 0)); cbn; eauto.
    destruct (Z.eqb_spec w (len src)), (Z.eqb_spec w max); cbn; eauto.
    destruct (Z.eqb_spec (bufsz cb1) 0); [lia|]. cbn.
    rewrite (wrap_int_id (tail cb1 + w))
      by (unfold INT_MIN, INT_MAX, PGSIZE in *; lia).
    rewrite (wrap_int_id (0 + w)) by (unfold INT_MIN, INT_MAX, PGSIZE in *; lia).
    assert (Hz : Z.rem (tail cb1 + w) (bufsz cb1) = 0).
    { destruct Hlim as [-> | Hlim]; [|lia].
      replace w with (bufsz cb1 - Z.rem (tail cb1) (bufsz cb1)) by (subst ti; lia).
      apply rem_at_end; lia. }
    rewrite Hz.
    match goal with
    | |- context [copyout_rest cb1 d ?c ?m hi 0] =>
        destruct (copyout_rest_ok cb1 d c m hi 0) as [[[cb2 d2] r2] ->]
    end; cbn; eauto; try lia.
    destruct (Z.eqb_spec max 0); cbn; [lia|].
    specialize (Hle ltac:(assumption)).
    rewrite wrap_int_id; unfold INT_MIN, INT_MAX in *; lia.
  - destruct (copyout_rest_ok cb1 dst 0 max hi ti) as [[[cb2 d2] r2] ->];
      cbn; eauto; lia.
Qed.

End Progress.

(** The states a buffer of size [sz] goes through: [cb_init] on a fresh
    struct, then any [copyin] and [copyout_n] calls that return, whatever
    the user buffers and the allocator do.  The index counts the calls. *)
Inductive reachable (sz : Z) : nat -> circbuf_t -> physmem -> Prop :=
| reach_init cb pm :
    cb_init zero sz = Done (cb, 0) -> pages_ok pm ->
    reachable sz 0 cb pm
| reach_copyin {U} `{userio_ok U} n cb pm (src : U) cb' src' pm' res :
    reachable sz n cb pm ->
    copyin cb src pm = Done (cb', src', pm', res) ->
    reachable sz (S n) cb' pm'
| reach_copyout {U} `{userio_ok U} n cb pm (dst : U) max cb' dst' pm' res :
    reachable sz n cb pm ->
    copyout_n cb dst max pm = Done (cb', dst', pm', res) ->
    reachable sz (S n) cb' pm'.

Lemma reachable_size sz n cb pm : reachable sz n cb pm -> 0 < sz <= PGSIZE.
Proof.
  induction 1 as [cb pm Hi _ | | ]; auto.
  unfold cb_init in Hi.
  destruct (Z.leb_spec sz 0), (Z.gtb_spec sz PGSIZE); cbn in Hi;
    try discriminate.
  lia.
Qed.

Lemma reachable_inv sz n cb pm :
  reachable sz n cb pm -> Z.of_nat n * sz <= INT_MAX ->
  Inv (Z.of_nat n * sz) cb /\ pages_ok pm /\ bufsz cb = sz.
Proof.
  intros Hr. pose proof (reachable_size _ _ _ _ Hr) as Hsz0.
  induction Hr as [cb pm Hi Hpm
                  | U HU Hok n cb pm src cb' src' pm' res Hr IH Hstep
                  | U HU Hok n cb pm dst max cb' dst' pm' res Hr IH Hstep];
    intros Hmax.
  - unfold cb_init in Hi.
    destruct (Z.leb_spec sz 0), (Z.gtb_spec sz PGSIZE); cbn in Hi;
      try discriminate.
    injection Hi as <-. split_and!; auto.
    split; cbn; try lia. discriminate.
  - destruct IH as (HI & Hpm & Hsz); [nia|].
    eapply copyin_inv in Hstep; eauto; try nia; try (rewrite Hsz; nia).
    destruct Hstep as (HI' & ? & Hsz'). split_and!; auto; [|lia].
    rewrite Hsz in HI'. eapply Inv_mono; [|exact HI']. lia.
  - destruct IH as (HI & Hpm & Hsz); [nia|].
    eapply copyout_n_inv in Hstep; eauto; try nia.
    destruct Hstep as (HI' & ? & Hsz'). split_and!; auto; [|lia].
    eapply Inv_mono; [|exact HI']. lia.
Qed.

End CircbufInv.

(** ** Properties of the circular buffer *)

Module CircbufFacts.
Import Circbuf CircbufInv Fakeubuf.

Definition bytes (s : string) : list uint8 := list_byte_of_string s.

(** A page that was not zeroed, at physical address 0x77000. *)
Definition page0 : list uint8 := repeat x2a (Z.to_nat PGSIZE).
Definition pm0 : physmem :=
  {| reflog := []; newpages := [Some (page0, 487424)] |}.

Lemma pages_ok_pm0 : pages_ok pm0.
Proof.
  unfold pages_ok, pm0. cbn -[page0 PGSIZE].
  constructor; [|constructor].
  intros pg p [= <- <-]. unfold len, page0. rewrite repeat_length.
  reflexivity.
Defined.

(** C1. Starting from cb_init, after any interleaving of copyin and
    copyout_n calls (any user buffers that report counts within the slice
    they are handed, any allocator answers), as long as the number of calls
    times the buffer size stays within the range of a Go int (no call moves
    more than bufsz bytes, so head has not wrapped): head >= tail,
    head - tail <= bufsz, empty() is true exactly when head = tail and
    full() exactly when head - tail = bufsz. *)
Theorem circbuf_counters_invariant sz n cb pm :
  reachable sz n cb pm ->
  Z.of_nat n * sz <= INT_MAX ->
  tail cb <= head cb /\
  head cb - tail cb <= bufsz cb /\
  (empty cb = true <-> head cb = tail cb) /\
  (full cb = true <-> head cb - tail cb = bufsz cb).
Proof.
  intros Hr Hmax.
  destruct (reachable_inv _ _ _ _ Hr Hmax) as ([Hsz Ht Hu Hh _] & _ & _).
  split_and!; try lia.
  - unfold empty. apply Z.eqb_eq.
  - unfold full. rewrite wrap_int_id.
    + apply Z.eqb_eq.
    + unfold INT_MIN, INT_MAX, PGSIZE in *. lia.
Qed.

(** The state after: init(8), copyin "ABCDEFGH", copyout_n 3, copyin "IJ". *)
Lemma circbuf_counters_invariant_witness :
  exists cb pm,
    reachable 8 3 cb pm /\ Z.of_nat 3 * 8 <= INT_MAX /\
    head cb = 10 /\ tail cb = 3 /\
    (tail cb <= head cb /\
     head cb - tail cb <= bufsz cb /\
     (empty cb = true <-> head cb = tail cb) /\
     (full cb = true <-> head cb - tail cb = bufsz cb)).
Proof.
  assert (R0 : reachable 8 0 {| buf := None; bufsz := 8; head := 0; tail := 0;
                               p_pg := 0 |} pm0)
    by (apply reach_init; [reflexivity | apply pages_ok_pm0]).
  assert (R : exists cb pm, reachable 8 3 cb pm /\ head cb = 10 /\ tail cb = 3).
  { eexists _, _. split.
    - eapply (reach_copyin 8 2 _ _ (fake_init (bytes "IJ"))).
      + eapply (reach_copyout 8 1 _ _ (fake_init (repeat x00 16)) 3).
        * eapply (reach_copyin 8 0 _ _ (fake_init (bytes "ABCDEFGH")));
            [exact R0 | vm_compute; reflexivity].
        * vm_compute; reflexivity.
      + vm_compute; reflexivity.
    - split; reflexivity. }
  destruct R as (cb & pm & R & Hh & Ht).
  assert (B : Z.of_nat 3 * 8 <= INT_MAX) by (unfold INT_MAX; lia).
  exists cb, pm.
  exact (conj R (conj B (conj Hh (conj Ht
           (circbuf_counters_invariant 8 3 cb pm R B))))).
Defined.

(** The scenario of the spec on a fresh buffer of size 8: write
    "ABCDEFGH", read into [dst1] with limit [max1], write "IJ", read into
    [dst2] with limit [max2].  Returns what each call returned, whether the
    buffer was full after the first write and empty at the end, and the
    bytes that reached the two destinations. *)
Definition scenario (pm : physmem) (dst1 : list uint8) (max1 : Z)
    (dst2 : list uint8) (max2 : Z)
  : outcome ((Z * Err_t) * bool * (Z * Err_t) * string * (Z * Err_t)
             * (Z * Err_t) * string * bool) :=
  '(cb, _) ← cb_init zero 8;
  '(cb, _, pm, r1) ← copyin cb (fake_init (bytes "ABCDEFGH")) pm;
  let f := full cb in
  '(cb, d1, pm, r2) ← copyout_n cb (fake_init dst1) max1 pm;
  '(cb, _, pm, r3) ← copyin cb (fake_init (bytes "IJ")) pm;
  '(cb, d2, pm, r4) ← copyout_n cb (fake_init dst2) max2 pm;
  Done (r1, f, r2, string_of_list_byte (stored d1), r3, r4,
        string_of_list_byte (stored d2), empty cb).

Lemma slice_to_page (pg : list uint8) sz :
  len pg = PGSIZE -> 0 <= sz <= PGSIZE ->
  slice_to pg sz = Done (take (Z.to_nat sz) pg).
Proof.
  intros Hpg Hsz. unfold slice_to, slice_range. rewrite Hpg.
  destruct (Z.leb_spec 0 sz), (Z.leb_spec sz PGSIZE); try lia.
  cbn. rewrite Z.sub_0_r. reflexivity.
Qed.

(** The first write allocates the page and fills the buffer, whatever the
    page held. *)
Lemma copyin_first pg p log rest :
  len pg = PGSIZE ->
  copyin {| buf := None; bufsz := 8; head := 0; tail := 0; p_pg := 0 |}
         (fake_init (bytes "ABCDEFGH"))
         {| reflog := log; newpages := Some (pg, p) :: rest |}
  = Done ({| buf := Some (bytes "ABCDEFGH"); bufsz := 8; head := 8;
             tail := 0; p_pg := p |},
          {| mem := bytes "ABCDEFGH"; fbuf_lo := 8; off := 0; len_ := 8 |},
          {| reflog := log ++ [Refup p]; newpages := rest |}, (8, 0)).
Proof.
  intros Hpg. unfold copyin, cb_ensure, refpg_new_nozero.
  cbn [buf bufsz newpages reflog].
  rewrite slice_to_page by (auto; unfold PGSIZE; lia).
  do 8 (destruct pg as [|? pg]; [discriminate Hpg|]).
  vm_compute. reflexivity.
Qed.

(** C2. On a circbuf_t of size 8 whose page is available (whatever the page
    holds): copyin of "ABCDEFGH" takes all 8 bytes and fills the buffer; a
    copyout limited to 3 bytes yields "ABC"; copyin of "IJ" takes both bytes;
    a copyout limited to 7 bytes yields "DEFGHIJ"; the buffer is then empty.
    The limit is given either as the max argument of copyout_n or by the
    room in the destination handed to copyout. *)
Theorem circbuf_scenario pg p log rest :
  len pg = PGSIZE ->
  let pm := {| reflog := log; newpages := Some (pg, p) :: rest |} in
  let expected :=
    Done ((8, 0), true, (3, 0), "ABC"%string, (2, 0), (7, 0),
          "DEFGHIJ"%string, true) in
  scenario pm (repeat x00 16) 3 (repeat x00 16) 7 = expected /\
  scenario pm (repeat x00 3) 0 (repeat x00 7) 0 = expected.
Proof.
  intros Hpg pm expected. subst pm expected. unfold scenario.
  change (cb_init zero 8)
    with (Done ({| buf := None; bufsz := 8; head := 0; tail := 0;
                   p_pg := 0 |}, 0)).
  cbn [mbind outcome_bind].
  rewrite copyin_first by exact Hpg.
  split; vm_compute; reflexivity.
Qed.

Lemma circbuf_scenario_witness :
  len page0 = PGSIZE /\
  scenario pm0 (repeat x00 16) 3 (repeat x00 16) 7
  = Done ((8, 0), true, (3, 0), "ABC"%string, (2, 0), (7, 0),
          "DEFGHIJ"%string, true).
Proof.
  assert (Hpg : len page0 = PGSIZE)
    by (unfold len, page0; rewrite repeat_length; reflexivity).
  exact (conj Hpg (proj1 (circbuf_scenario page0 487424 [] [] Hpg))).
Defined.

(** A buffer that was initialised and had its head advanced before any page
    was attached: reachable through [cb_init] and [_advhead] alone. *)
Definition advanced_unbacked : circbuf_t :=
  {| buf := None; bufsz := 8; head := 3; tail := 0; p_pg := 0 |}.

(** A buffer in use: page at 0x77000, five bytes queued. *)
Definition in_use : circbuf_t :=
  {| buf := Some (bytes "ABCDEFGH"); bufsz := 8; head := 8; tail := 3;
     p_pg := 487424 |}.

(** C9, as stated, fails: cb_release on a buffer whose buf is nil returns at
    once, so it does not leave head = 0 on a buffer whose head was advanced
    before a page was attached, nor p_pg = 0 on a buffer that
    cb_init_phys was handed a nil slice for. *)
Lemma cb_release_nil_keeps_fields :
  (cb ← cb_init zero 8; _advhead cb.1 3) = Done advanced_unbacked /\
  cb_release advanced_unbacked pm0 = (advanced_unbacked, pm0) /\
  head (cb_release advanced_unbacked pm0).1 = 3 /\
  buf (cb_init_phys zero None 487424 pm0).1 = None /\
  p_pg (cb_release (cb_init_phys zero None 487424 pm0).1 pm0).1 = 487424 /\
  ~ (forall cb pm,
       let cb' := (cb_release cb pm).1 in
       buf cb' = None /\ p_pg cb' = 0 /\ head cb' = 0 /\ tail cb' = 0).
Proof.
  split_and!; try reflexivity.
  intros Hall. specialize (Hall advanced_unbacked pm0).
  cbn in Hall. destruct Hall as (_ & _ & Hh & _). discriminate Hh.
Qed.

(** C9, amended. cb_release is total and idempotent on every circbuf_t
    state: when buf is nil it changes nothing (neither the struct nor the
    page reference counts); otherwise it drops one reference to p_pg and
    leaves p_pg = 0 and head = tail = 0; after any call buf is nil, and a
    second call changes nothing more. *)
Theorem cb_release_idempotent cb pm :
  let r := cb_release cb pm in
  (buf cb = None -> r = (cb, pm)) /\
  (buf cb <> None ->
   p_pg r.1 = 0 /\ head r.1 = 0 /\ tail r.1 = 0 /\ bufsz r.1 = bufsz cb /\
   r.2 = refdown (p_pg cb) pm) /\
  buf r.1 = None /\
  cb_release r.1 r.2 = r.
Proof.
  unfold cb_release. destruct (buf cb) as [b|] eqn:Eb; cbn.
  - split_and!; auto. discriminate.
  - rewrite Eb. split_and!; auto. congruence.
Qed.

Lemma cb_release_idempotent_witness :
  in_use.(buf) <> None /\
  cb_release in_use pm0
  = ({| buf := None; bufsz := 8; head := 0; tail := 0; p_pg := 0 |},
     {| reflog := [Refdown 487424]; newpages := newpages pm0 |}) /\
  cb_release (cb_release in_use pm0).1 (cb_release in_use pm0).2
  = cb_release in_use pm0.
Proof.
  split; [discriminate|]. split; [reflexivity|].
  exact (proj2 (proj2 (proj2 (cb_release_idempotent in_use pm0)))).
Defined.

End CircbufFacts.

(** ** passfd_t: the queue of file descriptors in flight *)

Module Passfd.
Section Passfd.

(** What a [*common.Fd_t] points to; the pointer itself is an option, nil
    being [None]. *)
Variable Fd_t : Type.

Record passfd_t : Type := {
  cb : option (list (option Fd_t));
  inum : Z;
  cnum : Z
}.

(** The zero value of the struct. *)
Definition zero : passfd_t := {| cb := None; inum := 0; cnum := 0 |}.

Definition cb_elems (pf : passfd_t) : list (option Fd_t) := default [] (cb pf).

(** [s[i]]. *)
Definition index {A} (s : list A) (i : Z) : outcome A :=
  if i <? 0 then Panic "index out of range" else
  match s !! Z.to_nat i with
  | Some x => Done x
  | None => Panic "index out of range"
  end.

(** [s[i] = x]. *)
Definition store {A} (s : list A) (i : Z) (x : A) : outcome (list A) :=
  if (0 <=? i) && (i <? len s) then Done (<[Z.to_nat i := x]> s)
  else Panic "index out of range".

Definition add (pf : passfd_t) (nfd : option Fd_t) : outcome (passfd_t * bool) :=
  let pf :=
    match cb pf with
    | None => {| cb := Some (replicate 10 None); inum := inum pf;
                 cnum := cnum pf |}
    | Some _ => pf
    end in
  let l := wrap_uint (len (cb_elems pf)) in
  if wrap_uint (inum pf - cnum pf) =? l then Done (pf, false) else
  i ← rem (inum pf) l;
  elems ← store (cb_elems pf) i nfd;
  Done ({| cb := Some elems; inum := wrap_uint (inum pf + 1);
           cnum := cnum pf |}, true).

Definition take (pf : passfd_t) : outcome (passfd_t * (option Fd_t * bool)) :=
  let l := wrap_uint (len (cb_elems pf)) in
  if inum pf =? cnum pf then Done (pf, (None, false)) else
  i ← rem (cnum pf) l;
  ret ← index (cb_elems pf) i;
  Done ({| cb := cb pf; inum := inum pf; cnum := wrap_uint (cnum pf + 1) |},
        (ret, true)).

(** The loop of [closeall]; [closed] collects the descriptors whose
    [fops.close()] was called.  [None] means the fuel ran out before the
    loop ended. *)
Fixpoint closeall_loop (fuel : nat) (pf : passfd_t) (closed : list Fd_t)
  : option (outcome (passfd_t * list Fd_t)) :=
  match fuel with
  | O => None
  | S fuel =>
      match take pf with
      | Panic msg => Some (Panic msg)
      | Done (pf, (fd, ok)) =>
          if negb ok then Some (Done (pf, closed)) else
          match fd with
          | None => Some (Panic "nil pointer dereference")
          | Some f => closeall_loop fuel pf (closed ++ [f])
          end
      end
  end.

Definition closeall (fuel : nat) (pf : passfd_t)
  : option (outcome (passfd_t * list Fd_t)) :=
  closeall_loop fuel pf [].

End Passfd.
Arguments zero {Fd_t}.
Arguments cb {Fd_t} _.
Arguments inum {Fd_t} _.
Arguments cnum {Fd_t} _.
Arguments cb_elems {Fd_t} _.
Arguments add {Fd_t} _ _.
Arguments take {Fd_t} _.
Arguments closeall_loop {Fd_t} _ _ _.
Arguments closeall {Fd_t} _ _.
End Passfd.

(** ** Properties of the fd pass queue *)

Module PassfdFacts.
Import Passfd.

Section Facts.
Variable Fd_t : Type.

Inductive op : Type :=
| Add (nfd : option Fd_t)
| Take.

Inductive reply : Type :=
| Added (ok : bool)
| Taken (fd : option Fd_t) (ok : bool).

(** A sequence of calls on the queue, with what each returned. *)
Fixpoint run (pf : passfd_t Fd_t) (ops : list op)
  : outcome (passfd_t Fd_t * list reply) :=
  match ops with
  | [] => Done (pf, [])
  | Add nfd :: ops =>
      '(pf, ok) ← add pf nfd;
      '(pf, rs) ← run pf ops;
      Done (pf, Added ok :: rs)
  | Take :: ops =>
      '(pf, (fd, ok)) ← take pf;
      '(pf, rs) ← run pf ops;
      Done (pf, Taken fd ok :: rs)
  end.

(** The queue as the spec words it: capacity 10, [add] returns false when
    full, [take] returns the oldest. *)
Definition spec_capacity : nat := 10.

Definition spec_add (q : list (option Fd_t)) (nfd : option Fd_t)
  : list (option Fd_t) * bool :=
  if (length q <? spec_capacity)%nat then (q ++ [nfd], true) else (q, false).

Definition spec_take (q : list (option Fd_t))
  : list (option Fd_t) * (option Fd_t * bool) :=
  match q with
  | [] => ([], (None, false))
  | oldest :: q => (q, (oldest, true))
  end.

Fixpoint spec_run (q : list (option Fd_t)) (ops : list op) : list reply :=
  match ops with
  | [] => []
  | Add nfd :: ops =>
      let '(q, ok) := spec_add q nfd in Added ok :: spec_run q ops
  | Take :: ops =>
      let '(q, (fd, ok)) := spec_take q in Taken fd ok :: spec_run q ops
  end.

(** [pf] holds the queue [q], fewer than [n] descriptors having been added
    since the zero value. *)
Definition repr (n : Z) (pf : passfd_t Fd_t) (q : list (option Fd_t)) : Prop :=
  0 <= cnum pf /\ inum pf = cnum pf + len q /\ len q <= 10 /\ inum pf <= n /\
  match cb pf with
  | None => q = []
  | Some elems =>
      length elems = 10%nat /\
      forall j : nat, (j < length q)%nat ->
        elems !! Z.to_nat ((cnum pf + Z.of_nat j) mod 10) = q !! j
  end.

Lemma repr_zero : repr 0 zero [].
Proof. unfold repr, len. cbn. split_and!; auto; lia. Qed.

Lemma ring_slots_differ c j k :
  0 <= c -> 0 <= j < k -> k < j + 10 ->
  Z.to_nat ((c + j) mod 10) <> Z.to_nat ((c + k) mod 10).
Proof.
  intros Hc Hj Hk Heq.
  pose proof (Z.mod_pos_bound (c + j) 10 ltac:(lia)).
  pose proof (Z.mod_pos_bound (c + k) 10 ltac:(lia)).
  pose proof (Z.div_mod (c + j) 10 ltac:(lia)).
  pose proof (Z.div_mod (c + k) 10 ltac:(lia)).
  lia.
Qed.

Lemma add_refines n pf q nfd :
  repr n pf q -> n + 1 < UINT_MOD ->
  exists pf',
    add pf nfd = Done (pf', (spec_add q nfd).2) /\
    repr (n + 1) pf' (spec_add q nfd).1.
Proof.
  intros (Hc & Hi & Hq & Hn & Hcb) Hmax. unfold add, spec_add, spec_capacity.
  set (pf1 := match cb pf with
              | None => {| cb := Some (replicate 10 None); inum := inum pf;
                           cnum := cnum pf |}
              | Some _ => pf
              end).
  assert (H1 : inum pf1 = inum pf /\ cnum pf1 = cnum pf /\
               exists elems, cb pf1 = Some elems /\ length elems = 10%nat /\
                 forall j : nat, (j < length q)%nat ->
                   elems !! Z.to_nat ((cnum pf + Z.of_nat j) mod 10) = q !! j).
  { subst pf1. destruct (cb pf) as [elems|] eqn:Ecb0; cbn.
    - destruct Hcb as [Hlen Hlook]. split_and!; auto.
      exists elems. split_and!; auto.
    - subst q. split_and!; auto.
      exists (replicate 10 None). split_and!; auto.
      cbn. intros; lia. }
  destruct H1 as (Ei & Ec & elems & Ecb & Hlen & Hlook).
  unfold cb_elems. rewrite Ecb, Ei, Ec. cbn [default from_option id].
  unfold len in *. rewrite Hlen.
  change (wrap_uint (Z.of_nat 10)) with 10.
  replace (inum pf - cnum pf) with (Z.of_nat (length q)) by lia.
  rewrite wrap_uint_id by (unfold UINT_MOD in *; lia).
  destruct (Nat.ltb_spec (length q) 10), (Z.eqb_spec (Z.of_nat (length q)) 10);
    try lia; cbn.
  - unfold rem, store. cbn. unfold len. rewrite Hlen.
    change (Z.of_nat 10) with 10.
    rewrite Z.rem_mod_nonneg by lia.
    pose proof (Z.mod_pos_bound (inum pf) 10 ltac:(lia)) as Hb.
    destruct (Z.leb_spec 0 (inum pf mod 10)), (Z.ltb_spec (inum pf mod 10) 10);
      try lia. cbn.
    rewrite wrap_uint_id by (unfold UINT_MOD in *; lia).
    eexists. split; [reflexivity|].
    unfold repr, len. cbn. rewrite length_app, length_insert. cbn.
    split_and!; try lia.
    intros j Hj.
    destruct (decide (j = length q)) as [->|Hne].
    + rewrite <- Hi.
      rewrite list_lookup_insert_eq by (rewrite Hlen; lia).
      rewrite lookup_app_r, Nat.sub_diag by lia. reflexivity.
    + rewrite Hi, list_lookup_insert_ne
        by (apply not_eq_sym, ring_slots_differ; lia).
      rewrite lookup_app_l by lia. apply Hlook. lia.
  - exists pf1. split; [reflexivity|].
    unfold repr, len. rewrite Ei, Ec, Ecb. split_and!; auto; lia.
Qed.

Lemma take_refines n pf q :
  repr n pf q -> n < UINT_MOD ->
  exists pf',
    take pf = Done (pf', (spec_take q).2) /\
    repr n pf' (spec_take q).1.
Proof.
  intros (Hc & Hi & Hq & Hn & Hcb) Hmax. unfold take, spec_take, len in *.
  destruct q as [|oldest q]; cbn in *.
  - destruct (Z.eqb_spec (inum pf) (cnum pf)); [|lia].
    exists pf. split; [reflexivity|].
    unfold repr, len. cbn. split_and!; auto; lia.
  - destruct (Z.eqb_spec (inum pf) (cnum pf)); [lia|].
    destruct (cb pf) as [elems|] eqn:Ecb; [|discriminate].
    destruct Hcb as [Hlen Hlook].
    unfold cb_elems. rewrite Ecb. cbn [default from_option id].
    unfold len. rewrite Hlen.
    change (wrap_uint (Z.of_nat 10)) with 10.
    unfold rem, index. cbn. rewrite Z.rem_mod_nonneg by lia.
    pose proof (Z.mod_pos_bound (cnum pf) 10 ltac:(lia)) as Hb.
    destruct (Z.ltb_spec (cnum pf mod 10) 0); [lia|].
    specialize (Hlook 0%nat ltac:(lia)) as H0.
    rewrite Z.add_0_r in H0. rewrite H0. cbn.
    rewrite wrap_uint_id by (unfold UINT_MOD in *; lia).
    eexists. split; [reflexivity|].
    unfold repr, len. cbn. rewrite ?Ecb. split_and!; try lia.
    intros j Hj. specialize (Hlook (S j) ltac:(lia)).
    change ((oldest :: q) !! S j) with (q !! j) in Hlook.
    rewrite <- Hlook. do 3 f_equal. lia.
Qed.

Lemma run_refines ops : forall n pf q,
  repr n pf q -> n + len ops < UINT_MOD ->
  exists pf', run pf ops = Done (pf', spec_run q ops).
Proof.
  induction ops as [|[nfd|] ops IH]; intros n pf q Hr Hmax; unfold len in *.
  - cbn. eauto.
  - cbn [run spec_run length] in *.
    destruct (add_refines n pf q nfd Hr ltac:(lia)) as (pf1 & -> & Hr1).
    destruct (spec_add q nfd) as [q1 ok]. cbn in *.
    destruct (IH (n + 1) pf1 q1 Hr1 ltac:(lia)) as (pf2 & ->). cbn. eauto.
  - cbn [run spec_run length] in *.
    destruct (take_refines n pf q Hr ltac:(lia)) as (pf1 & -> & Hr1).
    destruct (spec_take q) as [q1 [fd ok]]. cbn in *.
    destruct (IH n pf1 q1 Hr1 ltac:(lia)) as (pf2 & ->). cbn. eauto.
Qed.

(** With fuel for one more round than there are queued descriptors,
    [closeall] ends, having closed them oldest first. *)
Lemma closeall_loop_drains n (q : list Fd_t) : forall pf closed,
  repr n pf (map Some q) -> n < UINT_MOD ->
  exists pf',
    closeall_loop (S (length q)) pf closed = Some (Done (pf', closed ++ q)) /\
    inum pf' = cnum pf'.
Proof.
  induction q as [|f q IH]; intros pf closed Hr Hmax.
  - destruct (take_refines n pf [] Hr Hmax) as (pf1 & Et & Hr1).
    cbn in *. rewrite Et. cbn. rewrite app_nil_r.
    exists pf1. split; [reflexivity|].
    destruct Hr1 as (_ & Hi & _). unfold len in Hi. cbn in Hi. lia.
  - destruct (take_refines n pf (map Some (f :: q)) Hr Hmax)
      as (pf1 & Et & Hr1).
    cbn [map spec_take fst snd] in *.
    change (closeall_loop (S (length (f :: q))) pf closed)
      with (match take pf with
            | Panic msg => Some (Panic msg)
            | Done (pf, (fd, ok)) =>
                if negb ok then Some (Done (pf, closed)) else
                match fd with
                | None => Some (Panic "nil pointer dereference")
                | Some f => closeall_loop (S (length q)) pf (closed ++ [f])
                end
            end).
    rewrite Et. cbn [negb].
    destruct (IH pf1 (closed ++ [f]) Hr1 Hmax) as (pf2 & -> & Hi).
    exists pf2. rewrite <- app_assoc. auto.
Qed.

(** C6. The fd pass queue has capacity 10 and is first-in first-out.
    From the zero value, 10 adds of any descriptors return true and the 11th
    returns false; the takes that follow return the 10 descriptors in the
    order they were added and then report the queue empty.  For any sequence
    of add and take calls on the zero value (fewer than 2^64 of them, the
    range of the uint counters), every call returns what the spec's
    queue returns: add is refused exactly when 10 descriptors are queued, take
    yields the oldest queued descriptor. *)
Theorem passfd_capacity_fifo :
  (forall (fds : list (option Fd_t)) (extra : option Fd_t),
     length fds = 10%nat ->
     exists pf,
       run zero (map Add fds ++ [Add extra] ++ replicate 11 Take)
       = Done (pf, replicate 10 (Added true) ++ [Added false]
                   ++ map (fun fd => Taken fd true) fds
                   ++ [Taken None false])) /\
  (forall ops : list op,
     len ops < UINT_MOD ->
     exists pf, run zero ops = Done (pf, spec_run [] ops)).
Proof.
  split.
  - intros fds extra Hlen.
    do 10 (destruct fds as [|? fds]; [discriminate Hlen|]).
    destruct fds; [|discriminate Hlen].
    eexists. vm_compute. reflexivity.
  - intros ops Hlen. apply (run_refines ops 0); [apply repr_zero | lia].
Qed.

(** C10. On the zero value of passfd_t, take returns (nil, false) and
    closeall ends at once having closed nothing, both leaving the struct
    untouched.  The same holds whenever inum = cnum, whatever cb is: the
    test comes before the ring index is computed, which on the zero value
    would divide by the ring length 0. *)
Theorem passfd_zero_value_safe :
  take (@zero Fd_t) = Done (zero, (None, false)) /\
  (forall fuel, closeall (S fuel) (@zero Fd_t) = Some (Done (zero, []))) /\
  (forall pf : passfd_t Fd_t,
     inum pf = cnum pf ->
     take pf = Done (pf, (None, false)) /\
     forall fuel, closeall (S fuel) pf = Some (Done (pf, []))) /\
  is_done (rem (cnum (@zero Fd_t)) (wrap_uint (len (cb_elems (@zero Fd_t)))))
  = false.
Proof.
  assert (Hempty : forall pf : passfd_t Fd_t,
             inum pf = cnum pf -> take pf = Done (pf, (None, false))).
  { intros pf E. unfold take. rewrite E, Z.eqb_refl. reflexivity. }
  split_and!.
  - apply Hempty. reflexivity.
  - intros fuel. unfold closeall. cbn [closeall_loop].
    rewrite Hempty by reflexivity. reflexivity.
  - intros pf E. split; [auto|].
    intros fuel. unfold closeall. cbn [closeall_loop].
    rewrite Hempty by exact E. reflexivity.
  - reflexivity.
Qed.

End Facts.

Definition ten_fds : list (option nat) :=
  map Some [1; 2; 3; 4; 5; 6; 7; 8; 9; 10]%nat.

Definition interleaved : list (op nat) :=
  [Add nat (Some 1%nat); Add nat (Some 2%nat); Take nat;
   Add nat (Some 3%nat); Take nat; Take nat; Take nat].

Lemma passfd_capacity_fifo_witness :
  (length ten_fds = 10%nat /\
   exists pf,
     run nat zero (map (Add nat) ten_fds ++ [Add nat (Some 11%nat)]
                   ++ replicate 11 (Take nat))
     = Done (pf, replicate 10 (Added nat true) ++ [Added nat false]
                 ++ map (fun fd => Taken nat fd true) ten_fds
                 ++ [Taken nat None false])) /\
  (len interleaved < UINT_MOD /\
   exists pf,
     run nat zero interleaved
     = Done (pf, [Added nat true; Added nat true; Taken nat (Some 1%nat) true;
                  Added nat true; Taken nat (Some 2%nat) true;
                  Taken nat (Some 3%nat) true; Taken nat None false])).
Proof.
  assert (H10 : length ten_fds = 10%nat) by reflexivity.
  assert (Hlen : len interleaved < UINT_MOD) by reflexivity.
  split.
  - exact (conj H10
             (proj1 (passfd_capacity_fifo nat) ten_fds (Some 11%nat) H10)).
  - exact (conj Hlen (proj2 (passfd_capacity_fifo nat) interleaved Hlen)).
Defined.

(** An empty queue whose ring is a non-nil slice of length zero. *)
Definition drained : passfd_t nat := {| cb := Some []; inum := 5; cnum := 5 |}.

Lemma passfd_zero_value_safe_witness :
  inum drained = cnum drained /\
  take drained = Done (drained, (None, false)) /\
  closeall 1 drained = Some (Done (drained, [])).
Proof.
  assert (E : inum drained = cnum drained) by reflexivity.
  destruct (proj1 (proj2 (proj2 (passfd_zero_value_safe nat))) drained E)
    as [Ht Hc].
  exact (conj E (conj Ht (Hc 0%nat))).
Defined.

End PassfdFacts.

(** ** closeall after a history of add and take *)

Module PassfdClose.
Import Passfd PassfdFacts.

Section Facts.
Variable Fd_t : Type.

Abbreviation op := (op Fd_t).

(** The descriptors queued after a history, oldest first, in the spec's
    queue. *)
Fixpoint spec_queue (q : list (option Fd_t)) (ops : list op)
  : list (option Fd_t) :=
  match ops with
  | [] => q
  | Add _ nfd :: ops => spec_queue (spec_add Fd_t q nfd).1 ops
  | Take _ :: ops => spec_queue (spec_take Fd_t q).1 ops
  end.

Lemma run_state ops : forall n pf q,
  repr Fd_t n pf q -> n + len ops < UINT_MOD ->
  exists pf',
    run Fd_t pf ops = Done (pf', spec_run Fd_t q ops) /\
    repr Fd_t (n + len ops) pf' (spec_queue q ops).
Proof.
  induction ops as [|[nfd|] ops IH]; intros n pf q Hr Hmax; unfold len in *.
  - cbn. exists pf. split; [reflexivity|].
    rewrite Z.add_0_r. exact Hr.
  - cbn [run spec_run spec_queue length] in *.
    destruct (add_refines Fd_t n pf q nfd Hr ltac:(lia)) as (pf1 & -> & Hr1).
    destruct (spec_add Fd_t q nfd) as [q1 ok]. cbn in *.
    destruct (IH (n + 1) pf1 q1 Hr1 ltac:(lia)) as (pf2 & -> & Hr2).
    cbn. exists pf2. split; [reflexivity|].
    replace (n + Z.of_nat (S (length ops)))
      with (n + 1 + Z.of_nat (length ops)) by lia.
    exact Hr2.
  - cbn [run spec_run spec_queue length] in *.
    destruct (take_refines Fd_t n pf q Hr ltac:(lia)) as (pf1 & -> & Hr1).
    destruct (spec_take Fd_t q) as [q1 [fd ok]]. cbn in *.
    destruct (IH n pf1 q1 Hr1 ltac:(lia)) as (pf2 & -> & Hr2).
    cbn. exists pf2. split; [reflexivity|].
    destruct Hr2 as (H1 & H2 & H3 & H4 & H5).
    unfold repr. split_and!; auto. lia.
Qed.

(** One round of the loop. *)
Lemma closeall_loop_round fuel (pf : passfd_t Fd_t) closed :
  closeall_loop (S fuel) pf closed =
  match take pf with
  | Panic msg => Some (Panic msg)
  | Done (pf, (fd, ok)) =>
      if negb ok then Some (Done (pf, closed)) else
      match fd with
      | None => Some (Panic "nil pointer dereference")
      | Some f => closeall_loop fuel pf (closed ++ [f])
      end
  end.
Proof. reflexivity. Qed.

(** The loop on a queue whose first [length fds] entries are descriptors:
    it closes them oldest first; it then ends if nothing else is queued and
    dereferences nil if a nil entry follows. *)
Lemma closeall_loop_runs n (fds : list Fd_t) : forall rest fuel pf closed,
  repr Fd_t n pf (map Some fds ++ rest) -> n < UINT_MOD ->
  (length fds < fuel)%nat ->
  match rest with
  | [] =>
      exists pf',
        closeall_loop fuel pf closed = Some (Done (pf', closed ++ fds)) /\
        inum pf' = cnum pf' /\ inum pf' = inum pf /\ cb pf' = cb pf
  | None :: _ =>
      closeall_loop fuel pf closed = Some (Panic "nil pointer dereference")
  | Some _ :: _ => True
  end.
Proof.
  induction fds as [|f fds IH]; intros rest fuel pf closed Hr Hmax Hfuel;
    (destruct fuel as [|fuel]; [cbn in Hfuel; lia|]);
    rewrite closeall_loop_round.
  - cbn [map app] in Hr.
    destruct (take_refines Fd_t n pf rest Hr Hmax) as (pf1 & Et & Hr1).
    destruct rest as [|[g|] rest]; [| exact I |].
    + cbn in Et. rewrite Et. cbn. rewrite app_nil_r.
      unfold take in Et. destruct (inum pf =? cnum pf) eqn:E.
      * injection Et as <-. exists pf. split_and!; auto.
        apply Z.eqb_eq. exact E.
      * destruct Hr as (_ & Hi & _). unfold len in Hi. cbn in Hi.
        apply Z.eqb_neq in E. lia.
    + cbn in Et. rewrite Et. reflexivity.
  - cbn [map app] in Hr.
    destruct (take_refines Fd_t n pf _ Hr Hmax) as (pf1 & Et & Hr1).
    cbn [spec_take fst snd] in *. rewrite Et. cbn [negb].
    assert (Hf : inum pf1 = inum pf /\ cb pf1 = cb pf).
    { unfold take in Et. destruct (inum pf =? cnum pf); [discriminate|].
      destruct (rem _ _); [|discriminate]. cbn in Et.
      destruct (index _ _); [|discriminate]. cbn in Et.
      injection Et as <-. auto. }
    destruct Hf as [Hi1 Hc1].
    cbn [length] in Hfuel.
    specialize (IH rest fuel pf1 (closed ++ [f]) Hr1 Hmax ltac:(lia)).
    destruct rest as [|[g|] rest]; auto.
    destruct IH as (pf2 & -> & H1 & H2 & H3).
    exists pf2. rewrite <- app_assoc. split_and!; auto; congruence.
Qed.

(** The descriptors the struct holds, oldest first: the ring's entries at
    positions cnum, cnum+1, ..., inum-1. *)
Definition queued (pf : passfd_t Fd_t) : list (option Fd_t) :=
  (fun j => default None
     (cb_elems pf !! Z.to_nat ((cnum pf + j) mod len (cb_elems pf))))
    <$> seqZ 0 (inum pf - cnum pf).

Lemma repr_queued n pf q : repr Fd_t n pf q -> queued pf = q.
Proof.
  intros (Hc & Hi & Hq & Hn & Hcb). unfold queued, len in *.
  replace (inum pf - cnum pf) with (Z.of_nat (length q)) by lia.
  apply list_eq. intros j. rewrite list_lookup_fmap.
  destruct (decide (j < length q)%nat) as [Hj|Hj].
  - rewrite lookup_seqZ_lt by lia. cbn. rewrite Z.add_0_l.
    destruct (cb pf) as [elems|] eqn:Ecb.
    + destruct Hcb as [Hlen Hlook]. unfold cb_elems. rewrite Ecb. cbn.
      rewrite Hlen. change (Z.of_nat 10) with 10.
      rewrite Hlook by lia.
      destruct (q !! j) eqn:E; [reflexivity|].
      apply lookup_ge_None in E. lia.
    + subst q. cbn in Hj. lia.
  - rewrite lookup_seqZ_ge by lia. cbn. symmetry.
    apply lookup_ge_None. lia.
Qed.

Lemma run_repr ops pf rs :
  len ops < UINT_MOD -> run Fd_t zero ops = Done (pf, rs) ->
  repr Fd_t (len ops) pf (queued pf) /\ rs = spec_run Fd_t [] ops.
Proof.
  intros Hlen Hrun.
  destruct (run_state ops 0 zero [] (repr_zero Fd_t) ltac:(lia))
    as (pf' & Hrun' & Hr).
  rewrite Hrun in Hrun'. injection Hrun' as <- ->.
  rewrite Z.add_0_l in Hr. rewrite (repr_queued _ _ _ Hr). auto.
Qed.

(** X12. closeall after any history.  Take the zero value through any
    sequence of add and take calls (fewer than 2^64 of them).  If the
    descriptors then queued are all non-nil, closeall ends after one round
    more than there are queued descriptors, has called close on exactly the
    queued descriptors, each once, oldest first, and leaves the queue empty:
    the next take returns (nil, false). *)
Theorem closeall_closes_queued ops pf rs (fds : list Fd_t) fuel :
  len ops < UINT_MOD ->
  run Fd_t zero ops = Done (pf, rs) ->
  queued pf = map Some fds ->
  (length fds < fuel)%nat ->
  exists pf',
    closeall fuel pf = Some (Done (pf', fds)) /\
    queued pf' = [] /\
    take pf' = Done (pf', (None, false)).
Proof.
  intros Hlen Hrun Hq Hfuel.
  destruct (run_repr _ _ _ Hlen Hrun) as [Hr _].
  rewrite Hq, <- (app_nil_r (map Some fds)) in Hr.
  destruct (closeall_loop_runs _ fds [] fuel pf [] Hr Hlen Hfuel)
    as (pf' & Hc & He & _ & _).
  exists pf'. split_and!.
  - exact Hc.
  - unfold queued. rewrite He, Z.sub_diag. reflexivity.
  - unfold take. rewrite He, Z.eqb_refl. reflexivity.
Qed.

(** X13. add does not refuse a nil descriptor, and closeall does not skip
    one: after any history from the zero value, if the queue holds a nil
    entry behind some non-nil descriptors, closeall panics with a nil
    pointer dereference when it reaches it (fd.fops.close() on nil). *)
Theorem closeall_panics_on_nil ops pf rs (fds : list Fd_t) rest fuel :
  len ops < UINT_MOD ->
  run Fd_t zero ops = Done (pf, rs) ->
  queued pf = map Some fds ++ None :: rest ->
  (length fds < fuel)%nat ->
  closeall fuel pf = Some (Panic "nil pointer dereference").
Proof.
  intros Hlen Hrun Hq Hfuel.
  destruct (run_repr _ _ _ Hlen Hrun) as [Hr _].
  rewrite Hq in Hr.
  exact (closeall_loop_runs _ fds (None :: rest) fuel pf [] Hr Hlen Hfuel).
Qed.

End Facts.

Definition history : list (PassfdFacts.op nat) :=
  [Add nat (Some 1%nat); Add nat (Some 2%nat); Take nat;
   Add nat (Some 3%nat)].

Lemma closeall_closes_queued_witness :
  exists pf rs pf',
    run nat zero history = Done (pf, rs) /\
    queued nat pf = [Some 2%nat; Some 3%nat] /\
    closeall 3 pf = Some (Done (pf', [2%nat; 3%nat])) /\
    queued nat pf' = [] /\
    take pf' = Done (pf', (None, false)).
Proof.
  assert (Hrun : exists pf rs,
             run nat zero history = Done (pf, rs) /\
             queued nat pf = map Some [2%nat; 3%nat]).
  { eexists _, _. split; [vm_compute; reflexivity | reflexivity]. }
  destruct Hrun as (pf & rs & Hrun & Hq).
  destruct (closeall_closes_queued nat history pf rs [2%nat; 3%nat] 3
              ltac:(reflexivity) Hrun Hq ltac:(cbn; lia))
    as (pf' & Hc & He & Ht).
  exists pf, rs, pf'. auto.
Defined.

Lemma closeall_panics_on_nil_witness :
  exists pf rs,
    run nat zero [Add nat (Some 1%nat); Add nat None; Add nat (Some 3%nat)]
      = Done (pf, rs) /\
    queued nat pf = [Some 1%nat; None; Some 3%nat] /\
    closeall 5 pf = Some (Panic "nil pointer dereference").
Proof.
  assert (Hrun : exists pf rs,
             run nat zero [Add nat (Some 1%nat); Add nat None;
                           Add nat (Some 3%nat)] = Done (pf, rs) /\
             queued nat pf = map Some [1%nat] ++ None :: [Some 3%nat]).
  { eexists _, _. split; [vm_compute; reflexivity | reflexivity]. }
  destruct Hrun as (pf & rs & Hrun & Hq).
  exists pf, rs. split; [exact Hrun|]. split; [exact Hq|].
  exact (closeall_panics_on_nil nat
           [Add nat (Some 1%nat); Add nat None; Add nat (Some 3%nat)]
           pf rs [1%nat] [Some 3%nat] 5
           ltac:(reflexivity) Hrun Hq ltac:(cbn; lia)).
Defined.

End PassfdClose.

(** ** proc_new: minting a process *)

Module Proc.
Section Proc.

(** What a [*common.Fd_t] points to. *)
Variable Fd_t : Type.

(** Constants declared outside main.go. *)
Variable RLIM_INFINITY : Z.
Variable USERMIN : Z.

(** Calls into other files: duplicating a descriptor ([copyfd], which may
    fail), reopening the working directory, and starting the first thread.
    The kernel state they depend on is outside this model, so their answers
    are parameters. *)
Variable copyfd : Fd_t -> Fd_t * Err_t.
Variable reopen : Fd_t -> Err_t.
Variable start_thread : Z -> bool.

Record ulimit_t : Type := {
  pages : Z;
  nofile : Z;
  novma : Z;
  noproc : Z
}.

Definition _deflimits : ulimit_t := {|
  pages := Z.shiftl 1 27 / Z.shiftl 1 12;
  nofile := RLIM_INFINITY;
  novma := Z.shiftl 1 8;
  noproc := Z.shiftl 1 10
|}.

(** The fields of [common.Proc_t] that [proc_new] sets. *)
Record Proc_t : Type := {
  name : string;
  pid : Z;
  fds : list (option Fd_t);
  fdstart : Z;
  nfds : Z;
  cwd : option Fd_t;
  mmapi : Z;
  ulim : ulimit_t;
  tid0 : Z;
  threads : list Z
}.

(** [&common.Proc_t{}]. *)
Definition Proc_zero : Proc_t := {|
  name := EmptyString; pid := 0; fds := []; fdstart := 0; nfds := 0;
  cwd := None; mmapi := 0;
  ulim := {| pages := 0; nofile := 0; novma := 0; noproc := 0 |};
  tid0 := 0; threads := []
|}.

Record syslimit_t : Type := { sysprocs : Z }.

(** The globals guarded by [proclock]. *)
Record globals : Type := {
  pid_cur : Z;
  nthreads : Z;
  allprocs : gmap Z Proc_t;
  syslimit : syslimit_t
}.

(** The loop over the parent's descriptors: the child's table and the
    number of slots counted in [nfds]. *)
Fixpoint clone_fds (fds : list (option Fd_t)) (nfds : Z)
  : list (option Fd_t) * Z :=
  match fds with
  | [] => ([], nfds)
  | None :: fds =>
      let '(rest, n) := clone_fds fds nfds in (None :: rest, n)
  | Some fd :: fds =>
      let '(tfd, err) := copyfd fd in
      let slot := if err =? 0 then Some tfd else None in
      let '(rest, n) := clone_fds fds (wrap_int (nfds + 1)) in
      (slot :: rest, n)
  end.

(** [allprocs] holds the pointer to the new process, so the entry made
    under the lock shows the fields as they are set afterwards; the
    globals returned carry the finished struct.  [int64(x)] of an [int] is
    the same value on this 64-bit kernel. *)
Definition proc_new (g : globals) (name : string) (cwd : option Fd_t)
    (fds : list (option Fd_t)) : outcome (globals * option Proc_t * bool) :=
  if nthreads g >=? sysprocs (syslimit g)
  then Done (g, None, false) else
  let nthreads := wrap_int (nthreads g + 1) in
  let pid_cur := wrap_int (pid_cur g + 1) in
  let np := pid_cur in
  let pid_cur := wrap_int (pid_cur + 1) in
  let tid0 := pid_cur in
  if bool_decide (is_Some (allprocs g !! np)) then Panic "pid exists" else
  let '(cfds, cnfds) := clone_fds fds 0 in
  match cwd with
  | None => Panic "nil pointer dereference"
  | Some d =>
      if negb (reopen d =? 0) then Panic "must succeed" else
      let ret := {|
        name := name; pid := np; fds := cfds; fdstart := 3; nfds := cnfds;
        cwd := cwd; mmapi := USERMIN; ulim := _deflimits; tid0 := tid0;
        threads := [tid0]
      |} in
      if negb (start_thread tid0) then Panic "silly noproc" else
      Done ({| pid_cur := pid_cur; nthreads := nthreads;
               allprocs := <[np := ret]> (allprocs g);
               syslimit := syslimit g |}, Some ret, true)
  end.

(** The arguments of one call. *)
Record call : Type := {
  c_name : string;
  c_cwd : option Fd_t;
  c_fds : list (option Fd_t)
}.

(** A sequence of calls; the pids of the processes returned, in order. *)
Fixpoint proc_news (g : globals) (calls : list call)
  : outcome (globals * list Z) :=
  match calls with
  | [] => Done (g, [])
  | c :: calls =>
      r ← proc_new g (c_name c) (c_cwd c) (c_fds c);
      '(g, pids) ← proc_news r.1.1 calls;
      Done (g, match r.1.2, r.2 with
               | Some p, true => pid p :: pids
               | _, _ => pids
               end)
  end.

End Proc.
Arguments name {Fd_t} _.
Arguments pid {Fd_t} _.
Arguments fds {Fd_t} _.
Arguments fdstart {Fd_t} _.
Arguments nfds {Fd_t} _.
Arguments cwd {Fd_t} _.
Arguments mmapi {Fd_t} _.
Arguments ulim {Fd_t} _.
Arguments tid0 {Fd_t} _.
Arguments threads {Fd_t} _.
Arguments pid_cur {Fd_t} _.
Arguments nthreads {Fd_t} _.
Arguments allprocs {Fd_t} _.
Arguments syslimit {Fd_t} _.
Arguments c_name {Fd_t} _.
Arguments c_cwd {Fd_t} _.
Arguments c_fds {Fd_t} _.
End Proc.

(** ** Properties of proc_new *)

Module ProcFacts.
Import Proc.

Section Facts.
Variable Fd_t : Type.
Variables RLIM_INFINITY USERMIN : Z.
Variable copyfd : Fd_t -> Fd_t * Err_t.
Variable reopen : Fd_t -> Err_t.
Variable start_thread : Z -> bool.

Abbreviation proc_new := (proc_new Fd_t RLIM_INFINITY USERMIN copyfd reopen
                               start_thread).
Abbreviation proc_news := (proc_news Fd_t RLIM_INFINITY USERMIN copyfd reopen
                                 start_thread).

(** A call that returns either was refused and changed nothing, or minted
    the pid after [pid_cur] and moved [pid_cur] two further. *)
Lemma proc_new_cases g name cwd fds g' ret ok :
  proc_new g name cwd fds = Done (g', ret, ok) ->
  (ok = false /\ ret = None /\ g' = g) \/
  (ok = true /\ nthreads g < sysprocs (syslimit g) /\
   exists p, ret = Some p /\
     pid p = wrap_int (pid_cur g + 1) /\
     tid0 p = wrap_int (pid p + 1) /\
     pid_cur g' = tid0 p /\
     nthreads g' = wrap_int (nthreads g + 1) /\
     allprocs g !! pid p = None /\
     allprocs g' = <[pid p := p]> (allprocs g) /\
     syslimit g' = syslimit g).
Proof.
  unfold Proc.proc_new.
  destruct (Z.geb_spec (nthreads g) (sysprocs (syslimit g))).
  - intros [= <- <- <-]. left. auto.
  - case_bool_decide as Hin; [discriminate|].
    destruct (clone_fds _ copyfd fds 0) as [cfds cnfds].
    destruct cwd as [d|]; [|discriminate].
    destruct (negb (reopen d =? 0)); [discriminate|].
    destruct (negb (start_thread _)); [discriminate|].
    intros [= <- <- <-]. right. split_and!; auto; try lia.
    eexists. split_and!; try reflexivity.
    cbn. apply eq_None_not_Some. exact Hin.
Qed.

Lemma proc_news_pids : forall calls g g' pids,
  proc_news g calls = Done (g', pids) ->
  INT_MIN <= pid_cur g -> pid_cur g + 2 * len calls <= INT_MAX ->
  pid_cur g <= pid_cur g' <= pid_cur g + 2 * len calls /\
  Forall (fun p => pid_cur g < p < pid_cur g') pids /\
  StronglySorted Z.lt pids.
Proof.
  induction calls as [|c calls IH]; intros g g' pids Hrun Hmin Hmax;
    unfold len in *; cbn [Proc.proc_news length] in *.
  - injection Hrun as <- <-. split_and!; try lia; constructor.
  - destruct (proc_new g (c_name c) (c_cwd c) (c_fds c))
      as [[[g1 ret] ok]|] eqn:Ecall; [|discriminate].
    cbn in Hrun.
    destruct (proc_news g1 calls) as [[g2 pids2]|] eqn:Erest; [|discriminate].
    cbn in Hrun. injection Hrun as <- <-.
    apply proc_new_cases in Ecall
      as [(-> & -> & ->) | (-> & _ & p & -> & Hp & Ht & Hc & _)].
    + destruct (IH _ _ _ Erest) as (Hb & Hall & Hs); try lia.
      split_and!; auto; lia.
    + rewrite wrap_int_id in Hp by (unfold INT_MIN, INT_MAX in *; lia).
      rewrite Hp, wrap_int_id in Ht by (unfold INT_MIN, INT_MAX in *; lia).
      destruct (IH _ _ _ Erest) as (Hb & Hall & Hs); try lia.
      split_and!; try lia.
      * constructor; [lia|].
        eapply Forall_impl; [exact Hall|]. cbn. intros; lia.
      * constructor; [exact Hs|].
        eapply Forall_impl; [exact Hall|]. cbn. intros; lia.
Qed.

(** C3. Over any sequence of proc_new calls (from any state of the globals,
    as long as pid_cur, which grows by two per successful call, stays within
    the range of a Go int), the pids of the processes returned are strictly
    increasing, each one greater than every pid returned before it, and so
    pairwise distinct. *)
Theorem proc_new_pids_increasing g calls g' pids :
  proc_news g calls = Done (g', pids) ->
  INT_MIN <= pid_cur g -> pid_cur g + 2 * len calls <= INT_MAX ->
  StronglySorted Z.lt pids /\ NoDup pids.
Proof.
  intros Hrun Hmin Hmax.
  destruct (proc_news_pids _ _ _ _ Hrun Hmin Hmax) as (_ & _ & Hs).
  split; [exact Hs|].
  clear -Hs. induction Hs as [|p pids Hs IH Hall]; constructor; auto.
  intros Hin. rewrite Forall_forall in Hall.
  apply Hall in Hin. lia.
Qed.

(** C4. When nthreads has reached syslimit.sysprocs, proc_new returns
    (nil, false) and the globals are as before the call: pid_cur, nthreads
    and allprocs are unchanged. *)
Theorem proc_new_at_cap g name cwd fds :
  nthreads g >= sysprocs (syslimit g) ->
  proc_new g name cwd fds = Done (g, None, false).
Proof.
  intros Hcap. unfold Proc.proc_new.
  destruct (Z.geb_spec (nthreads g) (sysprocs (syslimit g))); [reflexivity|lia].
Qed.

End Facts.

(** A machine whose cap is two threads, with every external call
    succeeding. *)
Definition boot : globals nat :=
  {| pid_cur := 0; nthreads := 0; allprocs := ∅;
     syslimit := {| sysprocs := 2 |} |}.

Definition sh : call nat :=
  {| c_name := "sh"; c_cwd := Some 0%nat; c_fds := [Some 0%nat; None] |}.

Definition proc_news_ok :=
  Proc.proc_news nat 0 0 (fun fd => (fd, 0)) (fun _ => 0) (fun _ => true).

Definition proc_new_ok :=
  Proc.proc_new nat 0 0 (fun fd => (fd, 0)) (fun _ => 0) (fun _ => true).

Lemma proc_new_pids_increasing_witness :
  exists g',
    proc_news_ok boot [sh; sh; sh] = Done (g', [1; 3]) /\
    pid_cur g' = 4 /\
    StronglySorted Z.lt [1; 3] /\ NoDup [1; 3].
Proof.
  assert (Hrun : exists g', proc_news_ok boot [sh; sh; sh] = Done (g', [1; 3])
                            /\ pid_cur g' = 4).
  { eexists. split; [vm_compute; reflexivity | reflexivity]. }
  destruct Hrun as (g' & Hrun & Hc).
  exists g'. split; [exact Hrun|]. split; [exact Hc|].
  apply (proc_new_pids_increasing nat 0 0 (fun fd => (fd, 0)) (fun _ => 0)
           (fun _ => true) boot [sh; sh; sh] g' [1; 3] Hrun);
    unfold INT_MIN, INT_MAX, len; cbn; lia.
Defined.

Lemma proc_new_at_cap_witness :
  exists g,
    proc_news_ok boot [sh; sh] = Done (g, [1; 3]) /\
    nthreads g >= sysprocs (syslimit g) /\
    proc_new_ok g "sh" (Some 0%nat) [] = Done (g, None, false).
Proof.
  assert (Hrun : exists g, proc_news_ok boot [sh; sh] = Done (g, [1; 3]) /\
                           nthreads g >= sysprocs (syslimit g)).
  { eexists. split; [vm_compute; reflexivity | vm_compute; discriminate]. }
  destruct Hrun as (g & Hrun & Hcap).
  exists g. split; [exact Hrun|]. split; [exact Hcap|].
  exact (proc_new_at_cap nat 0 0 (fun fd => (fd, 0)) (fun _ => 0)
           (fun _ => true) g "sh" (Some 0%nat) [] Hcap).
Defined.

End ProcFacts.

(** ** proc_new: the child's descriptor table and the process registry *)

Module ProcRuns.
Import Proc ProcFacts.

Section Facts.
Variable Fd_t : Type.
Variables RLIM_INFINITY USERMIN : Z.
Variable copyfd : Fd_t -> Fd_t * Err_t.
Variable reopen : Fd_t -> Err_t.
Variable start_thread : Z -> bool.

Abbreviation proc_new := (proc_new Fd_t RLIM_INFINITY USERMIN copyfd reopen
                               start_thread).
Abbreviation proc_news := (proc_news Fd_t RLIM_INFINITY USERMIN copyfd reopen
                                 start_thread).
Abbreviation clone_fds := (clone_fds Fd_t copyfd).

(** The slot the loop leaves for a parent's slot. *)
Definition cloned (slot : option Fd_t) : option Fd_t :=
  match slot with
  | None => None
  | Some fd => if (copyfd fd).2 =? 0 then Some (copyfd fd).1 else None
  end.

(** The parent's slots that are in use. *)
Definition in_use (fds : list (option Fd_t)) : list (option Fd_t) :=
  filter (fun slot => is_Some slot) fds.

Lemma in_use_cons_none fds : in_use (None :: fds) = in_use fds.
Proof.
  unfold in_use. rewrite filter_cons. case_decide as H; [|reflexivity].
  destruct H as [x H]. discriminate.
Qed.

Lemma in_use_cons_some fd fds : in_use (Some fd :: fds) = Some fd :: in_use fds.
Proof.
  unfold in_use. rewrite filter_cons. case_decide as H; [reflexivity|].
  destruct H. eauto.
Qed.

Lemma in_use_length fds : (length (in_use fds) <= length fds)%nat.
Proof. apply length_filter. Qed.

Lemma clone_fds_table fds : forall n,
  INT_MIN <= n -> n + len fds <= INT_MAX ->
  (clone_fds fds n).1 = map cloned fds /\
  (clone_fds fds n).2 = n + len (in_use fds).
Proof.
  unfold len. induction fds as [|[fd|] fds IH]; intros n Hmin Hmax;
    cbn [Proc.clone_fds map length] in *.
  - cbn. split; [reflexivity|lia].
  - destruct (copyfd fd) as [tfd err] eqn:Ec.
    rewrite wrap_int_id by (unfold INT_MIN, INT_MAX in *; lia).
    destruct (IH (n + 1) ltac:(lia) ltac:(lia)) as [H1 H2].
    destruct (Proc.clone_fds Fd_t copyfd fds (n + 1)) as [rest m].
    cbn [fst snd] in *. subst rest m.
    rewrite in_use_cons_some. cbn [length cloned]. rewrite Ec. cbn [fst snd].
    split; [reflexivity|lia].
  - destruct (IH n ltac:(lia) ltac:(lia)) as [H1 H2].
    destruct (Proc.clone_fds Fd_t copyfd fds n) as [rest m].
    cbn [fst snd] in *. subst rest m.
    rewrite in_use_cons_none. split; reflexivity.
Qed.

(** X19. The descriptor table of the process proc_new returns (for a
    parent table within the range of a Go int): it has the parent's length;
    a nil slot of the parent is nil in the child; a slot in use holds the
    copy copyfd made, or nil when copyfd failed; and nfds counts the
    parent's slots in use, whether or not their copy succeeded, so it is at
    least the number of descriptors the child really holds. *)
Theorem proc_new_child_fds g name cwd fds g' p :
  proc_new g name cwd fds = Done (g', Some p, true) ->
  len fds <= INT_MAX ->
  Proc.fds p = map cloned fds /\
  len (Proc.fds p) = len fds /\
  nfds p = len (in_use fds) /\
  len (in_use (Proc.fds p)) <= nfds p.
Proof.
  intros Hnew Hlen.
  assert (Hp : Proc.fds p = (clone_fds fds 0).1 /\ nfds p = (clone_fds fds 0).2).
  { revert Hnew. unfold Proc.proc_new.
    destruct (nthreads g >=? _); [discriminate|].
    case_bool_decide; [discriminate|].
    destruct (Proc.clone_fds _ copyfd fds 0) as [cfds cnfds].
    destruct cwd as [d|]; [|discriminate].
    destruct (negb (reopen d =? 0)); [discriminate|].
    destruct (negb (start_thread _)); [discriminate|].
    intros [= _ <-]. auto. }
  destruct Hp as [Hf Hn].
  destruct (clone_fds_table fds 0) as [H1 H2];
    try (unfold INT_MIN, INT_MAX in *; lia).
  rewrite Hf, Hn, H1, H2. unfold len. rewrite length_map.
  split_and!; auto; try lia.
  clear. induction fds as [|[fd|] fds IH]; cbn [map cloned].
  - cbn. lia.
  - rewrite in_use_cons_some. destruct (_ =? 0).
    + rewrite in_use_cons_some. cbn [length]. lia.
    + rewrite in_use_cons_none. cbn [length]. lia.
  - rewrite !in_use_cons_none. exact IH.
Qed.

(** Every registered pid was minted before: it is at most [pid_cur]. *)
Definition fresh (g : globals Fd_t) : Prop :=
  forall k, is_Some (allprocs g !! k) -> k <= pid_cur g.

Lemma proc_new_step g name d fds :
  fresh g -> INT_MIN <= pid_cur g -> pid_cur g + 2 <= INT_MAX ->
  INT_MIN <= nthreads g -> sysprocs (syslimit g) <= INT_MAX ->
  reopen d = 0 -> (forall t, start_thread t = true) ->
  (sysprocs (syslimit g) <= nthreads g /\
   proc_new g name (Some d) fds = Done (g, None, false)) \/
  (nthreads g < sysprocs (syslimit g) /\
   exists g' p,
     proc_new g name (Some d) fds = Done (g', Some p, true) /\
     pid p = pid_cur g + 1 /\ pid_cur g' = pid_cur g + 2 /\
     nthreads g' = nthreads g + 1 /\
     allprocs g' = <[pid p := p]> (allprocs g) /\
     syslimit g' = syslimit g).
Proof.
  intros Hf Hmin Hmax Hn Hs Hre Hst. unfold Proc.proc_new.
  destruct (Z.geb_spec (nthreads g) (sysprocs (syslimit g))).
  - left. split; [lia|reflexivity].
  - right. split; [lia|].
    rewrite !(wrap_int_id (pid_cur g + 1))
      by (unfold INT_MIN, INT_MAX in *; lia).
    rewrite !(wrap_int_id (pid_cur g + 1 + 1))
      by (unfold INT_MIN, INT_MAX in *; lia).
    rewrite (wrap_int_id (nthreads g + 1))
      by (unfold INT_MIN, INT_MAX in *; lia).
    case_bool_decide as Hin; [apply Hf in Hin; lia|].
    destruct (Proc.clone_fds _ copyfd fds 0) as [cfds cnfds].
    rewrite Hre, Hst. cbn [Z.eqb negb].
    eexists _, _. split; [reflexivity|]. cbn. split_and!; auto; lia.
Qed.

Definition registered (g : globals Fd_t) (k : Z) : Prop :=
  exists p, allprocs g !! k = Some p /\ pid p = k.

(** X20. A history of proc_new calls, from globals in which no registered
    pid is above pid_cur (as at boot), with nthreads at most the cap, the
    counters within the range of a Go int, non-nil working directories, and
    reopen and start_thread succeeding.  No call panics ("pid exists" cannot
    happen).  Exactly the first min(calls, sysprocs - nthreads) calls
    succeed; nthreads grows by one and pid_cur by two per success, so
    nthreads never passes the cap; every pid returned is registered in
    allprocs with a process that carries that pid; and the processes
    registered before are still there, unchanged. *)
Theorem proc_news_fill_to_cap calls : forall g,
  fresh g -> INT_MIN <= pid_cur g -> pid_cur g + 2 * len calls <= INT_MAX ->
  INT_MIN <= nthreads g <= sysprocs (syslimit g) ->
  sysprocs (syslimit g) <= INT_MAX ->
  Forall (fun c => exists d, c_cwd c = Some d /\ reopen d = 0) calls ->
  (forall t, start_thread t = true) ->
  exists g' pids,
    proc_news g calls = Done (g', pids) /\
    len pids = Z.min (len calls) (sysprocs (syslimit g) - nthreads g) /\
    nthreads g' = nthreads g + len pids /\
    nthreads g' <= sysprocs (syslimit g') /\
    pid_cur g' = pid_cur g + 2 * len pids /\
    fresh g' /\
    Forall (registered g') pids /\
    (forall k p, allprocs g !! k = Some p -> allprocs g' !! k = Some p).
Proof.
  unfold len.
  induction calls as [|c calls IH]; intros g Hf Hmin Hmax Hn Hs Hc Hst;
    cbn [Proc.proc_news length] in *.
  - exists g, []. cbn. split_and!; auto; lia.
  - apply Forall_cons in Hc as [(d & Ed & Hre) Hc]. rewrite Ed.
    destruct (proc_new_step g (c_name c) d (c_fds c) Hf Hmin ltac:(lia)
                ltac:(lia) Hs Hre Hst)
      as [(Hcap & ->) | (Hlt & g1 & p & -> & Hp & Hpc & Hnt & Hap & Hsl)];
      cbn [mbind outcome_bind fst snd].
    + destruct (IH g Hf Hmin ltac:(lia) Hn Hs Hc Hst)
        as (g' & pids & -> & Hl & H1 & H2 & H3 & H4 & H5 & H6).
      cbn. exists g', pids. split_and!; auto; lia.
    + assert (Hf1 : fresh g1).
      { intros k Hk. rewrite Hap in Hk. rewrite Hpc.
        destruct (decide (k = pid p)) as [->|Hne]; [lia|].
        rewrite lookup_insert_ne in Hk by auto. apply Hf in Hk. lia. }
      destruct (IH g1 Hf1 ltac:(lia) ltac:(lia) ltac:(rewrite Hsl; lia)
                  ltac:(rewrite Hsl; lia) Hc Hst)
        as (g' & pids & -> & Hl & H1 & H2 & H3 & H4 & H5 & H6).
      cbn. exists g', (pid p :: pids). cbn [length].
      rewrite Hsl, Hnt in *. split_and!; auto; try lia.
      * constructor; [|exact H5].
        exists p. split; [|reflexivity].
        apply H6. rewrite Hap. apply lookup_insert_eq.
      * intros k q Hk. apply H6. rewrite Hap.
        rewrite lookup_insert_ne; [exact Hk|].
        intros <-. specialize (Hf (pid p) (ex_intro _ q Hk)). lia.
Qed.

End Facts.

(** A parent table with a free slot and a descriptor whose copy fails. *)
Definition copy_or_fail (fd : nat) : nat * Err_t :=
  if (fd =? 7)%nat then (fd, -9) else (fd, 0).

Lemma proc_new_child_fds_witness :
  exists g' p,
    Proc.proc_new nat 0 0 copy_or_fail (fun _ => 0) (fun _ => true)
      boot "sh" (Some 0%nat) [Some 1%nat; None; Some 7%nat; Some 2%nat]
      = Done (g', Some p, true) /\
    Proc.fds p = [Some 1%nat; None; None; Some 2%nat] /\
    len (Proc.fds p) = 4 /\
    nfds p = 3 /\
    len (in_use nat (Proc.fds p)) <= nfds p.
Proof.
  assert (Hrun : exists g' p,
             Proc.proc_new nat 0 0 copy_or_fail (fun _ => 0) (fun _ => true)
               boot "sh" (Some 0%nat)
               [Some 1%nat; None; Some 7%nat; Some 2%nat]
             = Done (g', Some p, true))
    by (eexists _, _; vm_compute; reflexivity).
  destruct Hrun as (g' & p & Hrun).
  exists g', p. split; [exact Hrun|].
  exact (proc_new_child_fds nat 0 0 copy_or_fail (fun _ => 0) (fun _ => true)
           boot "sh" (Some 0%nat) [Some 1%nat; None; Some 7%nat; Some 2%nat]
           g' p Hrun ltac:(unfold len, INT_MAX; cbn; lia)).
Defined.

Lemma fresh_boot : fresh nat boot.
Proof.
  intros k [x H]. change (allprocs boot) with (∅ : gmap Z (Proc_t nat)) in H.
  rewrite lookup_empty in H. discriminate.
Defined.

Lemma proc_news_fill_to_cap_witness :
  exists g' pids,
    proc_news_ok boot [sh; sh; sh] = Done (g', pids) /\
    len pids = 2 /\
    nthreads g' = 0 + len pids /\
    nthreads g' <= sysprocs (syslimit g') /\
    pid_cur g' = 0 + 2 * len pids /\
    fresh nat g' /\
    Forall (registered nat g') pids /\
    (forall k p, allprocs boot !! k = Some p -> allprocs g' !! k = Some p).
Proof.
  exact (proc_news_fill_to_cap nat 0 0 (fun fd => (fd, 0)) (fun _ => 0)
           (fun _ => true) [sh; sh; sh] boot fresh_boot
           ltac:(unfold INT_MIN; cbn; lia)
           ltac:(unfold INT_MAX, len; cbn; lia)
           ltac:(unfold INT_MIN; cbn; lia)
           ltac:(unfold INT_MAX; cbn; lia)
           ltac:(repeat constructor; exists 0%nat; auto)
           (fun _ => eq_refl)).
Defined.

End ProcRuns.

(** ** kbd_daemon: the console daemon *)

Module Console.
Section Console.

(** Constants declared outside main.go. *)
Variables IRQ_KBD IRQ_COM1 R_READ : Z.

(** The scan code table handed to the daemon. *)
Variable km : gmap Z byte.

(** What the daemon does to the outside: console output, end of interrupt,
    the slice sent on [cons.reader], the answer sent on [cons.pollret], and
    the calls on its [pollers]. *)
Inductive output : Type :=
| Printf (text : list byte)
| Irq_eoi (irq : Z)
| Reader (s : list byte)
| Pollret (ret : Z)
| Addpoller
| Wakeready (r : Z).

Record pollmsg_t : Type := {
  events : Z;
  dowait : bool
}.

(** What the [select] receives.  An interrupt comes with what the device
    then delivers: the scan codes read from port 0x60 while [_kready()]
    holds, the values read from COM1 while [_comready()] holds. *)
Inductive event : Type :=
| Kbd_int (scancodes : list Z)
| Com_int (values : list Z)
| Reqc (l : Z)
| Pollc (pm : pollmsg_t).

(** The daemon's variables: the buffered bytes [data] and whether [reqc] is
    [cons.reqc] rather than nil.  [data] is carried by its contents; that
    it shares its storage with [start] and with slices sent earlier is not
    modelled. *)
Record daemon : Type := {
  data : list byte;
  reqc : bool
}.

(** The state before the first iteration: [data := start], [var reqc]. *)
Definition init : daemon := {| data := []; reqc := false |}.

(** [byte(sc)]. *)
Definition to_byte (sc : Z) : byte :=
  default x00 (Byte.of_N (Z.to_N (sc mod 256))).

(** The closure [addprint]: the new [data] and what was printed. *)
Definition addprint (data : list byte) (c : byte)
  : outcome (list byte * list output) :=
  let out := [Printf [c]] in
  if len data >? 1024 then
    Done (data, out ++ [Printf (list_byte_of_string "key dropped!" ++ [x0a])])
  else
    let data := data ++ [c] in
    if Byte.eqb c x5c then Panic "yahoo"
    else Done (data, out).

(** [for _kready() { ... if ok { addprint(c) } }]. *)
Fixpoint kbd_drain (data : list byte) (scancodes : list Z)
  : outcome (list byte * list output) :=
  match scancodes with
  | [] => Done (data, [])
  | sc :: scancodes =>
      '(data, out) ← match km !! sc with
                     | Some c => addprint data c
                     | None => Done (data, [])
                     end;
      '(data, out') ← kbd_drain data scancodes;
      Done (data, out ++ out')
  end.

(** [for _comready() { ... addprint(c) }]. *)
Fixpoint com_drain (data : list byte) (values : list Z)
  : outcome (list byte * list output) :=
  match values with
  | [] => Done (data, [])
  | sc :: values =>
      let c := to_byte sc in
      let c := if Byte.eqb c x0d then x0a
               else if Byte.eqb c x7f then x08 else c in
      '(data, out) ← addprint data c;
      '(data, out') ← com_drain data values;
      Done (data, out ++ out')
  end.

(** The [case l := <- reqc] branch: the slice sent to the reader and the
    rest of [data]. *)
Definition serve_read (data : list byte) (l : Z)
  : outcome (list byte * list byte) :=
  let l := if l >? len data then len data else l in
  s ← slice_range data 0 l;
  data ← slice_from data l;
  Done (s, data).

(** The statements after the [select]. *)
Definition rearm (data : list byte) (out : list output)
  : daemon * list output :=
  if len data =? 0 then ({| data := []; reqc := false |}, out)
  else ({| data := data; reqc := true |}, out ++ [Wakeready R_READ]).

(** Whether the [select] can take the event: a nil [reqc] never delivers. *)
Definition enabled (st : daemon) (ev : event) : bool :=
  match ev with
  | Reqc _ => reqc st
  | _ => true
  end.

(** One iteration of the daemon's loop on an event it can take. *)
Definition step (st : daemon) (ev : event) : outcome (daemon * list output) :=
  match ev with
  | Kbd_int scancodes =>
      '(data, out) ← kbd_drain (data st) scancodes;
      Done (rearm data (out ++ [Irq_eoi IRQ_KBD]))
  | Com_int values =>
      '(data, out) ← com_drain (data st) values;
      Done (rearm data (out ++ [Irq_eoi IRQ_COM1]))
  | Reqc l =>
      '(s, data) ← serve_read (data st) l;
      Done (rearm data [Reader s])
  | Pollc pm =>
      if Z.land (events pm) R_READ =? 0 then Done (st, [Pollret 0])
      else
        let '(ret, out) :=
          if len (data st) >? 0 then (Z.lor 0 R_READ, [])
          else if dowait pm then (0, [Addpoller]) else (0, []) in
        Done (rearm (data st) (out ++ [Pollret ret]))
  end.

(** The daemon over a sequence of events; one it cannot take stays with
    its sender and leaves the daemon as it is. *)
Fixpoint steps (st : daemon) (evs : list event)
  : outcome (daemon * list output) :=
  match evs with
  | [] => Done (st, [])
  | ev :: evs =>
      if negb (enabled st ev) then steps st evs else
      '(st, out) ← step st ev;
      '(st, out') ← steps st evs;
      Done (st, out ++ out')
  end.

End Console.
End Console.

(** ** Properties of the console daemon *)

Module ConsoleFacts.
Import Console.

Section Facts.
Variables IRQ_KBD IRQ_COM1 R_READ : Z.
Variable km : gmap Z byte.

Abbreviation step := (step IRQ_KBD IRQ_COM1 R_READ km).
Abbreviation steps := (steps IRQ_KBD IRQ_COM1 R_READ km).

(** The guard of [addprint] lets a byte in while [data] holds up to 1024
    bytes, so [data] grows to 1025 bytes and no further. *)
Lemma addprint_length data c data' out :
  addprint data c = Done (data', out) ->
  (len data <= 1024 /\ data' = data ++ [c]) \/
  (1024 < len data /\ data' = data).
Proof.
  unfold addprint. destruct (Z.gtb_spec (len data) 1024).
  - intros [= <- <-]. right. auto.
  - destruct (Byte.eqb c x5c); [discriminate|].
    intros [= <- <-]. left. auto.
Qed.

Lemma addprint_bound data c data' out :
  addprint data c = Done (data', out) ->
  len data <= 1025 -> len data' <= 1025.
Proof.
  intros Ha Hl. apply addprint_length in Ha as [[H ->]|[H ->]]; auto.
  unfold len in *. rewrite length_app. cbn. lia.
Qed.

Lemma kbd_drain_bound scancodes : forall data data' out,
  kbd_drain km data scancodes = Done (data', out) ->
  len data <= 1025 -> len data' <= 1025.
Proof.
  induction scancodes as [|sc scancodes IH]; intros data data' out; cbn.
  - intros [= <- <-]. auto.
  - destruct (km !! sc) as [c|]; cbn.
    + destruct (addprint data c) as [[d1 o1]|] eqn:Ea; [|discriminate]. cbn.
      destruct (kbd_drain km d1 scancodes) as [[d2 o2]|] eqn:Ed;
        [|discriminate].
      cbn. intros [= <- <-] Hl. eapply IH; eauto.
      eapply addprint_bound; eauto.
    + destruct (kbd_drain km data scancodes) as [[d2 o2]|] eqn:Ed;
        [|discriminate].
      cbn. intros [= <- <-] Hl. eapply IH; eauto.
Qed.

Lemma com_drain_bound values : forall data data' out,
  com_drain data values = Done (data', out) ->
  len data <= 1025 -> len data' <= 1025.
Proof.
  induction values as [|sc values IH]; intros data data' out; cbn.
  - intros [= <- <-]. auto.
  - match goal with
    | |- context [addprint data ?c] =>
        destruct (addprint data c) as [[d1 o1]|] eqn:Ea; [|discriminate]
    end.
    cbn.
    destruct (com_drain d1 values) as [[d2 o2]|] eqn:Ed; [|discriminate].
    cbn. intros [= <- <-] Hl. eapply IH; eauto.
    eapply addprint_bound; eauto.
Qed.

Lemma rearm_data d out : data (rearm R_READ d out).1 = d.
Proof.
  unfold rearm. destruct (Z.eqb_spec (len d) 0) as [E|E]; cbn; auto.
  destruct d; [reflexivity|]. unfold len in E. cbn in E. lia.
Qed.

(** What the buffer really is bounded by. *)
Lemma step_bound st ev st' out :
  step st ev = Done (st', out) ->
  len (data st) <= 1025 -> len (data st') <= 1025.
Proof.
  destruct ev as [scancodes|values|l|pm]; cbn.
  - destruct (kbd_drain km (data st) scancodes) as [[d o]|] eqn:E;
      [|discriminate].
    cbn. intros [= E2] Hl. apply (f_equal fst) in E2. cbn [fst] in E2.
    subst st'. rewrite rearm_data. eapply kbd_drain_bound; eauto.
  - destruct (com_drain (data st) values) as [[d o]|] eqn:E; [|discriminate].
    cbn. intros [= E2] Hl. apply (f_equal fst) in E2. cbn [fst] in E2.
    subst st'. rewrite rearm_data. eapply com_drain_bound; eauto.
  - unfold serve_read.
    destruct (slice_range _ 0 _) as [s|]; [|discriminate]. cbn.
    destruct (slice_from _ _) as [d|] eqn:E; [|discriminate]. cbn.
    intros [= E2] Hl. apply (f_equal fst) in E2. cbn [fst] in E2.
    subst st'. rewrite rearm_data.
    apply CircbufInv.slice_from_done in E as (? & _ & ?). lia.
  - destruct (Z.land _ _ =? 0); [intros [= <- <-]; auto|].
    destruct (if len (data st) >? 0 then _ else _) as [ret o].
    intros [= E2] Hl. apply (f_equal fst) in E2. cbn [fst] in E2.
    subst st'. rewrite rearm_data. exact Hl.
Qed.

(** C7, on the code: with no reader present, 1025 bytes arriving on COM1
    are all queued; the buffer then holds 1025 bytes, one more than the
    1024 of the claim.  Only the byte after those is dropped. *)
Theorem kbd_buffer_holds_1025 :
  exists st out,
    steps init [Com_int (repeat 97 1025)] = Done (st, out) /\
    len (data st) = 1025 /\
    exists st' out',
      steps st [Com_int [97]] = Done (st', out') /\
      len (data st') = 1025 /\
      out' = [Printf [x61];
              Printf (list_byte_of_string "key dropped!" ++ [x0a]);
              Irq_eoi IRQ_COM1; Wakeready R_READ].
Proof.
  eexists _, _. split; [vm_compute; reflexivity|].
  split; [vm_compute; reflexivity|].
  eexists _, _. split; [vm_compute; reflexivity|].
  split; vm_compute; reflexivity.
Qed.

(** C8. When the daemon takes a read request of non-negative size l, the
    slice it sends to the reader is the first min(l, len(data)) bytes of the
    buffered data, never more than l bytes, and exactly those bytes are
    gone from the front of the buffer afterwards. *)
Theorem kbd_read_request st l :
  0 <= l -> enabled st (Reqc l) = true ->
  exists st' s out,
    step st (Reqc l) = Done (st', Reader s :: out) /\
    s = take (Z.to_nat (Z.min l (len (data st)))) (data st) /\
    len s = Z.min l (len (data st)) /\
    len s <= l /\
    data st = s ++ data st' /\
    data st' = drop (Z.to_nat (len s)) (data st).
Proof.
  intros Hl _. cbn [Console.step]. unfold serve_read.
  set (l' := if l >? len (data st) then len (data st) else l).
  assert (El : l' = Z.min l (len (data st)))
    by (subst l'; destruct (Z.gtb_spec l (len (data st))); lia).
  assert (Hl' : 0 <= l' <= len (data st)) by (unfold len in *; lia).
  clearbody l'.
  unfold slice_range, slice_from.
  destruct (Z.leb_spec 0 0), (Z.leb_spec 0 l'), (Z.leb_spec l' (len (data st)));
    try lia.
  cbn. rewrite Z.sub_0_r. change (Z.to_nat 0) with 0%nat. rewrite drop_0.
  set (s := take (Z.to_nat l') (data st)).
  set (d := drop (Z.to_nat l') (data st)).
  assert (Hs : len s = l')
    by (subst s; unfold len in *; rewrite length_take; lia).
  exists (rearm R_READ d [Reader s]).1, s,
    (if len d =? 0 then [] else [Wakeready R_READ]).
  split_and!.
  - unfold rearm. destruct (len d =? 0); reflexivity.
  - subst s. rewrite El. reflexivity.
  - lia.
  - lia.
  - rewrite rearm_data. subst s d. symmetry. apply take_drop.
  - rewrite rearm_data, Hs. reflexivity.
Qed.

End Facts.

(** The daemon after "hi" and a newline arrived on COM1. *)
Definition typed_hi : daemon :=
  {| data := list_byte_of_string "hi" ++ [x0a]; reqc := true |}.

Lemma kbd_read_request_witness :
  0 <= 2 /\ enabled typed_hi (Reqc 2) = true /\
  exists st' s out,
    Console.step 1 4 1 ∅ typed_hi (Reqc 2) = Done (st', Reader s :: out) /\
    s = list_byte_of_string "hi" /\
    len s = 2 /\
    len s <= 2 /\
    data typed_hi = s ++ data st' /\
    data st' = [x0a].
Proof.
  assert (H0 : 0 <= 2) by lia.
  assert (He : enabled typed_hi (Reqc 2) = true) by reflexivity.
  split; [exact H0|]. split; [exact He|].
  destruct (kbd_read_request 1 4 1 ∅ typed_hi 2 H0 He)
    as (st' & s & out & Hstep & Hs & Hlen & Hle & Hdata & Hrest).
  exists st', s, out.
  split; [exact Hstep|]. split; [exact Hs|]. split; [exact Hlen|].
  split; [exact Hle|]. split; [exact Hdata|].
  rewrite Hrest, Hs. reflexivity.
Defined.

End ConsoleFacts.

(** ** The console daemon over its whole life *)

Module ConsoleRuns.
Import Console ConsoleFacts.

Section Runs.
Variables IRQ_KBD IRQ_COM1 R_READ : Z.
Variable km : gmap Z byte.

Abbreviation step := (step IRQ_KBD IRQ_COM1 R_READ km).
Abbreviation steps := (steps IRQ_KBD IRQ_COM1 R_READ km).

(** [reqc] is [cons.reqc] exactly while bytes are buffered. *)
Definition armed (st : daemon) : Prop :=
  reqc st = negb (len (data st) =? 0).

Lemma rearm_armed d out : armed (rearm R_READ d out).1.
Proof.
  unfold armed, rearm. destruct (Z.eqb_spec (len d) 0) as [E|E]; cbn.
  - reflexivity.
  - destruct (Z.eqb_spec (len d) 0); [lia|reflexivity].
Qed.

Lemma step_armed st ev st' out :
  step st ev = Done (st', out) -> armed st -> armed st'.
Proof.
  destruct ev as [scancodes|values|l|pm]; cbn.
  - destruct (kbd_drain km (data st) scancodes) as [[d o]|]; [|discriminate].
    cbn. intros [= E2] _. apply (f_equal fst) in E2. cbn [fst] in E2.
    subst st'. apply rearm_armed.
  - destruct (com_drain (data st) values) as [[d o]|]; [|discriminate].
    cbn. intros [= E2] _. apply (f_equal fst) in E2. cbn [fst] in E2.
    subst st'. apply rearm_armed.
  - destruct (serve_read (data st) l) as [[s d]|]; [|discriminate].
    cbn. intros [= E2] _. apply (f_equal fst) in E2. cbn [fst] in E2.
    subst st'. apply rearm_armed.
  - destruct (Z.land _ _ =? 0); [intros [= <- <-]; auto|].
    destruct (if len (data st) >? 0 then _ else _) as [ret o].
    intros [= E2] _. apply (f_equal fst) in E2. cbn [fst] in E2.
    subst st'. apply rearm_armed.
Qed.

(** What holds of the daemon's variables whenever it is back at its
    [select]. *)
Lemma steps_inv evs : forall st st' out,
  steps st evs = Done (st', out) ->
  armed st -> len (data st) <= 1025 ->
  armed st' /\ len (data st') <= 1025.
Proof.
  induction evs as [|ev evs IH]; intros st st' out; cbn [Console.steps].
  - intros [= <- <-]. auto.
  - destruct (negb (enabled st ev)); [apply IH|].
    destruct (step st ev) as [[st1 o1]|] eqn:E1; [|discriminate].
    cbn [mbind outcome_bind].
    destruct (steps st1 evs) as [[st2 o2]|] eqn:E2; [|discriminate].
    cbn. intros [= <- <-] Ha Hl.
    eapply IH; eauto.
    + eapply step_armed; eauto.
    + eapply step_bound; eauto.
Qed.

Lemma armed_init : armed init.
Proof. reflexivity. Qed.

Lemma serve_read_done (d : list byte) l :
  0 <= l ->
  serve_read d l = Done (take (Z.to_nat (Z.min l (len d))) d,
                         drop (Z.to_nat (Z.min l (len d))) d).
Proof.
  intros Hl. unfold serve_read.
  replace (if l >? len d then len d else l) with (Z.min l (len d))
    by (destruct (Z.gtb_spec l (len d)); lia).
  unfold slice_range, slice_from, len.
  destruct (Z.leb_spec 0 0), (Z.leb_spec 0 (Z.min l (Z.of_nat (length d)))),
    (Z.leb_spec (Z.min l (Z.of_nat (length d))) (Z.of_nat (length d)));
    try lia.
  cbn. rewrite Z.sub_0_r. change (Z.to_nat 0) with 0%nat. rewrite drop_0.
  reflexivity.
Qed.

(** X14. However the interrupts, read requests and polls arrive, the
    daemon's buffer never holds more than 1025 bytes when the daemon is back
    at its select (1025, not 1024: addprint refuses a byte only when more
    than 1024 are buffered). *)
Theorem kbd_buffer_never_exceeds_1025 evs st out :
  steps init evs = Done (st, out) -> len (data st) <= 1025.
Proof.
  intros Hrun.
  destruct (steps_inv evs init st out Hrun armed_init) as [_ Hl]; auto.
  unfold len. cbn. lia.
Qed.

(** X15. The daemon listens for read requests exactly while bytes are
    buffered: after any events, reqc is cons.reqc if data is non-empty and
    nil otherwise.  So a read request for l >= 1 bytes that the daemon takes
    is answered with at least one byte and at most l: kbd_get blocks until
    there is something to return. *)
Theorem kbd_get_blocks_for_a_byte evs st out l :
  steps init evs = Done (st, out) ->
  (reqc st = true <-> data st <> []) /\
  (1 <= l -> enabled st (Reqc l) = true ->
   exists st' s out',
     step st (Reqc l) = Done (st', Reader s :: out') /\
     1 <= len s <= l /\ data st = s ++ data st').
Proof.
  intros Hrun.
  destruct (steps_inv evs init st out Hrun armed_init) as [Ha _];
    [unfold len; cbn; lia|].
  assert (Hiff : reqc st = true <-> data st <> []).
  { unfold armed in Ha. rewrite Ha. unfold len.
    destruct (data st); cbn; split; auto; try discriminate. }
  split; [exact Hiff|].
  intros Hl Hen. cbn in Hen. apply Hiff in Hen.
  cbn [Console.step]. rewrite serve_read_done by lia.
  cbn [mbind outcome_bind].
  set (m := Z.to_nat (Z.min l (len (data st)))).
  exists (rearm R_READ (drop m (data st)) [Reader (take m (data st))]).1,
    (take m (data st)),
    (if len (drop m (data st)) =? 0 then [] else [Wakeready R_READ]).
  split_and!.
  - unfold rearm. destruct (len (drop m (data st)) =? 0); reflexivity.
  - subst m. unfold len. rewrite length_take.
    destruct (data st); [congruence|]. cbn [length]. lia.
  - subst m. unfold len. rewrite length_take. lia.
  - rewrite rearm_data. symmetry. apply take_drop.
Qed.

(** An event that brings no backslash and no negative read size. *)
Definition calm (ev : event) : Prop :=
  match ev with
  | Kbd_int scancodes => Forall (fun sc => km !! sc <> Some x5c) scancodes
  | Com_int values => Forall (fun v => to_byte v <> x5c) values
  | Reqc l => 0 <= l
  | Pollc _ => True
  end.

Lemma addprint_calm d c :
  c <> x5c -> exists d' o, addprint d c = Done (d', o).
Proof.
  intros Hc. unfold addprint. destruct (len d >? 1024); [eauto|].
  destruct (Byte.eqb c x5c) eqn:E; [|eauto].
  apply Byte.byte_dec_bl in E. contradiction.
Qed.

Lemma kbd_drain_calm scancodes : forall d,
  Forall (fun sc => km !! sc <> Some x5c) scancodes ->
  exists d' o, kbd_drain km d scancodes = Done (d', o).
Proof.
  induction scancodes as [|sc scancodes IH]; intros d Hc; cbn.
  - eauto.
  - apply Forall_cons in Hc as [Hsc Hc].
    destruct (km !! sc) as [c|] eqn:E.
    + destruct (addprint_calm d c) as (d1 & o1 & ->); [congruence|]. cbn.
      destruct (IH d1 Hc) as (d2 & o2 & ->). cbn. eauto.
    + cbn. destruct (IH d Hc) as (d2 & o2 & ->). cbn. eauto.
Qed.

Lemma com_drain_calm values : forall d,
  Forall (fun v => to_byte v <> x5c) values ->
  exists d' o, com_drain d values = Done (d', o).
Proof.
  induction values as [|v values IH]; intros d Hc; cbn.
  - eauto.
  - apply Forall_cons in Hc as [Hv Hc].
    match goal with
    | |- context [addprint d ?c] =>
        destruct (addprint_calm d c) as (d1 & o1 & ->)
    end.
    { destruct (Byte.eqb (to_byte v) x0d); [discriminate|].
      destruct (Byte.eqb (to_byte v) x7f); [discriminate|]. exact Hv. }
    cbn. destruct (IH d1 Hc) as (d2 & o2 & ->). cbn. eauto.
Qed.

Lemma step_calm st ev : calm ev -> exists st' out, step st ev = Done (st', out).
Proof.
  destruct ev as [scancodes|values|l|pm]; cbn; intros Hc.
  - destruct (kbd_drain_calm scancodes (data st) Hc) as (d & o & ->).
    cbn. destruct (rearm _ _ _). eauto.
  - destruct (com_drain_calm values (data st) Hc) as (d & o & ->).
    cbn. destruct (rearm _ _ _). eauto.
  - rewrite serve_read_done by exact Hc. cbn. destruct (rearm _ _ _). eauto.
  - destruct (Z.land _ _ =? 0); [eauto|].
    destruct (if len (data st) >? 0 then _ else _) as [ret o].
    destruct (rearm _ _ _). eauto.
Qed.

(** X16. The daemon keeps running as long as no backslash arrives and no
    read request has a negative size: over any such events, from any state,
    every iteration of its loop completes (no panic, no slice out of
    range).  A backslash does stop it: arriving on COM1 while at most 1024
    bytes are buffered it panics with "yahoo"; arriving while more are
    buffered it is dropped like any other byte and the daemon goes on. *)
Theorem kbd_daemon_stops_only_on_backslash st :
  (forall evs, Forall calm evs -> exists st' out, steps st evs = Done (st', out))
  /\
  (len (data st) <= 1024 -> step st (Com_int [92]) = Panic "yahoo") /\
  (1024 < len (data st) ->
   exists st' out, step st (Com_int [92]) = Done (st', out) /\
                   data st' = data st).
Proof.
  split_and!.
  - intros evs. revert st.
    induction evs as [|ev evs IH]; intros st Hc; cbn [Console.steps].
    + eauto.
    + apply Forall_cons in Hc as [Hev Hc].
      destruct (negb (enabled st ev)); [apply IH; exact Hc|].
      destruct (step_calm st ev Hev) as (st1 & o1 & ->). cbn.
      destruct (IH st1 Hc) as (st2 & o2 & ->). cbn. eauto.
  - intros Hl. cbn. unfold addprint.
    destruct (Z.gtb_spec (len (data st)) 1024); [lia|]. reflexivity.
  - intros Hl. cbn. unfold addprint.
    destruct (Z.gtb_spec (len (data st)) 1024); [|lia]. cbn.
    match goal with
    | |- context [Done (rearm ?r ?d ?o)] =>
        exists (rearm r d o).1, (rearm r d o).2
    end.
    split; [destruct (rearm _ _ _); reflexivity | apply rearm_data].
Qed.

















End Runs.


Lemma kbd_buffer_never_exceeds_1025_witness :
  exists st out,
    Console.steps 1 4 1 ∅ init [Com_int (repeat 97 1030); Com_int [98]]
      = Done (st, out) /\
    len (data st) <= 1025.
Proof.
  assert (Hrun : exists st out,
             Console.steps 1 4 1 ∅ init
               [Com_int (repeat 97 1030); Com_int [98]] = Done (st, out))
    by (eexists _, _; vm_compute; reflexivity).
  destruct Hrun as (st & out & Hrun).
  exists st, out. split; [exact Hrun|].
  exact (kbd_buffer_never_exceeds_1025 1 4 1 ∅ _ st out Hrun).
Defined.

Lemma kbd_get_blocks_for_a_byte_witness :
  exists st out st' s out',
    Console.steps 1 4 1 ∅ init [Reqc 4; Com_int [104; 105; 13]]
      = Done (st, out) /\
    enabled st (Reqc 2) = true /\
    Console.step 1 4 1 ∅ st (Reqc 2) = Done (st', Reader s :: out') /\
    1 <= len s <= 2 /\ data st = s ++ data st'.
Proof.
  assert (Hrun : exists st out,
             Console.steps 1 4 1 ∅ init [Reqc 4; Com_int [104; 105; 13]]
               = Done (st, out) /\ enabled st (Reqc 2) = true)
    by (eexists _, _; split; vm_compute; reflexivity).
  destruct Hrun as (st & out & Hrun & Hen).
  destruct (proj2 (kbd_get_blocks_for_a_byte 1 4 1 ∅ _ st out 2 Hrun)
              ltac:(lia) Hen) as (st' & s & out' & H).
  exists st, out, st', s, out'. auto.
Defined.

Lemma kbd_daemon_stops_only_on_backslash_witness :
  (exists st' out,
     Console.steps 1 4 1 ∅ init
       [Com_int [104; 105; 13]; Reqc 2; Pollc {| events := 1; dowait := true |}]
     = Done (st', out)) /\
  Console.step 1 4 1 ∅ init (Com_int [92]) = Panic "yahoo".
Proof.
  pose proof (kbd_daemon_stops_only_on_backslash 1 4 1 ∅ init)
    as (Hrun & Hpanic & _).
  split.
  - apply Hrun. repeat constructor; cbn; try lia; discriminate.
  - apply Hpanic. unfold len. cbn. lia.
Defined.

End ConsoleRuns.

(** ** trapstub: the interrupt stub *)

Module Trap.
Import ITree.ITree ITree.Core.ITreeDefinition ITree.Props.Leaf.

(** What the stub does to the outside: the runtime's [Pnum] and [IRQwake],
    the IO APIC's [irq_mask], and the increment of the global [irqs]. *)
Variant trapE : Type -> Type :=
| Pnum (n : Z) : trapE unit
| IRQwake (irq : Z) : trapE unit
| Irq_mask (irqno : Z) : trapE unit
| Irqs_incr : trapE unit.

(** [for {}]. *)
Definition forever {R} : itree trapE R := ITree.spin.

Definition seq {R} (e : trapE unit) (k : itree trapE R) : itree trapE R :=
  ITree.bind (ITree.trigger e) (fun _ => k).

Section Trap.

(** Constants declared outside main.go: the trap frame offsets and the
    interrupt vector numbers. *)
Variables TF_TRAP TF_RIP : nat.
Variables TIMER IRQ_BASE IRQ_LAST INT_KBD INT_COM1 INT_DISK : Z.
Variables INT_MSI0 INT_MSI1 INT_MSI2 INT_MSI3 : Z.
Variables INT_MSI4 INT_MSI5 INT_MSI6 INT_MSI7 : Z.

(** The trap frame is an array of [uintptr]; [tf[i]] for a constant [i]
    within its bounds. *)
Definition tf_at (tf : list Z) (i : nat) : Z := nth i tf 0.

Definition is_case (trapno : Z) (values : list Z) : bool :=
  existsb (Z.eqb trapno) values.

Definition trapstub (tf : list Z) : itree trapE unit :=
  let trapno := tf_at tf TF_TRAP in
  if (trapno <=? TIMER) || (trapno >? IRQ_LAST) then
    seq (Pnum 4097) forever
  else
    seq Irqs_incr
      (if is_case trapno [INT_KBD; INT_COM1] then
         seq (IRQwake trapno)
           (let irqno := wrap_int (wrap_uint (trapno - IRQ_BASE)) in
            seq (Irq_mask irqno) (Ret tt))
       else if is_case trapno [wrap_uint INT_DISK; INT_MSI0; INT_MSI1;
                               INT_MSI2; INT_MSI3; INT_MSI4; INT_MSI5;
                               INT_MSI6; INT_MSI7] then
         seq (IRQwake trapno) (Ret tt)
       else
         seq (Pnum (wrap_int trapno))
           (seq (Pnum (wrap_int (tf_at tf TF_RIP)))
              (seq (Pnum 195934910) forever))).

End Trap.

(** [t] returns: some run of [t], whatever the events answer, ends. *)
Definition returns {R} (t : itree trapE R) : Prop := exists r, Leaf r t.

Lemma spin_no_leaf {E R} (r : R) : ~ Leaf r (@ITree.spin E R).
Proof.
  remember (@ITree.spin E R) as t eqn:Ht. intros H.
  induction H as [t E0 | t u E0 H IH | X e t k x E0 H IH]; subst t;
    cbn in E0; try discriminate.
  injection E0 as <-. apply IH. reflexivity.
Qed.

Lemma forever_never_returns {R} : ~ returns (@forever R).
Proof. intros [r H]. exact (spin_no_leaf r H). Qed.

Lemma seq_returns {R} (e : trapE unit) (k : itree trapE R) :
  returns (seq e k) <-> returns k.
Proof.
  unfold returns, seq. split.
  - intros [r H]. apply Leaf_bind_inv in H as (a & _ & H). eauto.
  - intros [r H]. exists r.
    apply (Leaf_bind _ _ r tt); [|exact H].
    unfold ITree.trigger. apply Leaf_Vis with (x := tt). apply Leaf_Ret.
Qed.

Lemma ret_returns {R} (r : R) : returns (Ret r : itree trapE R).
Proof. exists r. apply Leaf_Ret. Qed.

End Trap.

(** ** Properties of the trap stub *)

Module TrapFacts.
Import Trap.
Import ITree.Core.ITreeDefinition.

Section Facts.
Variables TF_TRAP TF_RIP : nat.
Variables TIMER IRQ_BASE IRQ_LAST INT_KBD INT_COM1 INT_DISK : Z.
Variables INT_MSI0 INT_MSI1 INT_MSI2 INT_MSI3 : Z.
Variables INT_MSI4 INT_MSI5 INT_MSI6 INT_MSI7 : Z.

Abbreviation trapstub :=
  (trapstub TF_TRAP TF_RIP TIMER IRQ_BASE IRQ_LAST INT_KBD INT_COM1 INT_DISK
            INT_MSI0 INT_MSI1 INT_MSI2 INT_MSI3 INT_MSI4 INT_MSI5 INT_MSI6
            INT_MSI7).

(** The vectors the [switch] has a case for. *)
Definition handled (trapno : Z) : bool :=
  is_case trapno [INT_KBD; INT_COM1] ||
  is_case trapno [wrap_uint INT_DISK; INT_MSI0; INT_MSI1; INT_MSI2; INT_MSI3;
                  INT_MSI4; INT_MSI5; INT_MSI6; INT_MSI7].

(** Exactly when the stub returns. *)
Lemma trapstub_returns_iff tf :
  returns (trapstub tf) <->
  TIMER < tf_at tf TF_TRAP <= IRQ_LAST /\ handled (tf_at tf TF_TRAP) = true.
Proof.
  unfold Trap.trapstub, handled.
  set (trapno := tf_at tf TF_TRAP).
  destruct (Z.leb_spec trapno TIMER), (Z.gtb_spec trapno IRQ_LAST); cbn [orb];
    rewrite ?seq_returns;
    try (split; [intros Hr; destruct (forever_never_returns Hr)
                | intros [? _]; lia]).
  destruct (is_case trapno [INT_KBD; INT_COM1]); cbn [orb].
  - rewrite !seq_returns. split; [intros _; split; [lia|auto]|].
    intros _. apply ret_returns.
  - destruct (is_case trapno _).
    + rewrite !seq_returns. split; [intros _; split; [lia|auto]|].
      intros _. apply ret_returns.
    + rewrite !seq_returns.
      split; [intros Hr; destruct (forever_never_returns Hr)|].
      intros [_ ?]. discriminate.
Qed.

(** C5. For every trap frame whose trap number is at most TIMER or above
    IRQ_LAST, trapstub never returns: after runtime.Pnum(0x1001) it loops
    forever.  It returns only for vectors in (TIMER, IRQ_LAST]. *)
Theorem trapstub_halts_outside_irqs tf :
  let trapno := tf_at tf TF_TRAP in
  ((trapno <= TIMER \/ trapno > IRQ_LAST) ->
   ~ returns (trapstub tf) /\ trapstub tf = seq (Pnum 4097) forever) /\
  (returns (trapstub tf) -> TIMER < trapno <= IRQ_LAST).
Proof.
  intros trapno. split.
  - intros Hout. split.
    + intros Hr. apply trapstub_returns_iff in Hr as [Hin _].
      fold trapno in Hin. lia.
    + unfold Trap.trapstub. fold trapno.
      destruct (Z.leb_spec trapno TIMER), (Z.gtb_spec trapno IRQ_LAST);
        cbn [orb]; try reflexivity; lia.
  - intros Hr. apply trapstub_returns_iff in Hr as [Hin _]. exact Hin.
Qed.

End Facts.

(** Sample vector numbers, and the frame of a page fault (trap 14). *)
Definition sample_trapstub : list Z -> ITree.Core.ITreeDefinition.itree trapE unit :=
  Trap.trapstub 0 1 32 32 63 33 36 46 56 57 58 59 60 61 62 63.

Definition page_fault_frame : list Z := [14; 4198400].

Lemma trapstub_halts_outside_irqs_witness :
  (tf_at page_fault_frame 0 <= 32 \/ tf_at page_fault_frame 0 > 63) /\
  ~ returns (sample_trapstub page_fault_frame) /\
  sample_trapstub page_fault_frame = seq (Pnum 4097) forever.
Proof.
  assert (Hout : tf_at page_fault_frame 0 <= 32 \/
                 tf_at page_fault_frame 0 > 63) by (left; cbn; lia).
  split; [exact Hout|].
  exact (proj1 (trapstub_halts_outside_irqs 0 1 32 32 63 33 36 46 56 57 58 59
                  60 61 62 63 page_fault_frame) Hout).
Defined.

(** The keyboard vector does return. *)
Lemma trapstub_returns_kbd : returns (sample_trapstub [33; 4198400]).
Proof.
  apply trapstub_returns_iff. split; [cbn; lia | reflexivity].
Qed.

End TrapFacts.

(** ** What the trap stub does with an interrupt *)

Module TrapDispatch.
Import Trap TrapFacts.
Import ITree.Core.ITreeDefinition.

Section Facts.
Variables TF_TRAP TF_RIP : nat.
Variables TIMER IRQ_BASE IRQ_LAST INT_KBD INT_COM1 INT_DISK : Z.
Variables INT_MSI0 INT_MSI1 INT_MSI2 INT_MSI3 : Z.
Variables INT_MSI4 INT_MSI5 INT_MSI6 INT_MSI7 : Z.

Abbreviation trapstub :=
  (trapstub TF_TRAP TF_RIP TIMER IRQ_BASE IRQ_LAST INT_KBD INT_COM1 INT_DISK
            INT_MSI0 INT_MSI1 INT_MSI2 INT_MSI3 INT_MSI4 INT_MSI5 INT_MSI6
            INT_MSI7).
Abbreviation handled :=
  (handled INT_KBD INT_COM1 INT_DISK INT_MSI0 INT_MSI1 INT_MSI2 INT_MSI3
           INT_MSI4 INT_MSI5 INT_MSI6 INT_MSI7).

(** X18. trapstub returns exactly for the vectors in (TIMER, IRQ_LAST] that
    its switch has a case for.  For such a vector it increments irqs once
    and wakes the handler; for the keyboard and COM1 vectors (at or above
    IRQ_BASE) it then masks IRQ line trapno - IRQ_BASE, the wake coming
    before the mask, and for the disk and MSI vectors it masks nothing.  For
    any other vector in (TIMER, IRQ_LAST] it increments irqs, prints the
    vector, tf[TF_RIP] and 0xbadbabe and never returns. *)
Theorem trapstub_dispatch tf :
  let trapno := tf_at tf TF_TRAP in
  (returns (trapstub tf) <->
   TIMER < trapno <= IRQ_LAST /\ handled trapno = true) /\
  (TIMER < trapno <= IRQ_LAST ->
   (is_case trapno [INT_KBD; INT_COM1] = true ->
    0 <= trapno - IRQ_BASE <= INT_MAX ->
    trapstub tf =
      seq Irqs_incr
        (seq (IRQwake trapno) (seq (Irq_mask (trapno - IRQ_BASE)) (Ret tt))))
   /\
   (is_case trapno [INT_KBD; INT_COM1] = false -> handled trapno = true ->
    trapstub tf = seq Irqs_incr (seq (IRQwake trapno) (Ret tt)))
   /\
   (handled trapno = false ->
    ~ returns (trapstub tf) /\
    trapstub tf =
      seq Irqs_incr
        (seq (Pnum (wrap_int trapno))
           (seq (Pnum (wrap_int (tf_at tf TF_RIP)))
              (seq (Pnum 195934910) forever))))).
Proof.
  intros trapno. split; [apply trapstub_returns_iff|].
  intros Hin. unfold Trap.trapstub. fold trapno.
  destruct (Z.leb_spec trapno TIMER), (Z.gtb_spec trapno IRQ_LAST); try lia.
  cbn [orb]. unfold TrapFacts.handled. split_and!.
  - intros -> Hr.
    rewrite wrap_uint_id, wrap_int_id
      by (unfold UINT_MOD, INT_MIN, INT_MAX in *; lia).
    reflexivity.
  - intros ->. cbn [orb]. intros ->. reflexivity.
  - intros Hh. apply orb_false_iff in Hh as [-> ->]. split; [|reflexivity].
    rewrite !seq_returns. apply forever_never_returns.
Qed.

End Facts.

Lemma trapstub_dispatch_witness :
  returns (sample_trapstub [33; 4198400]) /\
  sample_trapstub [33; 4198400] =
    seq Irqs_incr (seq (IRQwake 33) (seq (Irq_mask 1) (Ret tt))) /\
  sample_trapstub [46; 4198400] = seq Irqs_incr (seq (IRQwake 46) (Ret tt)) /\
  ~ returns (sample_trapstub [40; 4198400]).
Proof.
  pose proof (trapstub_dispatch 0 1 32 32 63 33 36 46 56 57 58 59 60 61 62 63
                [33; 4198400]) as [Hr Hk].
  pose proof (trapstub_dispatch 0 1 32 32 63 33 36 46 56 57 58 59 60 61 62 63
                [46; 4198400]) as [_ Hd].
  pose proof (trapstub_dispatch 0 1 32 32 63 33 36 46 56 57 58 59 60 61 62 63
                [40; 4198400]) as [_ Hu].
  split_and!.
  - apply Hr. split; [cbn; lia | reflexivity].
  - apply Hk; [cbn; lia | reflexivity | cbn; unfold INT_MAX; lia].
  - apply Hd; [cbn; lia | reflexivity | reflexivity].
  - apply Hu; [cbn; lia | reflexivity].
Defined.

End TrapDispatch.

(** ** circbuf_t: the raw window operations *)

Module CircbufRaw.
Import Circbuf.

(** A slice of [cb.buf] handed to the caller: [Some (lo, hi)] is
    [cb.buf[lo:hi]], which shares the buffer's storage, [None] is nil. *)
Definition window : Type := option (Z * Z).

(** [cb.buf[lo:hi]]. *)
Definition buf_slice (cb : circbuf_t) (lo hi : Z) : outcome window :=
  if (0 <=? lo) && (lo <=? hi) && (hi <=? len (buf_elems cb))
  then Done (Some (lo, hi))
  else Panic "slice bounds out of range".

(** [len(r)]. *)
Definition wlen (w : window) : Z :=
  match w with
  | None => 0
  | Some (lo, hi) => hi - lo
  end.

(** The buffer indices a window covers, in order. *)
Definition indices (w : window) : list Z :=
  match w with
  | None => []
  | Some (lo, hi) => seqZ lo (hi - lo)
  end.

Definition _rawwrite (cb : circbuf_t) (offset sz : Z)
  : outcome (window * window) :=
  if bool_decide (buf cb = None) then Panic "no lazy allocation for tcp" else
  if left cb <? sz then Panic "bad size" else
  if sz =? 0 then Done (None, None) else
  oi ← rem (wrap_int (head cb + offset)) (bufsz cb);
  oe ← rem (wrap_int (wrap_int (head cb + offset) + sz)) (bufsz cb);
  hi ← rem (head cb) (bufsz cb);
  ti ← rem (tail cb) (bufsz cb);
  if ti <=? hi then
    if ((oi >=? ti) && (oi <? hi)) || ((oe >? ti) && (oe <=? hi))
    then Panic "intersects with user data" else
    r1 ← buf_slice cb oi (len (buf_elems cb));
    if wlen r1 >? sz then
      r1 ← buf_slice cb oi (oi + sz);
      Done (r1, None)
    else
      r2 ← buf_slice cb 0 oe;
      Done (r1, r2)
  else
    if negb ((oi >=? hi) && (oi <? ti) && (oe >? hi) && (oe <=? ti))
    then Panic "intersects with user data" else
    r1 ← buf_slice cb oi oe;
    Done (r1, None).

Definition _rawread (cb : circbuf_t) (offset : Z)
  : outcome (window * window) :=
  if bool_decide (buf cb = None) then Panic "no lazy allocation for tcp" else
  oi ← rem (wrap_int (tail cb + offset)) (bufsz cb);
  hi ← rem (head cb) (bufsz cb);
  ti ← rem (tail cb) (bufsz cb);
  if ti <? hi then
    if (oi >=? hi) || (oi <? ti) then Panic "outside user data" else
    r1 ← buf_slice cb oi hi;
    Done (r1, None)
  else
    if (oi >=? hi) && (oi <? ti) then Panic "outside user data" else
    t ← buf_slice cb ti (len (buf_elems cb));
    let tlen := wlen t in
    if tlen >? offset then
      r1 ← buf_slice cb oi (len (buf_elems cb));
      r2 ← buf_slice cb 0 hi;
      Done (r1, r2)
    else
      let roff := wrap_int (offset - tlen) in
      r1 ← buf_slice cb roff hi;
      Done (r1, None).

End CircbufRaw.

Module CircbufRawFacts.
Import Circbuf CircbufInv CircbufRaw.

(** A run of ring positions that does not pass the end of the buffer is a
    run of buffer indices. *)
Lemma ring_run sz x m n :
  0 < sz -> 0 <= x -> 0 <= m -> (x + m) mod sz + n <= sz ->
  (fun i => (x + i) mod sz) <$> seqZ m n = seqZ ((x + m) mod sz) n.
Proof.
  intros Hsz Hx Hm Hn. apply list_eq. intros i.
  rewrite list_lookup_fmap.
  destruct (decide (Z.of_nat i < n)) as [Hi|Hi].
  - rewrite !lookup_seqZ_lt by lia. cbn. f_equal.
    pose proof (Z.mod_pos_bound (x + m) sz Hsz) as Hb.
    pose proof (Z.div_mod (x + m) sz ltac:(lia)) as Hd.
    symmetry. apply Z.mod_unique_pos with (q := (x + m) / sz); lia.
  - rewrite !lookup_seqZ_ge by lia. reflexivity.
Qed.

(** Where a position [k] places past a counter falls in the ring. *)
Lemma ring_shift sz t k :
  0 < sz -> 0 <= t -> 0 <= k <= sz ->
  (t + k) mod sz =
  if t mod sz + k <? sz then t mod sz + k else t mod sz + k - sz.
Proof.
  intros Hsz Ht Hk.
  pose proof (Z.mod_pos_bound t sz Hsz) as Hb.
  pose proof (Z.div_mod t sz ltac:(lia)) as Hd.
  destruct (Z.ltb_spec (t mod sz + k) sz).
  - symmetry. apply Z.mod_unique_pos with (q := t / sz); lia.
  - symmetry. apply Z.mod_unique_pos with (q := t / sz + 1); lia.
Qed.

Lemma one_run sz x n :
  0 < sz -> 0 <= x -> x mod sz + n <= sz ->
  (fun i => (x + i) mod sz) <$> seqZ 0 n = seqZ (x mod sz) n.
Proof.
  intros Hsz Hx Hn. rewrite ring_run; rewrite ?Z.add_0_r; auto; lia.
Qed.

(** A run that passes the end of the buffer continues at index 0. *)
Lemma two_runs sz x n2 :
  0 < sz -> 0 <= x -> 0 <= n2 <= sz ->
  (fun i => (x + i) mod sz) <$> seqZ 0 (sz - x mod sz + n2) =
  seqZ (x mod sz) (sz - x mod sz) ++ seqZ 0 n2.
Proof.
  intros Hsz Hx Hn.
  pose proof (Z.mod_pos_bound x sz Hsz) as Hb.
  pose proof (Z.div_mod x sz ltac:(lia)) as Hd.
  assert (Hz : (x + (sz - x mod sz)) mod sz = 0).
  { symmetry. apply Z.mod_unique_pos with (q := x / sz + 1); lia. }
  rewrite seqZ_app, fmap_app by lia. f_equal.
  - apply one_run; lia.
  - rewrite Z.add_0_l, ring_run; rewrite ?Hz; auto; lia.
Qed.

Lemma ring_index_mod sz h t :
  0 < sz -> 0 <= t <= h -> h - t <= sz ->
  0 <= h mod sz < sz /\ 0 <= t mod sz < sz /\
  ((t mod sz <= h mod sz /\ h - t = h mod sz - t mod sz) \/
   (h mod sz <= t mod sz /\ h - t = sz + h mod sz - t mod sz)).
Proof.
  intros Hsz Ht Hu.
  rewrite <- (Z.rem_mod_nonneg h sz), <- (Z.rem_mod_nonneg t sz) by lia.
  apply ring_index; lia.
Qed.

Lemma buf_slice_done cb lo hi :
  0 <= lo <= hi -> hi <= len (buf_elems cb) ->
  buf_slice cb lo hi = Done (Some (lo, hi)).
Proof.
  intros Hlo Hhi. unfold buf_slice.
  destruct (Z.leb_spec 0 lo), (Z.leb_spec lo hi),
    (Z.leb_spec hi (len (buf_elems cb))); try lia.
  reflexivity.
Qed.

Section Regions.
Variables (bound : Z) (cb : circbuf_t).
Hypothesis HI : Inv bound cb.
Hypothesis Hbound : bound + bufsz cb <= INT_MAX.
Hypothesis Hbuf : exists b, buf cb = Some b.

Lemma raw_setup :
  bool_decide (buf cb = None) = false /\
  len (buf_elems cb) = bufsz cb /\
  0 < bufsz cb <= PGSIZE /\ 0 <= tail cb <= head cb /\
  head cb - tail cb <= bufsz cb /\ head cb + bufsz cb <= INT_MAX.
Proof using HI Hbound Hbuf.
  pose proof (buf_elems_len _ _ HI Hbuf) as Hl.
  destruct HI as [? ? ? ? ?]. destruct Hbuf as [b Eb].
  split_and!; auto; try lia.
  apply bool_decide_eq_false. congruence.
Qed.

(** _rawread(offset), for an offset inside the queued bytes, returns the
    windows that cover ring positions tail+offset .. head-1, in order. *)
Lemma rawread_region offset :
  0 <= offset < head cb - tail cb ->
  exists r1 r2,
    _rawread cb offset = Done (r1, r2) /\
    indices r1 ++ indices r2 =
    (fun i => (tail cb + offset + i) mod bufsz cb)
      <$> seqZ 0 (head cb - tail cb - offset).
Proof using HI Hbound Hbuf.
  intros Hoff.
  destruct raw_setup as (Hnil & Hlen & Hsz & Ht & Hu & Hmax).
  unfold _rawread. rewrite Hnil.
  rewrite wrap_int_id by (unfold INT_MIN, INT_MAX, PGSIZE in *; lia).
  unfold rem. destruct (Z.eqb_spec (bufsz cb) 0); [lia|]. cbn [mbind outcome_bind].
  rewrite !Z.rem_mod_nonneg by lia.
  destruct (ring_index_mod (bufsz cb) (head cb) (tail cb))
    as (Hhi & Hti & Hcase); try lia.
  pose proof (ring_shift (bufsz cb) (tail cb) offset ltac:(lia) ltac:(lia)
                ltac:(lia)) as Hoi.
  set (hi := head cb mod bufsz cb) in *.
  set (ti := tail cb mod bufsz cb) in *.
  set (oi := (tail cb + offset) mod bufsz cb) in *.
  assert (Hpos : (tail cb + offset + 0) mod bufsz cb = oi)
    by (rewrite Z.add_0_r; reflexivity).
  assert (Hf : forall n,
             (fun i => (tail cb + offset + i) mod bufsz cb) <$> seqZ 0 n =
             (fun i => ((tail cb + offset) + i) mod bufsz cb) <$> seqZ 0 n)
    by reflexivity.
  destruct (Z.ltb_spec ti hi).
  - destruct (Z.ltb_spec (ti + offset) (bufsz cb)); [|lia].
    destruct (Z.geb_spec oi hi), (Z.ltb_spec oi ti); try lia. cbn [orb].
    rewrite buf_slice_done by lia. cbn.
    eexists _, _. split; [reflexivity|]. cbn. rewrite app_nil_r.
    rewrite one_run by (fold oi; lia). fold oi. f_equal. lia.
  - rewrite (buf_slice_done cb ti) by lia. cbn [mbind outcome_bind wlen].
    rewrite Hlen.
    assert (Hguard : (oi >=? hi) && (oi <? ti) = false).
    { destruct (Z.geb_spec oi hi), (Z.ltb_spec oi ti); try reflexivity.
      destruct (Z.ltb_spec (ti + offset) (bufsz cb)); lia. }
    rewrite Hguard.
    destruct (Z.gtb_spec (bufsz cb - ti) offset).
    + destruct (Z.ltb_spec (ti + offset) (bufsz cb)); [|lia].
      rewrite !buf_slice_done by lia. cbn.
      eexists _, _. split; [reflexivity|]. cbn.
      replace (head cb - tail cb - offset) with (bufsz cb - oi + hi) by lia.
      rewrite Z.sub_0_r. unfold oi. rewrite two_runs by lia. reflexivity.
    + destruct (Z.ltb_spec (ti + offset) (bufsz cb)); [lia|].
      rewrite wrap_int_id by (unfold INT_MIN, INT_MAX, PGSIZE in *; lia).
      rewrite buf_slice_done by lia. cbn.
      eexists _, _. split; [reflexivity|]. cbn. rewrite app_nil_r.
      rewrite one_run by (fold oi; lia). fold oi. f_equal; lia.
Qed.

(** _rawwrite(offset, sz), for a range inside the free space, returns the
    windows that cover ring positions head+offset .. head+offset+sz-1. *)
Lemma rawwrite_region offset sz :
  0 <= offset -> 0 < sz ->
  offset + sz <= bufsz cb - (head cb - tail cb) ->
  exists r1 r2,
    _rawwrite cb offset sz = Done (r1, r2) /\
    wlen r1 + wlen r2 = sz /\
    indices r1 ++ indices r2 =
    (fun i => (head cb + offset + i) mod bufsz cb) <$> seqZ 0 sz.
Proof using HI Hbound Hbuf.
  intros Hoff Hpos Hfree.
  destruct raw_setup as (Hnil & Hlen & Hsz & Ht & Hu & Hmax).
  unfold _rawwrite, left. rewrite Hnil.
  rewrite (wrap_int_id (head cb - tail cb)),
    (wrap_int_id (bufsz cb - (head cb - tail cb))),
    (wrap_int_id (head cb + offset)),
    (wrap_int_id (head cb + offset + sz))
    by (unfold INT_MIN, INT_MAX, PGSIZE in *; lia).
  destruct (Z.ltb_spec (bufsz cb - (head cb - tail cb)) sz); [lia|].
  destruct (Z.eqb_spec sz 0); [lia|].
  unfold rem. destruct (Z.eqb_spec (bufsz cb) 0); [lia|].
  cbn [mbind outcome_bind].
  rewrite !Z.rem_mod_nonneg by lia.
  destruct (ring_index_mod (bufsz cb) (head cb) (tail cb))
    as (Hhi & Hti & Hcase); try lia.
  pose proof (ring_shift (bufsz cb) (head cb) offset ltac:(lia) ltac:(lia)
                ltac:(lia)) as Hoi.
  pose proof (ring_shift (bufsz cb) (head cb) (offset + sz) ltac:(lia)
                ltac:(lia) ltac:(lia)) as Hoe.
  rewrite Z.add_assoc in Hoe.
  set (hi := head cb mod bufsz cb) in *.
  set (ti := tail cb mod bufsz cb) in *.
  set (oi := (head cb + offset) mod bufsz cb) in *.
  set (oe := (head cb + offset + sz) mod bufsz cb) in *.
  destruct (Z.ltb_spec (hi + offset) (bufsz cb)),
    (Z.ltb_spec (hi + (offset + sz)) (bufsz cb)); try lia;
    destruct (Z.leb_spec ti hi).
  - (* neither end wraps, data not wrapped *)
    destruct (Z.geb_spec oi ti), (Z.ltb_spec oi hi),
      (Z.gtb_spec oe ti), (Z.leb_spec oe hi); try lia; cbn [andb orb];
      rewrite Hlen, (buf_slice_done cb oi (bufsz cb)) by lia;
      cbn [mbind outcome_bind wlen];
      (destruct (Z.gtb_spec (bufsz cb - oi) sz); [|lia]);
      rewrite (buf_slice_done cb oi (oi + sz)) by lia; cbn;
      (eexists _, _; split; [reflexivity|]);
      (split; [cbn; lia|]); cbn; rewrite app_nil_r;
      rewrite one_run by (fold oi; lia); fold oi; f_equal; lia.
  - (* data wrapped *)
    destruct (Z.geb_spec oi hi), (Z.ltb_spec oi ti),
      (Z.gtb_spec oe hi), (Z.leb_spec oe ti); try lia. cbn [andb negb].
    rewrite buf_slice_done by lia. cbn.
    eexists _, _. split; [reflexivity|]. split; [cbn; lia|]. cbn.
    rewrite app_nil_r, one_run by (fold oi; lia). fold oi. f_equal. lia.
  - (* the range passes the end of the buffer *)
    destruct (Z.geb_spec oi ti), (Z.ltb_spec oi hi),
      (Z.gtb_spec oe ti), (Z.leb_spec oe hi); try lia; cbn [andb orb];
      rewrite Hlen, (buf_slice_done cb oi (bufsz cb)) by lia;
      cbn [mbind outcome_bind wlen];
      (destruct (Z.gtb_spec (bufsz cb - oi) sz); [lia|]);
      rewrite (buf_slice_done cb 0 oe) by lia; cbn;
      (eexists _, _; split; [reflexivity|]);
      (split; [cbn; lia|]); cbn;
      replace sz with (bufsz cb - oi + oe) at 1 by lia;
      rewrite Z.sub_0_r; unfold oi; rewrite two_runs by lia; reflexivity.
  - lia.
  - (* the range starts past the end of the buffer *)
    destruct (Z.geb_spec oi ti), (Z.ltb_spec oi hi),
      (Z.gtb_spec oe ti), (Z.leb_spec oe hi); try lia; cbn [andb orb];
      rewrite Hlen, (buf_slice_done cb oi (bufsz cb)) by lia;
      cbn [mbind outcome_bind wlen];
      (destruct (Z.gtb_spec (bufsz cb - oi) sz); [|lia]);
      rewrite (buf_slice_done cb oi (oi + sz)) by lia; cbn;
      (eexists _, _; split; [reflexivity|]);
      (split; [cbn; lia|]); cbn; rewrite app_nil_r;
      rewrite one_run by (fold oi; lia); fold oi; f_equal; lia.
  - lia.
Qed.

(** On an empty buffer _rawread(0) does not come back empty: head and
    tail stand at the same index, which the code reads as a full buffer. *)
Lemma rawread_empty :
  head cb = tail cb ->
  exists r1 r2,
    _rawread cb 0 = Done (r1, r2) /\
    wlen r1 + wlen r2 = bufsz cb /\
    indices r1 ++ indices r2 =
    (fun i => (tail cb + i) mod bufsz cb) <$> seqZ 0 (bufsz cb).
Proof using HI Hbound Hbuf.
  intros Hempty.
  destruct raw_setup as (Hnil & Hlen & Hsz & Ht & Hu & Hmax).
  unfold _rawread. rewrite Hnil, Z.add_0_r, Hempty.
  rewrite wrap_int_id by (unfold INT_MIN, INT_MAX, PGSIZE in *; lia).
  unfold rem. destruct (Z.eqb_spec (bufsz cb) 0); [lia|].
  cbn [mbind outcome_bind].
  rewrite !Z.rem_mod_nonneg by lia.
  pose proof (Z.mod_pos_bound (tail cb) (bufsz cb) ltac:(lia)) as Hti.
  set (ti := tail cb mod bufsz cb) in *.
  destruct (Z.ltb_spec ti ti); [lia|].
  destruct (Z.geb_spec ti ti), (Z.ltb_spec ti ti); try lia. cbn [andb].
  rewrite Hlen, (buf_slice_done cb ti (bufsz cb)),
    (buf_slice_done cb 0 ti) by lia.
  cbn.
  destruct (Z.gtb_spec (bufsz cb - ti) 0); [|lia].
  eexists _, _. split; [reflexivity|]. split; [cbn; lia|]. cbn.
  pose proof (two_runs (bufsz cb) (tail cb) ti ltac:(lia) ltac:(lia)
                ltac:(lia)) as Hruns.
  fold ti in Hruns. rewrite Z.sub_0_r, <- Hruns. do 2 f_equal. lia.
Qed.

End Regions.

(** Two counters' values with the same ring index differ by a multiple of
    the size, so not by less than the size. *)
Lemma ring_positions_differ sz a b :
  0 < sz -> 0 < a - b < sz -> a mod sz <> b mod sz.
Proof.
  intros Hsz Hd Heq.
  assert (Hm : (a - b) mod sz = 0)
    by (rewrite Zminus_mod, Heq, Z.sub_diag; apply Z.mod_0_l; lia).
  rewrite Z.mod_small in Hm; lia.
Qed.

(** A buffer with queued bytes that do not wrap, and one whose queued
    bytes wrap around the end. *)
Definition straight : circbuf_t :=
  {| buf := Some (list_byte_of_string "ABCDEFGH"); bufsz := 8; head := 8;
     tail := 3; p_pg := 487424 |}.

Definition wrapped : circbuf_t :=
  {| buf := Some (list_byte_of_string "IJCDEFGH"); bufsz := 8; head := 10;
     tail := 3; p_pg := 487424 |}.

Lemma Inv_straight : Inv 10 straight.
Proof.
  split; cbn; unfold PGSIZE; try lia. intros b [= <-]. reflexivity.
Defined.

Lemma Inv_wrapped : Inv 10 wrapped.
Proof.
  split; cbn; unfold PGSIZE; try lia. intros b [= <-]. reflexivity.
Defined.

Lemma bound_ok : 10 + 8 <= INT_MAX.
Proof. unfold INT_MAX. lia. Defined.

(** X1. On a buffer that satisfies the counters' invariant and has its page,
    _rawread(offset) with 0 <= offset < used returns one or two windows of
    the buffer that cover, in order, exactly the ring positions of the
    queued bytes from the offset on: (tail+offset) mod bufsz up to
    (head-1) mod bufsz. *)
Theorem rawread_returns_queued bound cb offset :
  Inv bound cb -> bound + bufsz cb <= INT_MAX ->
  (exists b, buf cb = Some b) ->
  0 <= offset < head cb - tail cb ->
  exists r1 r2,
    _rawread cb offset = Done (r1, r2) /\
    indices r1 ++ indices r2 =
    (fun i => (tail cb + offset + i) mod bufsz cb)
      <$> seqZ 0 (head cb - tail cb - offset).
Proof. intros. eapply rawread_region; eauto. Qed.

Lemma rawread_returns_queued_witness :
  exists r1 r2,
    _rawread wrapped 2 = Done (r1, r2) /\
    indices r1 ++ indices r2 = [5; 6; 7; 0; 1].
Proof.
  exact (rawread_returns_queued 10 wrapped 2 Inv_wrapped bound_ok
           (ex_intro _ _ eq_refl) ltac:(cbn; lia)).
Defined.

(** X2. On such a buffer _rawwrite(offset, sz) with offset >= 0, sz > 0 and
    offset + sz <= left returns one or two windows of total length sz that
    cover, in order, exactly the ring positions (head+offset) mod bufsz up
    to (head+offset+sz-1) mod bufsz. *)
Theorem rawwrite_returns_free bound cb offset sz :
  Inv bound cb -> bound + bufsz cb <= INT_MAX ->
  (exists b, buf cb = Some b) ->
  0 <= offset -> 0 < sz ->
  offset + sz <= bufsz cb - (head cb - tail cb) ->
  exists r1 r2,
    _rawwrite cb offset sz = Done (r1, r2) /\
    wlen r1 + wlen r2 = sz /\
    indices r1 ++ indices r2 =
    (fun i => (head cb + offset + i) mod bufsz cb) <$> seqZ 0 sz.
Proof. intros. eapply rawwrite_region; eauto. Qed.

Lemma rawwrite_returns_free_witness :
  exists r1 r2,
    _rawwrite straight 1 2 = Done (r1, r2) /\
    wlen r1 + wlen r2 = 2 /\
    indices r1 ++ indices r2 = [1; 2].
Proof.
  exact (rawwrite_returns_free 10 straight 1 2 Inv_straight bound_ok
           (ex_intro _ _ eq_refl) ltac:(lia) ltac:(lia) ltac:(cbn; lia)).
Defined.

(** X3. The windows _rawwrite returns for a range inside the free space
    never share a buffer index with the windows _rawread returns for the
    queued bytes: what a producer fills through them cannot overwrite a
    byte that is still to be read. *)
Theorem raw_windows_disjoint bound cb offset sz w1 w2 r1 r2 :
  Inv bound cb -> bound + bufsz cb <= INT_MAX ->
  (exists b, buf cb = Some b) ->
  0 <= offset -> 0 < sz ->
  offset + sz <= bufsz cb - (head cb - tail cb) ->
  head cb <> tail cb ->
  _rawwrite cb offset sz = Done (w1, w2) ->
  _rawread cb 0 = Done (r1, r2) ->
  forall i, i ∈ indices w1 ++ indices w2 -> i ∉ indices r1 ++ indices r2.
Proof.
  intros HI Hb Hbuf Hoff Hsz Hfree Hne Hw Hr i Hiw Hir.
  destruct (rawwrite_region bound cb HI Hb Hbuf offset sz Hoff Hsz Hfree)
    as (w1' & w2' & Ew & _ & Hwi).
  pose proof HI as [? ? ? ? ?].
  destruct (rawread_region bound cb HI Hb Hbuf 0 ltac:(lia))
    as (r1' & r2' & Er & Hri).
  rewrite Ew in Hw. injection Hw as <- <-.
  rewrite Er in Hr. injection Hr as <- <-.
  rewrite Hwi in Hiw. rewrite Hri in Hir.
  apply list_elem_of_fmap in Hiw as (j & -> & Hj).
  apply list_elem_of_fmap in Hir as (k & Heq & Hk).
  apply elem_of_seqZ in Hj. apply elem_of_seqZ in Hk.
  revert Heq. apply ring_positions_differ; lia.
Qed.

Lemma raw_windows_disjoint_witness :
  (0 ∉ [3; 4; 5; 6; 7]) /\ (1 ∉ [3; 4; 5; 6; 7]).
Proof.
  pose proof (raw_windows_disjoint 10 straight 0 2 (Some (0, 2)) None
                (Some (3, 8)) (Some (0, 0)) Inv_straight bound_ok
                (ex_intro _ _ eq_refl)
                ltac:(lia) ltac:(lia) ltac:(cbn; lia) ltac:(cbn; lia)
                eq_refl eq_refl) as Hd.
  split; apply Hd; repeat constructor.
Defined.

(** X4. _rawread cannot tell an empty buffer from a full one: when
    head = tail, _rawread(0) does not return empty windows but windows
    covering all bufsz bytes of the buffer, starting at tail's index. *)
Theorem rawread_on_empty_returns_whole_buffer bound cb :
  Inv bound cb -> bound + bufsz cb <= INT_MAX ->
  (exists b, buf cb = Some b) ->
  head cb = tail cb ->
  exists r1 r2,
    _rawread cb 0 = Done (r1, r2) /\
    wlen r1 + wlen r2 = bufsz cb /\
    indices r1 ++ indices r2 =
    (fun i => (tail cb + i) mod bufsz cb) <$> seqZ 0 (bufsz cb).
Proof. intros. eapply rawread_empty; eauto. Qed.

(** A buffer whose page is attached and whose bytes were all read. *)
Definition all_read : circbuf_t :=
  {| buf := Some (list_byte_of_string "ABCDEFGH"); bufsz := 8; head := 3;
     tail := 3; p_pg := 487424 |}.

Lemma Inv_all_read : Inv 10 all_read.
Proof.
  split; cbn; unfold PGSIZE; try lia. intros b [= <-]. reflexivity.
Defined.

Lemma rawread_on_empty_returns_whole_buffer_witness :
  exists r1 r2,
    _rawread all_read 0 = Done (r1, r2) /\
    wlen r1 + wlen r2 = 8 /\
    indices r1 ++ indices r2 = [3; 4; 5; 6; 7; 0; 1; 2].
Proof.
  exact (rawread_on_empty_returns_whole_buffer 10 all_read Inv_all_read
           bound_ok (ex_intro _ _ eq_refl) eq_refl).
Defined.

(** X5. _advhead(sz), for sz >= 0 on a buffer that satisfies the
    invariant, returns exactly when the buffer is not full and sz <= left
    (on a full buffer it panics even for sz = 0); it then adds sz to used,
    takes sz from left and keeps the invariant. *)
Theorem advhead_commits bound cb sz :
  Inv bound cb -> bound + bufsz cb <= INT_MAX -> 0 <= sz ->
  (is_done (_advhead cb sz) = true <->
   head cb - tail cb < bufsz cb /\ sz <= left cb) /\
  (forall cb', _advhead cb sz = Done cb' ->
     used cb' = used cb + sz /\ left cb' = left cb - sz /\
     tail cb' = tail cb /\ Inv (bound + bufsz cb) cb').
Proof.
  intros HI Hb Hsz. pose proof HI as [? ? ? ? ?].
  unfold _advhead, full, left, used.
  rewrite !(wrap_int_id (head cb - tail cb)),
    !(wrap_int_id (bufsz cb - (head cb - tail cb)))
    by (unfold INT_MIN, INT_MAX, PGSIZE in *; lia).
  destruct (Z.eqb_spec (head cb - tail cb) (bufsz cb)),
    (Z.ltb_spec (bufsz cb - (head cb - tail cb)) sz); cbn;
    try (split; [split; [discriminate | lia] | discriminate]).
  split; [split; [lia | reflexivity]|].
  intros cb' [= <-]. cbn.
  rewrite (wrap_int_id (head cb + sz))
    by (unfold INT_MIN, INT_MAX, PGSIZE in *; lia).
  rewrite !wrap_int_id by (unfold INT_MIN, INT_MAX, PGSIZE in *; lia).
  split_and!; try lia.
  split; cbn; auto; lia.
Qed.

Lemma advhead_commits_witness :
  exists cb',
    _advhead straight 2 = Done cb' /\ used cb' = 7 /\ left cb' = 1 /\
    is_done (_advhead straight 4) = false.
Proof.
  assert (H0 : 0 <= 2) by lia.
  destruct (advhead_commits 10 straight 2 Inv_straight bound_ok H0)
    as [_ Hstep].
  eexists. split; [reflexivity|].
  destruct (Hstep _ eq_refl) as (Hu & Hl & _).
  split; [exact Hu|]. split; [exact Hl|]. reflexivity.
Defined.

(** X6. _advtail(sz), for sz >= 0 on a buffer that satisfies the
    invariant, returns exactly when sz <= used (always for sz = 0); it
    then takes sz from used and keeps the invariant. *)
Theorem advtail_commits bound cb sz :
  Inv bound cb -> bound <= INT_MAX -> 0 <= sz ->
  (is_done (_advtail cb sz) = true <-> sz <= used cb) /\
  (forall cb', _advtail cb sz = Done cb' ->
     used cb' = used cb - sz /\ head cb' = head cb /\ Inv bound cb').
Proof.
  intros HI Hb Hsz. pose proof HI as [? ? ? ? ?].
  unfold _advtail, empty, used.
  rewrite !(wrap_int_id (head cb - tail cb))
    by (unfold INT_MIN, INT_MAX, PGSIZE in *; lia).
  destruct (Z.eqb_spec sz 0), (Z.eqb_spec (head cb) (tail cb)),
    (Z.ltb_spec (head cb - tail cb) sz); cbn;
    try (split; [split; [discriminate | lia] | discriminate]);
    (split; [split; [lia | reflexivity]|]);
    intros cb' [= <-]; cbn;
    rewrite (wrap_int_id (tail cb + sz))
      by (unfold INT_MIN, INT_MAX, PGSIZE in *; lia);
    rewrite ?wrap_int_id by (unfold INT_MIN, INT_MAX, PGSIZE in *; lia);
    (split_and!; try lia); split; cbn; auto; lia.
Qed.

Lemma advtail_commits_witness :
  exists cb',
    _advtail straight 5 = Done cb' /\ used cb' = 0 /\
    is_done (_advtail straight 6) = false.
Proof.
  assert (Hb : 10 <= INT_MAX) by (unfold INT_MAX; lia).
  assert (H0 : 0 <= 5) by lia.
  destruct (advtail_commits 10 straight 5 Inv_straight Hb H0) as [_ Hstep].
  eexists. split; [reflexivity|].
  destruct (Hstep _ eq_refl) as (Hu & _).
  split; [exact Hu|]. reflexivity.
Defined.

Import Fakeubuf.

(** X7. On every state reached from cb_init by copyin and copyout_n calls
    (within the range of the counters), the next copyin returns and so
    does the next copyout_n with a limit max >= 0: neither the "wut?"
    panic, nor a slice out of bounds, nor a division by zero can happen. *)
Theorem copy_calls_never_panic {U} `{userio_ok U} sz n cb pm
    (src dst : U) max :
  reachable sz n cb pm ->
  (Z.of_nat n + 1) * sz <= INT_MAX ->
  0 <= max <= INT_MAX ->
  (exists r, copyin cb src pm = Done r) /\
  (exists r, copyout_n cb dst max pm = Done r).
Proof.
  intros Hr Hmax Hm.
  pose proof (reachable_size _ _ _ _ Hr) as Hsz.
  destruct (reachable_inv _ _ _ _ Hr ltac:(nia)) as (HI & Hpm & Hbs).
  split.
  - eapply copyin_ok; eauto; [nia | rewrite Hbs; lia].
  - eapply copyout_n_ok; eauto; nia.
Qed.

Lemma copy_calls_never_panic_witness :
  (exists r, copyin {| buf := None; bufsz := 8; head := 0; tail := 0;
                       p_pg := 0 |}
                    (Fakeubuf.fake_init (list_byte_of_string "AB"))
                    CircbufFacts.pm0 = Done r) /\
  (exists r, copyout_n {| buf := None; bufsz := 8; head := 0; tail := 0;
                          p_pg := 0 |}
                       (Fakeubuf.fake_init (list_byte_of_string "AB")) 3
                       CircbufFacts.pm0 = Done r).
Proof.
  assert (R0 : reachable 8 0 {| buf := None; bufsz := 8; head := 0;
                               tail := 0; p_pg := 0 |} CircbufFacts.pm0)
    by (apply reach_init; [reflexivity | apply CircbufFacts.pages_ok_pm0]).
  exact (copy_calls_never_panic 8 0 _ _ _ _ 3 R0
           ltac:(unfold INT_MAX; lia) ltac:(unfold INT_MAX; lia)).
Defined.

End CircbufRawFacts.

(** ** circbuf_t: the bytes that go through it *)

Module CircbufData.
Import Circbuf CircbufInv Fakeubuf.

#[local] Instance byte_inhabited : Inhabited byte := populate x00.

(** The queued bytes, oldest first: the buffer's bytes at ring positions
    tail, tail+1, ..., head-1. *)
Definition contents (cb : circbuf_t) : list uint8 :=
  (fun i => buf_elems cb !!! Z.to_nat ((tail cb + i) mod bufsz cb))
    <$> seqZ 0 (head cb - tail cb).

(** Room left in a kernel buffer used as user memory. *)
Definition room (fb : fakeubuf_t) : Z := len (fbuf fb).

(** The slice keeps inside the storage it was made from. *)
Definition fake_ok (fb : fakeubuf_t) : Prop :=
  (fbuf_lo fb <= length (mem fb))%nat.

Lemma copy_lookup {A} (dst src : list A) (j : nat) :
  (copy dst src).1 !! j =
  if decide (j < Nat.min (length dst) (length src))%nat
  then src !! j else dst !! j.
Proof.
  unfold copy. cbn.
  destruct (decide (j < Nat.min (length dst) (length src))%nat).
  - rewrite lookup_app_l by (rewrite length_take; lia).
    apply lookup_take_lt. lia.
  - rewrite lookup_app_r by (rewrite length_take; lia).
    rewrite length_take, lookup_drop. f_equal. lia.
Qed.

Lemma written_lookup cb b lo (d : list uint8) (j : nat) :
  buf cb = Some b -> 0 <= lo -> (Z.to_nat lo + length d <= length b)%nat ->
  buf_elems (written cb lo d) !! j =
  if decide (Z.to_nat lo <= j < Z.to_nat lo + length d)%nat
  then d !! (j - Z.to_nat lo)%nat else b !! j.
Proof.
  intros Eb Hlo Hd. unfold written, buf_elems. rewrite Eb. cbn.
  destruct (decide (Z.to_nat lo <= j < Z.to_nat lo + length d)%nat).
  - rewrite lookup_app_r by (rewrite length_take; lia).
    rewrite length_take, Nat.min_l by lia.
    apply lookup_app_l. lia.
  - destruct (decide (j < Z.to_nat lo)%nat).
    + rewrite lookup_app_l by (rewrite length_take; lia).
      apply lookup_take_lt. lia.
    + rewrite lookup_app_r by (rewrite length_take; lia).
      rewrite length_take, Nat.min_l by lia.
      rewrite lookup_app_r by lia.
      rewrite lookup_drop. f_equal. lia.
Qed.

(** Reading from a kernel buffer into a window of the circular buffer: the
    window's first [m] bytes become the source's next [m] bytes, [m] being
    what fits, and nothing else changes. *)
Lemma fake_fill cb b fb lo (dst : list uint8) :
  buf cb = Some b -> 0 <= lo ->
  (Z.to_nat lo + length dst <= length b)%nat ->
  (forall j, (j < length dst)%nat -> dst !! j = b !! (Z.to_nat lo + j)%nat) ->
  let r := uioread fb dst in
  let m := Nat.min (length dst) (length (fbuf fb)) in
  r.2 = (Z.of_nat m, 0) /\
  fbuf r.1.1 = drop m (fbuf fb) /\
  length r.1.2 = length dst /\
  exists b',
    buf (written cb lo r.1.2) = Some b' /\ length b' = length b /\
    forall j, b' !! j =
      if decide (Z.to_nat lo <= j < Z.to_nat lo + m)%nat
      then fbuf fb !! (j - Z.to_nat lo)%nat else b !! j.
Proof.
  intros Eb Hlo Hd Hdst r m.
  assert (Er : r = ({| mem := mem fb;
                       fbuf_lo := (fbuf_lo fb + m)%nat;
                       off := off fb; len_ := len_ fb |},
                    (copy dst (fbuf fb)).1, (Z.of_nat m, 0))).
  { subst r m. change (uioread fb dst) with (_tx fb dst false).
    unfold _tx, copy. cbn. rewrite Nat2Z.id. reflexivity. }
  rewrite Er. cbn [fst snd].
  pose proof (copy_length dst (fbuf fb)) as Hcl.
  split_and!; auto.
  - unfold fbuf. cbn. rewrite drop_drop. reflexivity.
  - remember (copy dst (fbuf fb)).1 as d eqn:Ed.
    pose proof (written_lookup cb b lo d) as Hw.
    assert (Ew : buf (written cb lo d) =
                 Some (take (Z.to_nat lo) b ++ d
                       ++ drop (Z.to_nat lo + length d) b))
      by (unfold written; rewrite Eb; reflexivity).
    eexists. split; [exact Ew|]. split.
    + rewrite !length_app, length_take, length_drop. lia.
    + intros j. specialize (Hw j Eb Hlo ltac:(lia)).
      unfold buf_elems in Hw. rewrite Ew in Hw.
      cbn [default from_option id] in Hw. rewrite Hw.
      rewrite Hcl, Ed, copy_lookup. fold m.
      repeat case_decide; try lia; auto.
      rewrite Hdst by lia. f_equal. lia.
Qed.

Lemma total_of_lookup (l1 l2 : list uint8) a b :
  l1 !! a = l2 !! b -> l1 !!! a = l2 !!! b.
Proof. intros H. rewrite !list_lookup_total_alt, H. reflexivity. Qed.

(** The ring position of the [i]-th byte past a counter, as an index. *)
Definition pos (sz t i : Z) : nat := Z.to_nat ((t + i) mod sz).

Lemma pos_cases sz t i :
  0 < sz -> 0 <= t -> 0 <= i <= sz ->
  pos sz t i =
  if decide (t mod sz + i < sz) then Z.to_nat (t mod sz + i)
  else Z.to_nat (t mod sz + i - sz).
Proof.
  intros Hsz Ht Hi. unfold pos.
  rewrite CircbufRawFacts.ring_shift by lia.
  destruct (Z.ltb_spec (t mod sz + i) sz); case_decide; try lia; reflexivity.
Qed.

(** What the queue holds after [n] bytes of [d] were put behind the queued
    ones without disturbing them. *)
Lemma contents_after cb cb' (d : list uint8) n :
  0 < bufsz cb -> bufsz cb' = bufsz cb -> tail cb' = tail cb ->
  0 <= head cb - tail cb -> 0 <= n <= len d ->
  head cb' = head cb + n ->
  length (buf_elems cb) = Z.to_nat (bufsz cb) ->
  (forall i, 0 <= i < head cb - tail cb ->
     buf_elems cb' !! pos (bufsz cb) (tail cb) i =
     buf_elems cb !! pos (bufsz cb) (tail cb) i) ->
  (forall k, 0 <= k < n ->
     buf_elems cb' !! pos (bufsz cb) (tail cb) (head cb - tail cb + k) =
     d !! Z.to_nat k) ->
  contents cb' = contents cb ++ take (Z.to_nat n) d.
Proof.
  intros Hsz Esz Et Hu Hn Eh Hlen Hold Hnew. unfold contents, len in *.
  rewrite Esz, Et, Eh.
  replace (head cb + n - tail cb) with (head cb - tail cb + n) by lia.
  rewrite seqZ_app, fmap_app by lia. f_equal.
  - apply list_eq. intros i. rewrite !list_lookup_fmap.
    destruct (seqZ 0 (head cb - tail cb) !! i) as [x|] eqn:Ex; [|reflexivity].
    apply lookup_seqZ in Ex as [-> Hi]. cbn. f_equal.
    apply total_of_lookup. apply Hold. lia.
  - apply list_eq. intros i. rewrite list_lookup_fmap.
    destruct (decide (Z.of_nat i < n)) as [Hi|Hi].
    + rewrite lookup_seqZ_lt by lia. cbn.
      rewrite lookup_take_lt by lia.
      specialize (Hnew (Z.of_nat i) ltac:(lia)). rewrite Nat2Z.id in Hnew.
      unfold pos in Hnew.
      rewrite Z.add_0_l, list_lookup_total_alt, Hnew.
      destruct (d !! i) eqn:Ed; [reflexivity|].
      apply lookup_ge_None in Ed. lia.
    + rewrite lookup_seqZ_ge by lia. cbn.
      symmetry. apply lookup_take_ge. lia.
Qed.

Lemma slice_from_lookup {A} (s d : list A) lo :
  slice_from s lo = Done d ->
  0 <= lo /\ (Z.to_nat lo + length d = length s)%nat /\
  forall j, (j < length d)%nat -> d !! j = s !! (Z.to_nat lo + j)%nat.
Proof.
  unfold slice_from, len.
  destruct (Z.leb_spec 0 lo), (Z.leb_spec lo (Z.of_nat (length s)));
    cbn; try discriminate.
  intros [= <-]. rewrite length_drop. split_and!; try lia.
  intros j _. apply lookup_drop.
Qed.

Lemma slice_range_lookup {A} (s d : list A) lo hi :
  slice_range s lo hi = Done d ->
  0 <= lo <= hi /\ length d = Z.to_nat (hi - lo) /\
  (Z.to_nat lo + length d <= length s)%nat /\
  forall j, (j < length d)%nat -> d !! j = s !! (Z.to_nat lo + j)%nat.
Proof.
  unfold slice_range, len.
  destruct (Z.leb_spec 0 lo), (Z.leb_spec lo hi),
    (Z.leb_spec hi (Z.of_nat (length s))); cbn; try discriminate.
  intros [= <-]. rewrite length_take, length_drop. split_and!; try lia.
  intros j Hj. rewrite lookup_take_lt by lia. apply lookup_drop.
Qed.

(** The second read of [copyin], into [cb.buf[hi:ti]]. *)
Lemma copyin_rest_fake cb b (src : fakeubuf_t) c hi ti cb' src' n e :
  buf cb = Some b -> length b = Z.to_nat (bufsz cb) ->
  0 <= c -> c + bufsz cb <= INT_MAX -> head cb + c + ti <= INT_MAX ->
  0 <= head cb -> 0 < bufsz cb ->
  copyin_rest cb src c hi ti = Done (cb', src', (n, e)) ->
  let m := Nat.min (Z.to_nat (ti - hi)) (length (fbuf src)) in
  0 <= hi <= ti /\ ti <= bufsz cb /\
  e = 0 /\ n = c + Z.of_nat m /\
  fbuf src' = drop m (fbuf src) /\
  head cb' = head cb + n /\ tail cb' = tail cb /\ bufsz cb' = bufsz cb /\
  exists b',
    buf cb' = Some b' /\ length b' = length b /\
    forall j, b' !! j =
      if decide (Z.to_nat hi <= j < Z.to_nat hi + m)%nat
      then fbuf src !! (j - Z.to_nat hi)%nat else b !! j.
Proof.
  intros Eb Hlb Hc Hcm Hhm Hh Hsz. unfold copyin_rest.
  destruct (Z.gtb_spec hi ti); [discriminate|].
  destruct (slice_range (buf_elems cb) hi ti) as [dst|] eqn:Es; [|discriminate].
  unfold buf_elems in Es. rewrite Eb in Es. cbn [default from_option id] in Es.
  apply slice_range_lookup in Es as (Hlo & Hld & Hfit & Hdst).
  cbn [mbind outcome_bind].
  destruct (fake_fill cb b src hi dst Eb ltac:(lia) Hfit Hdst)
    as (Hr & Hfb & Hl & b' & Eb' & Hlb' & Hlook).
  destruct (uioread src dst) as [[s1 d1] [w1 e1]]. cbn [fst snd] in *.
  injection Hr as -> ->. cbn [negb Z.eqb].
  rewrite Hld in *.
  pose proof (written_fields cb hi d1) as (Fsz & Fh & Ft).
  rewrite (wrap_int_id (c + _)), Fh
    by (unfold INT_MIN, INT_MAX in *; lia).
  rewrite wrap_int_id by (unfold INT_MIN, INT_MAX in *; lia).
  intros [= <- <- <- <-]. cbn.
  split_and!; auto; try lia.
  exists b'. split_and!; auto.
Qed.

Lemma lookup_in_range (d : list uint8) (j : nat) :
  (j < length d)%nat -> exists x, d !! j = Some x.
Proof. intros H. apply lookup_lt_is_Some_2 in H as [x E]. eauto. Qed.

(** [copyin] from a kernel buffer, on a buffer whose page is attached. *)
Lemma copyin_attached bound cb b (src : fakeubuf_t) pm cb' src' pm' n e :
  Inv bound cb -> bound + bufsz cb <= INT_MAX -> buf cb = Some b ->
  copyin cb src pm = Done (cb', src', pm', (n, e)) ->
  e = 0 /\ pm' = pm /\
  n = Z.min (bufsz cb - (head cb - tail cb)) (len (fbuf src)) /\
  contents cb' = contents cb ++ take (Z.to_nat n) (fbuf src) /\
  fbuf src' = drop (Z.to_nat n) (fbuf src) /\
  head cb' = head cb + n /\ tail cb' = tail cb /\ bufsz cb' = bufsz cb /\
  exists b', buf cb' = Some b'.
Proof.
  intros HI Hb Eb. pose proof HI as [Hsz Ht Hu Hh Hbl].
  specialize (Hbl b Eb). unfold len in *.
  assert (Hlb : length b = Z.to_nat (bufsz cb)) by lia.
  unfold copyin, cb_ensure. rewrite Eb. cbn [mbind outcome_bind negb Z.eqb].
  unfold full. rewrite wrap_int_id by (unfold INT_MIN, INT_MAX, PGSIZE in *; lia).
  destruct (Z.eqb_spec (head cb - tail cb) (bufsz cb)) as [Hfull|Hnf].
  { intros [= <- <- <- <- <-]. split_and!; eauto; try lia.
    cbn. rewrite app_nil_r. reflexivity. }
  unfold rem. destruct (Z.eqb_spec (bufsz cb) 0); [lia|].
  cbn [mbind outcome_bind]. rewrite !Z.rem_mod_nonneg by lia.
  destruct (CircbufRawFacts.ring_index_mod (bufsz cb) (head cb) (tail cb))
    as (Hhi & Hti & Hcase); try lia.
  pose proof (fun i => pos_cases (bufsz cb) (tail cb) i ltac:(lia) ltac:(lia))
    as Hpos.
  set (hi := head cb mod bufsz cb) in *.
  set (ti := tail cb mod bufsz cb) in *.
  destruct (Z.leb_spec ti hi).
  - (* the free space runs to the end of the buffer *)
    destruct (slice_from (buf_elems cb) hi) as [dst|] eqn:Es; [|discriminate].
    unfold buf_elems in Es. rewrite Eb in Es.
    cbn [default from_option id] in Es.
    apply slice_from_lookup in Es as (Hlo & Hfit & Hdst).
    cbn [mbind outcome_bind].
    destruct (fake_fill cb b src hi dst Eb ltac:(lia) ltac:(lia) Hdst)
      as (Hr & Hfb & Hl & b1 & Eb1 & Hlb1 & Hlook1).
    destruct (uioread src dst) as [[s1 d1] [w1 e1]]. cbn [fst snd] in *.
    injection Hr as -> ->. cbn [negb Z.eqb].
    pose proof (written_fields cb hi d1) as (Fsz & Fh & Ft).
    set (m1 := Nat.min (length dst) (length (fbuf src))) in *.
    rewrite Fh, Fsz.
    rewrite (wrap_int_id (head cb + _))
      by (unfold INT_MIN, INT_MAX, PGSIZE in *; lia).
    destruct (Z.eqb_spec (Z.of_nat m1) (len dst)) as [Hall|Hpart];
      unfold len in *; cbn [negb].
    + (* filled to the end: the second read starts at index 0 *)
      destruct (Z.eqb_spec (bufsz cb) 0); [lia|]. cbn [mbind outcome_bind].
      assert (Hz : Z.rem (head cb + Z.of_nat m1) (bufsz cb) = 0).
      { replace (Z.of_nat m1) with (bufsz cb - Z.rem (head cb) (bufsz cb))
          by (rewrite Z.rem_mod_nonneg by lia; fold hi; lia).
        apply rem_at_end; lia. }
      rewrite Hz.
      rewrite (wrap_int_id (0 + _))
        by (unfold INT_MIN, INT_MAX, PGSIZE in *; lia).
      destruct (copyin_rest (written cb hi d1) s1 (0 + Z.of_nat m1) 0 ti)
        as [[[cb2 s2] [n2 e2]]|] eqn:Er; [|discriminate].
      cbn. intros [= <- <- <- <- <-].
      eapply (copyin_rest_fake _ b1) in Er;
        rewrite ?Fsz, ?Fh; auto;
        try (unfold INT_MIN, INT_MAX, PGSIZE in *; lia).
      destruct Er as (_ & _ & -> & -> & Hfb2 & Hh2 & Ht2 & Hs2 &
                      b2 & Eb2 & Hlb2 & Hlook2).
      rewrite Hfb, length_drop in *. rewrite Fh, Ft, Fsz in *.
      set (m2 := Nat.min (Z.to_nat (ti - 0)) (length (fbuf src) - m1)) in *.
      assert (Hn : 0 + Z.of_nat m1 + Z.of_nat m2 =
                   Z.min (bufsz cb - (head cb - tail cb))
                         (Z.of_nat (length (fbuf src)))) by lia.
      split_and!; eauto; try lia.
      * apply contents_after; auto; try lia.
        -- unfold len. lia.
        -- unfold buf_elems. rewrite Eb. cbn. lia.
        -- intros i Hi. unfold buf_elems. rewrite Eb2, Eb. cbn.
           rewrite Hpos by lia. fold ti.
           rewrite Hlook2, Hlook1. repeat case_decide; try lia; reflexivity.
        -- intros k Hk. unfold buf_elems. rewrite Eb2. cbn.
           rewrite Hpos by lia. fold ti.
           rewrite Hlook2, Hlook1, lookup_drop.
           repeat case_decide; try lia; f_equal; lia.
      * rewrite Hfb2, drop_drop. f_equal. lia.
    + (* the source ran out before the end of the buffer *)
      intros [= <- <- <- <- <-]. cbn.
      assert (Hn : Z.of_nat m1 =
                   Z.min (bufsz cb - (head cb - tail cb))
                         (Z.of_nat (length (fbuf src)))) by lia.
      split_and!; eauto; try lia.
      * apply contents_after; cbn; rewrite ?Fsz, ?Ft, ?Fh;
          auto; try lia.
        -- unfold len. lia.
        -- unfold buf_elems. rewrite Eb. cbn. lia.
        -- intros i Hi. unfold buf_elems. cbn. rewrite Eb1, Eb. cbn.
           rewrite Hpos by lia. fold ti.
           rewrite Hlook1. repeat case_decide; try lia; reflexivity.
        -- intros k Hk. unfold buf_elems. cbn. rewrite Eb1. cbn.
           rewrite Hpos by lia. fold ti.
           rewrite Hlook1. repeat case_decide; try lia; f_equal; lia.
      * rewrite Hfb. f_equal. lia.
  - (* the free space lies between the two indices *)
    destruct (copyin_rest cb src 0 hi ti) as [[[cb2 s2] [n2 e2]]|] eqn:Er;
      [|discriminate].
    cbn. intros [= <- <- <- <- <-].
    eapply (copyin_rest_fake _ b) in Er; auto;
      try (unfold INT_MIN, INT_MAX, PGSIZE in *; lia).
    destruct Er as (_ & _ & -> & -> & Hfb2 & Hh2 & Ht2 & Hs2 &
                    b2 & Eb2 & Hlb2 & Hlook2).
    set (m2 := Nat.min (Z.to_nat (ti - hi)) (length (fbuf src))) in *.
    assert (Hn : 0 + Z.of_nat m2 =
                 Z.min (bufsz cb - (head cb - tail cb))
                       (Z.of_nat (length (fbuf src)))) by lia.
    split_and!; eauto; try lia.
    + apply contents_after; auto; try lia.
      * unfold len. lia.
      * unfold buf_elems. rewrite Eb. cbn. lia.
      * intros i Hi. unfold buf_elems. rewrite Eb2, Eb. cbn.
        rewrite Hpos by lia. fold ti.
        rewrite Hlook2. repeat case_decide; try lia; reflexivity.
      * intros k Hk. unfold buf_elems. rewrite Eb2. cbn.
        rewrite Hpos by lia. fold ti.
        rewrite Hlook2. repeat case_decide; try lia; f_equal; lia.
    + rewrite Hfb2. f_equal. lia.
Qed.

(** Writing to a kernel buffer used as user memory: what fits of [src] is
    stored behind what was stored before. *)
Lemma fake_store (fb : fakeubuf_t) (src : list uint8) :
  fake_ok fb ->
  let r := uiowrite fb src in
  let m := Nat.min (length (fbuf fb)) (length src) in
  r.2 = (Z.of_nat m, 0) /\
  stored r.1 = stored fb ++ take m src /\
  fake_ok r.1 /\ room r.1 = room fb - Z.of_nat m.
Proof.
  intros Hok r m. unfold fake_ok in Hok.
  assert (Er : r = ({| mem := take (fbuf_lo fb) (mem fb)
                              ++ (copy (fbuf fb) src).1;
                       fbuf_lo := (fbuf_lo fb + m)%nat;
                       off := off fb; len_ := len_ fb |}, (Z.of_nat m, 0))).
  { subst r m.
    change (uiowrite fb src) with ((_tx fb src true).1.1, (_tx fb src true).2).
    unfold _tx, copy. cbn. rewrite Nat2Z.id. reflexivity. }
  rewrite Er. cbn [fst snd].
  pose proof (copy_length (fbuf fb) src) as Hcl.
  assert (Hfl : length (fbuf fb) = (length (mem fb) - fbuf_lo fb)%nat)
    by (unfold fbuf; apply length_drop).
  split_and!; auto.
  - unfold stored, copy. cbn. fold m.
    rewrite app_assoc. apply take_app_length'.
    rewrite length_app, !length_take. lia.
  - unfold fake_ok, copy. cbn.
    rewrite !length_app, !length_take, length_drop. lia.
  - unfold room, len, copy. rewrite Hfl. unfold fbuf at 1. cbn.
    rewrite length_drop, !length_app, !length_take, length_drop. lia.
Qed.

(** [limit] and then [uiowrite] into a kernel buffer. *)
Lemma fake_drain (dst : fakeubuf_t) (src0 src : list uint8) max :
  fake_ok dst -> 0 <= max -> limit src0 max = Done src ->
  let r := uiowrite dst src in
  let l := if max =? 0 then len src0 else Z.min max (len src0) in
  let w := Z.min (room dst) l in
  len src = l /\ r.2 = (w, 0) /\
  stored r.1 = stored dst ++ take (Z.to_nat w) src0 /\
  fake_ok r.1 /\ room r.1 = room dst - w.
Proof.
  intros Hok Hmax Hl r l w.
  pose proof (fake_store dst src Hok) as (Hr & Hs & Hok' & Hroom).
  fold r in Hr, Hs, Hok', Hroom.
  assert (Hsrc : src = take (Z.to_nat l) src0 /\ len src = l).
  { unfold limit in Hl. subst l. unfold len in *.
    destruct (Z.eqb_spec max 0), (Z.ltb_spec max (Z.of_nat (length src0)));
      cbn in Hl.
    - injection Hl as <-. rewrite Nat2Z.id, firstn_all. auto.
    - injection Hl as <-. rewrite Nat2Z.id, firstn_all. auto.
    - unfold slice_to, slice_range in Hl.
      destruct (Z.leb_spec 0 max), (Z.leb_spec max (len src0)); unfold len in *;
        try lia.
      cbn in Hl. injection Hl as <-.
      change (Z.to_nat 0) with 0%nat. rewrite drop_0.
      rewrite Z.sub_0_r, Z.min_l, length_take by lia. split; [reflexivity|lia].
    - injection Hl as <-. rewrite Z.min_r, Nat2Z.id, firstn_all by lia. auto. }
  destruct Hsrc as [Esrc Hlen]. unfold room, len in *.
  assert (Hw : Z.of_nat (Nat.min (length (fbuf dst)) (length src)) = w)
    by (subst w; lia).
  rewrite Hw in *. split_and!; auto.
  rewrite Hs. f_equal.
  replace (Nat.min (length (fbuf dst)) (length src)) with (Z.to_nat w) by lia.
  rewrite Esrc, take_take. f_equal. lia.
Qed.

Lemma contents_lookup cb i :
  0 < bufsz cb -> length (buf_elems cb) = Z.to_nat (bufsz cb) ->
  0 <= i < head cb - tail cb ->
  contents cb !! Z.to_nat i = buf_elems cb !! pos (bufsz cb) (tail cb) i.
Proof.
  intros Hsz Hlen Hi. unfold contents, pos.
  rewrite list_lookup_fmap, lookup_seqZ_lt by lia. cbn.
  rewrite Z2Nat.id, Z.add_0_l, list_lookup_total_alt by lia.
  pose proof (Z.mod_pos_bound (tail cb + i) (bufsz cb) Hsz) as Hb.
  destruct (lookup_in_range (buf_elems cb)
              (Z.to_nat ((tail cb + i) mod bufsz cb)) ltac:(lia)) as [x ->].
  reflexivity.
Qed.

(** Bytes read off the ring positions from [tail] on are the oldest queued
    bytes. *)
Lemma delivered_eq cb (out : list uint8) n :
  0 < bufsz cb -> length (buf_elems cb) = Z.to_nat (bufsz cb) ->
  0 <= n <= head cb - tail cb -> length out = Z.to_nat n ->
  (forall i, 0 <= i < n ->
     out !! Z.to_nat i = buf_elems cb !! pos (bufsz cb) (tail cb) i) ->
  out = take (Z.to_nat n) (contents cb).
Proof.
  intros Hsz Hlen Hn Hlo Hout. apply list_eq. intros j.
  destruct (decide (Z.of_nat j < n)) as [Hj|Hj].
  - rewrite lookup_take_lt by lia.
    specialize (Hout (Z.of_nat j) ltac:(lia)). rewrite Nat2Z.id in Hout.
    rewrite Hout, <- contents_lookup by lia. rewrite Nat2Z.id. reflexivity.
  - rewrite lookup_take_ge by lia. apply lookup_ge_None. lia.
Qed.

Lemma contents_drop cb cb' n :
  bufsz cb' = bufsz cb -> buf cb' = buf cb -> head cb' = head cb ->
  tail cb' = tail cb + n -> 0 <= n <= head cb - tail cb ->
  contents cb' = drop (Z.to_nat n) (contents cb).
Proof.
  intros Esz Eb Eh Et Hn. unfold contents, buf_elems.
  rewrite Esz, Eb, Eh, Et. apply list_eq. intros j.
  rewrite lookup_drop, !list_lookup_fmap.
  destruct (decide (Z.of_nat j < head cb - (tail cb + n))) as [Hj|Hj].
  - rewrite !lookup_seqZ_lt by lia. cbn. do 4 f_equal. lia.
  - rewrite !lookup_seqZ_ge by lia. reflexivity.
Qed.

Lemma contents_length cb :
  length (contents cb) = Z.to_nat (head cb - tail cb).
Proof. unfold contents. rewrite length_fmap. apply length_seqZ. Qed.

(** The queued bytes as the one or two runs of the buffer that the two
    slice expressions of [copyout_n] denote. *)
Lemma contents_runs cb b :
  0 < bufsz cb -> 0 <= tail cb <= head cb -> head cb - tail cb <= bufsz cb ->
  buf cb = Some b -> length b = Z.to_nat (bufsz cb) -> head cb <> tail cb ->
  let hi := head cb mod bufsz cb in
  let ti := tail cb mod bufsz cb in
  contents cb =
  if decide (ti < hi)
  then take (Z.to_nat (hi - ti)) (drop (Z.to_nat ti) b)
  else drop (Z.to_nat ti) b ++ take (Z.to_nat hi) b.
Proof.
  intros Hsz Ht Hu Eb Hlb Hne hi ti.
  destruct (CircbufRawFacts.ring_index_mod (bufsz cb) (head cb) (tail cb))
    as (Hhi & Hti & Hcase); try lia.
  fold hi ti in Hhi, Hti, Hcase.
  assert (Hbe : buf_elems cb = b) by (unfold buf_elems; rewrite Eb; reflexivity).
  apply list_eq. intros j.
  destruct (decide (Z.of_nat j < head cb - tail cb)) as [Hj|Hj].
  - pose proof (contents_lookup cb (Z.of_nat j) Hsz
                  ltac:(rewrite Hbe; exact Hlb) ltac:(lia)) as Hc.
    rewrite Nat2Z.id in Hc. rewrite Hc, Hbe.
    rewrite pos_cases by lia. fold ti.
    destruct (decide (ti < hi)).
    + rewrite lookup_take_lt, lookup_drop by lia.
      case_decide; [|lia]. f_equal. lia.
    + destruct (decide (ti + Z.of_nat j < bufsz cb)).
      * rewrite lookup_app_l by (rewrite length_drop; lia).
        rewrite lookup_drop. f_equal. lia.
      * rewrite lookup_app_r by (rewrite length_drop; lia).
        rewrite length_drop, lookup_take_lt by lia. f_equal. lia.
  - transitivity (@None uint8).
    + apply lookup_ge_None. rewrite contents_length. lia.
    + symmetry. apply lookup_ge_None. case_decide.
      * rewrite length_take, length_drop. lia.
      * rewrite length_app, length_take, length_drop. lia.
Qed.

(** The second write of [copyout_n], from [cb.buf[ti:hi]]. *)
Lemma copyout_rest_fake cb b (dst : fakeubuf_t) c max hi ti cb' dst' n e :
  buf cb = Some b -> length b = Z.to_nat (bufsz cb) ->
  fake_ok dst -> 0 <= max ->
  0 <= c -> c + bufsz cb <= INT_MAX -> tail cb + c + bufsz cb <= INT_MAX ->
  0 <= tail cb -> 0 < bufsz cb ->
  copyout_rest cb dst c max hi ti = Done (cb', dst', (n, e)) ->
  let l := if max =? 0 then hi - ti else Z.min max (hi - ti) in
  let w := Z.min (room dst) l in
  0 <= ti <= hi /\ hi <= bufsz cb /\ e = 0 /\ n = c + w /\
  stored dst' =
    stored dst
    ++ take (Z.to_nat w) (take (Z.to_nat (hi - ti)) (drop (Z.to_nat ti) b)) /\
  fake_ok dst' /\ room dst' = room dst - w /\
  cb' = set_tail cb (tail cb + n).
Proof.
  intros Eb Hlb Hok Hmax Hc Hcm Htm Ht Hsz. unfold copyout_rest.
  destruct (Z.gtb_spec ti hi); [discriminate|].
  destruct (slice_range (buf_elems cb) ti hi) as [src0|] eqn:Es; [|discriminate].
  unfold buf_elems in Es. rewrite Eb in Es. cbn [default from_option id] in Es.
  pose proof (slice_range_done _ _ _ _ Es) as (Hlo & Hhi & Hl0).
  assert (E0 : src0 = take (Z.to_nat (hi - ti)) (drop (Z.to_nat ti) b)).
  { unfold slice_range in Es.
    destruct (Z.leb_spec 0 ti), (Z.leb_spec ti hi), (Z.leb_spec hi (len b));
      cbn in Es; try discriminate.
    injection Es as <-. reflexivity. }
  cbn [mbind outcome_bind].
  destruct (limit src0 max) as [src|] eqn:El; [|discriminate].
  cbn [mbind outcome_bind].
  pose proof (fake_drain dst src0 src max Hok Hmax El)
    as (Hls & Hr & Hs & Hok' & Hroom).
  destruct (uiowrite dst src) as [d1 [w1 e1]]. cbn [fst snd] in *.
  injection Hr as -> ->. cbn [negb Z.eqb].
  unfold room, len in *. rewrite Hl0 in *.
  set (w := Z.min (Z.of_nat (length (fbuf dst))) _) in *.
  assert (Hw : 0 <= w <= hi - ti) by (subst w; destruct (max =? 0); lia).
  clearbody w.
  rewrite (wrap_int_id (c + _)) by (unfold INT_MIN, INT_MAX in *; lia).
  rewrite wrap_int_id by (unfold INT_MIN, INT_MAX in *; lia).
  intros [= <- <- <- <-]. rewrite <- E0.
  split_and!; auto; lia.
Qed.

Lemma if_zero_cases (m a b' : Z) :
  (m = 0 /\ (if m =? 0 then a else b') = a) \/
  (m <> 0 /\ (if m =? 0 then a else b') = b').
Proof. destruct (Z.eqb_spec m 0); auto. Qed.

Lemma if_negb {A} (c : bool) (a b' : A) :
  (if negb c then a else b') = (if c then b' else a).
Proof. destruct c; reflexivity. Qed.

(** Names every [if m =? 0 then a else b] and keeps its two cases as a
    disjunction, for [lia]. *)
Ltac name_if :=
  repeat match goal with
  | |- context [if ?m =? 0 then ?a else ?b'] =>
      let x := fresh "x" in
      pose proof (if_zero_cases m a b');
      set (x := if m =? 0 then a else b') in *; clearbody x
  | H : context [if ?m =? 0 then ?a else ?b'] |- _ =>
      let x := fresh "x" in
      pose proof (if_zero_cases m a b');
      set (x := if m =? 0 then a else b') in *; clearbody x
  end.

(** [copyout_n] to a kernel buffer, on a buffer whose page is attached. *)
Lemma copyout_attached bound cb b (dst : fakeubuf_t) max pm cb' dst' pm' n e :
  Inv bound cb -> bound + bufsz cb <= INT_MAX -> buf cb = Some b ->
  fake_ok dst -> 0 <= max <= INT_MAX ->
  copyout_n cb dst max pm = Done (cb', dst', pm', (n, e)) ->
  e = 0 /\ pm' = pm /\
  n = Z.min (Z.min (head cb - tail cb) (room dst))
            (if max =? 0 then head cb - tail cb else max) /\
  stored dst' = stored dst ++ take (Z.to_nat n) (contents cb) /\
  contents cb' = drop (Z.to_nat n) (contents cb) /\
  fake_ok dst' /\ room dst' = room dst - n /\
  cb' = set_tail cb (tail cb + n).
Proof.
  intros HI Hb Eb Hok [Hmax Hmaxi]. pose proof HI as [Hsz Ht Hu Hh Hbl].
  specialize (Hbl b Eb). unfold len in *.
  assert (Hlb : length b = Z.to_nat (bufsz cb)) by lia.
  unfold copyout_n, cb_ensure. rewrite Eb. cbn [mbind outcome_bind negb Z.eqb].
  unfold empty.
  destruct (Z.eqb_spec (head cb) (tail cb)) as [Hem|Hne].
  { intros [= <- <- <- <- <-]. unfold room, len. name_if.
    split_and!; auto; try lia.
    - cbn. rewrite app_nil_r. reflexivity.
    - rewrite Z.add_0_r. destruct cb; reflexivity. }
  pose proof (contents_runs cb b ltac:(lia) Ht Hu Eb Hlb Hne) as Hruns.
  cbn zeta in Hruns.
  unfold rem. destruct (Z.eqb_spec (bufsz cb) 0); [lia|].
  cbn [mbind outcome_bind]. rewrite !Z.rem_mod_nonneg by lia.
  destruct (CircbufRawFacts.ring_index_mod (bufsz cb) (head cb) (tail cb))
    as (Hhi & Hti & Hcase); try lia.
  set (hi := head cb mod bufsz cb) in *.
  set (ti := tail cb mod bufsz cb) in *.
  destruct (Z.leb_spec hi ti).
  - (* the queued bytes run to the end of the buffer and on from index 0 *)
    destruct (decide (ti < hi)) as [|_] in Hruns; [lia|].
    destruct (slice_from (buf_elems cb) ti) as [src0|] eqn:Es; [|discriminate].
    unfold buf_elems in Es. rewrite Eb in Es.
    cbn [default from_option id] in Es.
    apply slice_from_done in Es as (Hlo & -> & Hl0).
    cbn [mbind outcome_bind].
    destruct (limit (drop (Z.to_nat ti) b) max) as [src|] eqn:El;
      [|discriminate].
    cbn [mbind outcome_bind].
    pose proof (fake_drain dst _ src max Hok Hmax El)
      as (Hls & Hr & Hs & Hok' & Hroom).
    destruct (uiowrite dst src) as [d1 [w1 e1]]. cbn [fst snd] in *.
    injection Hr as -> ->. cbn [negb Z.eqb].
    rewrite Hls, !if_negb. unfold room, len in *. rewrite Hl0 in *.
    clear El Hls src.
    set (w1 := Z.min (Z.of_nat (length (fbuf dst))) _) in *.
    assert (Hw1b : 0 <= w1 <= bufsz cb - ti /\ (max <> 0 -> w1 <= max))
      by (subst w1; destruct (Z.eqb_spec max 0); lia).
    rewrite !(wrap_int_id (0 + w1)), (wrap_int_id (tail cb + w1))
      by (unfold INT_MIN, INT_MAX, PGSIZE in *; lia).
    assert (Em : (if max =? 0 then max else wrap_int (max - (0 + w1))) =
                 if max =? 0 then 0 else max - w1).
    { destruct (Z.eqb_spec max 0); [lia|].
      apply wrap_int_id. unfold INT_MIN, INT_MAX, PGSIZE in *. lia. }
    rewrite Em. clear Em.
    name_if.
    destruct (Z.eqb_spec w1 x) as [Hall|Hpart]; cbn [negb orb];
      [destruct (Z.eqb_spec w1 max) as [Hlim|Hnl]|].
    + (* the first write reached the limit *)
      cbn. intros [= <- <- <- <- <-].
      split_and!; auto; try lia.
      * rewrite Hs, Hruns, take_app_le by (rewrite length_drop; lia).
        reflexivity.
      * apply contents_drop; auto; cbn; lia.
    + (* all of the first run went out: the second write starts at index 0 *)
      assert (Hz : Z.rem (tail cb + w1) (bufsz cb) = 0).
      { replace w1 with (bufsz cb - Z.rem (tail cb) (bufsz cb))
          by (rewrite Z.rem_mod_nonneg by lia; fold ti; lia).
        apply rem_at_end; lia. }
      cbn [mbind outcome_bind]. rewrite Hz.
      match goal with
      | |- context [copyout_rest cb d1 (0 + w1) ?m hi 0] =>
          destruct (copyout_rest cb d1 (0 + w1) m hi 0)
            as [[[cb2 d2] [n2 e2]]|] eqn:Er; [|discriminate]
      end.
      cbn. intros [= <- <- <- <- <-].
      eapply (copyout_rest_fake _ b) in Er; auto;
        try (unfold INT_MIN, INT_MAX, PGSIZE in *; lia).
      destruct Er as (_ & _ & -> & -> & Hs2 & Hok2 & Hroom2 & ->).
      unfold room, len in *. rewrite Hroom in *.
      name_if.
      assert (Hw1 : Z.to_nat w1 = length (drop (Z.to_nat ti) b))
        by (rewrite length_drop; lia).
      split_and!; auto; try lia.
      * rewrite Hs2, Hs, Hruns, Z.sub_0_r.
        change (Z.to_nat 0) with 0%nat. rewrite drop_0.
        rewrite Z2Nat.inj_add, Z.add_0_l, take_app_add' by lia.
        rewrite take_ge by lia. rewrite <- app_assoc. reflexivity.
      * apply contents_drop; auto; cbn; lia.
    + (* the destination or the limit ended the first write *)
      cbn. intros [= <- <- <- <- <-].
      split_and!; auto; try lia.
      * rewrite Hs, Hruns, take_app_le by (rewrite length_drop; lia).
        reflexivity.
      * apply contents_drop; auto; cbn; lia.
  - (* the queued bytes lie between the two indices *)
    destruct (decide (ti < hi)) as [_|] in Hruns; [|lia].
    destruct (copyout_rest cb dst 0 max hi ti) as [[[cb2 d2] [n2 e2]]|] eqn:Er;
      [|discriminate].
    cbn. intros [= <- <- <- <- <-].
    eapply (copyout_rest_fake _ b) in Er; auto;
      try (unfold INT_MIN, INT_MAX, PGSIZE in *; lia).
    destruct Er as (_ & _ & -> & -> & Hs2 & Hok2 & Hroom2 & ->).
    unfold room, len in *.
    name_if.
    split_and!; auto; try lia.
    + rewrite Hs2, Hruns, Z.add_0_l, take_take. f_equal.
    + apply contents_drop; auto; cbn; lia.
Qed.

(** A buffer without its page holds nothing. *)
Definition settled (cb : circbuf_t) : Prop := buf cb = None -> head cb = tail cb.

Lemma cb_ensure_cases bound cb pm cb1 pm1 err :
  Inv bound cb -> pages_ok pm -> settled cb -> 0 <= bound ->
  cb_ensure cb pm = Done (cb1, pm1, err) ->
  (err <> 0 /\ cb1 = cb /\ buf cb = None) \/
  (err = 0 /\ (exists b1, buf cb1 = Some b1) /\ Inv bound cb1 /\
   bufsz cb1 = bufsz cb /\ contents cb1 = contents cb).
Proof.
  intros HI Hpm Hset Hb Ee.
  pose proof (cb_ensure_inv _ _ _ _ _ _ HI Hpm Hb Ee)
    as (HI1 & _ & Hsz1 & Hbuf & Hsame).
  destruct (Z.eq_dec err 0) as [->|Hne].
  - right. split_and!; auto.
    revert Ee. unfold cb_ensure.
    destruct (buf cb) as [b|] eqn:Eb; [intros [= <- <-]; reflexivity|].
    destruct (bufsz cb =? 0); [discriminate|].
    destruct (refpg_new_nozero pm) as [pm2 [[pg p]|]]; [|discriminate].
    destruct (slice_to pg (bufsz cb)) as [bpg|]; [|discriminate].
    cbn. intros [= <- <-]. unfold contents. cbn [head tail].
    replace (head cb - tail cb) with 0 by (rewrite (Hset Eb); lia).
    reflexivity.
  - left. split_and!; auto.
    revert Ee. unfold cb_ensure.
    destruct (buf cb) as [b|]; [intros [= _ _ <-]; lia | reflexivity].
Qed.

Lemma copyin_after_ensure {U} `{userio_i U} cb (src : U) pm cb1 pm1 b1 :
  cb_ensure cb pm = Done (cb1, pm1, 0) -> buf cb1 = Some b1 ->
  copyin cb src pm = copyin cb1 src pm1.
Proof.
  intros Ee Eb. unfold copyin. rewrite Ee.
  unfold cb_ensure. rewrite Eb. reflexivity.
Qed.

Lemma copyout_after_ensure {U} `{userio_i U} cb (dst : U) max pm cb1 pm1 b1 :
  cb_ensure cb pm = Done (cb1, pm1, 0) -> buf cb1 = Some b1 ->
  copyout_n cb dst max pm = copyout_n cb1 dst max pm1.
Proof.
  intros Ee Eb. unfold copyout_n. rewrite Ee.
  unfold cb_ensure. rewrite Eb. reflexivity.
Qed.

(** [copyin] from a kernel buffer, with or without the page attached. *)
Lemma copyin_any bound cb (src : fakeubuf_t) pm :
  Inv bound cb -> pages_ok pm -> settled cb -> 0 <= bound ->
  bound + bufsz cb <= INT_MAX ->
  exists cb' src' pm' n e,
    copyin cb src pm = Done (cb', src', pm', (n, e)) /\
    Inv (bound + bufsz cb) cb' /\ pages_ok pm' /\ bufsz cb' = bufsz cb /\
    settled cb' /\
    contents cb' = contents cb ++ take (Z.to_nat n) (fbuf src).
Proof.
  intros HI Hpm Hset Hb Hmax.
  destruct (copyin_ok bound cb src pm HI Hpm Hb Hmax)
    as [[[[cb' src'] pm'] [n e]] E].
  pose proof (copyin_inv _ _ _ _ _ _ _ _ HI Hpm Hb Hmax E) as (HI' & Hpm' & Hsz').
  exists cb', src', pm', n, e. split_and!; auto.
  - destruct (cb_ensure cb pm) as [[[cb1 pm1] err]|] eqn:Ee;
      [|unfold copyin in E; rewrite Ee in E; discriminate].
    destruct (cb_ensure_cases _ _ _ _ _ _ HI Hpm Hset Hb Ee)
      as [(Hne & -> & Eb) | (-> & [b1 Eb1] & HI1 & Hsz1 & Hc1)].
    + unfold copyin in E. rewrite Ee in E. cbn in E.
      destruct (Z.eqb_spec err 0); [lia|]. cbn in E.
      injection E as <- _ _ _ _. exact Hset.
    + rewrite (copyin_after_ensure _ _ _ _ _ _ Ee Eb1) in E.
      rewrite <- Hsz1 in Hmax.
      destruct (copyin_attached _ _ _ _ _ _ _ _ _ _ HI1 Hmax Eb1 E)
        as (_ & _ & _ & _ & _ & _ & _ & _ & b' & Eb').
      intros Hnone. congruence.
  - destruct (cb_ensure cb pm) as [[[cb1 pm1] err]|] eqn:Ee;
      [|unfold copyin in E; rewrite Ee in E; discriminate].
    destruct (cb_ensure_cases _ _ _ _ _ _ HI Hpm Hset Hb Ee)
      as [(Hne & -> & Eb) | (-> & [b1 Eb1] & HI1 & Hsz1 & Hc1)].
    + unfold copyin in E. rewrite Ee in E. cbn in E.
      destruct (Z.eqb_spec err 0); [lia|]. cbn in E.
      injection E as <- _ _ <- _. cbn. rewrite app_nil_r. reflexivity.
    + rewrite (copyin_after_ensure _ _ _ _ _ _ Ee Eb1) in E.
      rewrite <- Hsz1 in Hmax.
      destruct (copyin_attached _ _ _ _ _ _ _ _ _ _ HI1 Hmax Eb1 E)
        as (_ & _ & _ & Hc & _).
      rewrite Hc, Hc1. reflexivity.
Qed.

(** [copyout_n] to a kernel buffer, with or without the page attached. *)
Lemma copyout_any bound cb (dst : fakeubuf_t) max pm :
  Inv bound cb -> pages_ok pm -> settled cb -> 0 <= bound ->
  bound + bufsz cb <= INT_MAX -> fake_ok dst -> 0 <= max <= INT_MAX ->
  exists cb' dst' pm' n e out,
    copyout_n cb dst max pm = Done (cb', dst', pm', (n, e)) /\
    Inv bound cb' /\ pages_ok pm' /\ bufsz cb' = bufsz cb /\
    settled cb' /\
    stored dst' = stored dst ++ out /\
    contents cb = out ++ contents cb'.
Proof.
  intros HI Hpm Hset Hb Hmax Hok Hm.
  pose proof HI as [Hsz _ _ _ _].
  destruct (copyout_n_ok bound cb dst max pm HI Hpm Hb ltac:(lia) Hm)
    as [[[[cb' dst'] pm'] [n e]] E].
  pose proof (copyout_n_inv _ _ _ _ _ _ _ _ _ HI Hpm Hb ltac:(lia) E)
    as (HI' & Hpm' & Hsz').
  destruct (cb_ensure cb pm) as [[[cb1 pm1] err]|] eqn:Ee;
    [|unfold copyout_n in E; rewrite Ee in E; discriminate].
  destruct (cb_ensure_cases _ _ _ _ _ _ HI Hpm Hset Hb Ee)
    as [(Hne & -> & Eb) | (-> & [b1 Eb1] & HI1 & Hsz1 & Hc1)].
  - exists cb', dst', pm', n, e, []. split_and!; auto.
    all: unfold copyout_n in E; rewrite Ee in E; cbn in E.
    all: destruct (Z.eqb_spec err 0); [lia|]; cbn in E.
    all: injection E as <- <- _ _ _; auto.
    rewrite app_nil_r. reflexivity.
  - pose proof E as E1.
    rewrite (copyout_after_ensure _ _ _ _ _ _ _ Ee Eb1) in E1.
    rewrite <- Hsz1 in Hmax.
    destruct (copyout_attached _ _ _ _ _ _ _ _ _ _ _ HI1 Hmax Eb1 Hok Hm E1)
      as (_ & _ & _ & Hs & Hc & _ & _ & Ecb).
    exists cb', dst', pm', n, e, (take (Z.to_nat n) (contents cb1)).
    split_and!; auto.
    + intros Hnone. rewrite Ecb in Hnone. cbn in Hnone. congruence.
    + rewrite <- Hc1, Hc. symmetry. apply take_drop.
Qed.

(** A call of a history: [Put d] is [copyin] from the kernel buffer [d],
    [Get k max] is [copyout_n] into a kernel buffer of [k] bytes. *)
Inductive call : Type :=
| Put (d : list uint8)
| Get (k : nat) (max : Z).

(** Runs a history; [ins] collects the bytes the buffer took from the
    sources (the first [n] of each, [n] being the count [copyin] returned),
    [outs] the bytes left in the destinations, both in call order. *)
Fixpoint play (cs : list call) (cb : circbuf_t) (pm : physmem)
    (ins outs : list uint8)
  : outcome (circbuf_t * physmem * list uint8 * list uint8) :=
  match cs with
  | [] => Done (cb, pm, ins, outs)
  | Put d :: cs =>
      '(cb, _, pm, (n, _)) ← copyin cb (fake_init d) pm;
      play cs cb pm (ins ++ take (Z.to_nat n) d) outs
  | Get k max :: cs =>
      '(cb, dst, pm, _) ← copyout_n cb (fake_init (repeat x00 k)) max pm;
      play cs cb pm ins (outs ++ stored dst)
  end.

Definition max_ok (c : call) : Prop :=
  match c with
  | Put _ => True
  | Get _ max => 0 <= max <= INT_MAX
  end.

Lemma play_fifo sz cs : forall k cb pm ins outs,
  Inv (Z.of_nat k * sz) cb -> pages_ok pm -> settled cb -> bufsz cb = sz ->
  (Z.of_nat k + Z.of_nat (length cs)) * sz <= INT_MAX ->
  Forall max_ok cs ->
  ins = outs ++ contents cb ->
  exists cb' pm' ins' outs',
    play cs cb pm ins outs = Done (cb', pm', ins', outs') /\
    ins' = outs' ++ contents cb'.
Proof.
  induction cs as [|c cs IH]; intros k cb pm ins outs HI Hpm Hset Hsz Hmax Hcs Hq.
  - cbn. eauto 6.
  - pose proof HI as [Hs _ _ _ _]. cbn [length] in Hmax.
    apply Forall_cons in Hcs as [Hc Hcs].
    destruct c as [d|m max]; cbn [play].
    + destruct (copyin_any (Z.of_nat k * sz) cb (fake_init d) pm)
        as (cb1 & s1 & pm1 & n & e & E & HI1 & Hpm1 & Hsz1 & Hset1 & Hc1);
        auto; try nia.
      rewrite E. cbn [mbind outcome_bind].
      apply (IH (S k)); auto; try nia.
      * rewrite Hsz in HI1.
        replace (Z.of_nat (S k) * sz) with (Z.of_nat k * sz + sz) by lia.
        exact HI1.
      * rewrite Hc1, Hq, app_assoc. reflexivity.
    + destruct (copyout_any (Z.of_nat k * sz) cb (fake_init (repeat x00 m))
                  max pm)
        as (cb1 & d1 & pm1 & n & e & out & E & HI1 & Hpm1 & Hsz1 & Hset1
            & Hst & Hc1); auto; try nia.
      { unfold fake_ok. cbn. lia. }
      rewrite E. cbn [mbind outcome_bind].
      apply (IH (S k)); auto; try nia.
      * eapply Inv_mono; [|exact HI1]. nia.
      * rewrite Hst, Hq, Hc1. cbn. rewrite app_assoc. reflexivity.
Qed.

(** X8. copyin from a kernel buffer (fakeubuf_t), on a buffer that satisfies
    the counters' invariant and has its page: the call returns
    n = min(free space, bytes left in the source) and no error; the queued
    bytes afterwards are the bytes queued before followed by the source's
    first n bytes, in order (also when they wrap around the end of the
    buffer); the source has advanced n bytes; head moved by n and tail did
    not move. *)
Theorem copyin_queues_behind bound cb b (src : fakeubuf_t) pm :
  Inv bound cb -> pages_ok pm -> 0 <= bound -> bound + bufsz cb <= INT_MAX ->
  buf cb = Some b ->
  let n := Z.min (bufsz cb - (head cb - tail cb)) (len (fbuf src)) in
  exists cb' src',
    copyin cb src pm = Done (cb', src', pm, (n, 0)) /\
    contents cb' = contents cb ++ take (Z.to_nat n) (fbuf src) /\
    fbuf src' = drop (Z.to_nat n) (fbuf src) /\
    head cb' = head cb + n /\ tail cb' = tail cb.
Proof.
  intros HI Hpm Hb Hmax Eb n.
  destruct (copyin_ok bound cb src pm HI Hpm Hb Hmax)
    as [[[[cb' src'] pm'] [n' e]] E].
  destruct (copyin_attached _ _ _ _ _ _ _ _ _ _ HI Hmax Eb E)
    as (-> & -> & -> & Hc & Hf & Hh & Ht & _).
  exists cb', src'. auto.
Qed.

Lemma copyin_queues_behind_witness :
  exists cb' src',
    copyin CircbufRawFacts.wrapped (fake_init (CircbufFacts.bytes "XY"))
           CircbufFacts.pm0
      = Done (cb', src', CircbufFacts.pm0, (1, 0)) /\
    contents cb' = CircbufFacts.bytes "DEFGHIJ" ++ CircbufFacts.bytes "X" /\
    fbuf src' = CircbufFacts.bytes "Y" /\
    head cb' = 11 /\ tail cb' = 3.
Proof.
  exact (copyin_queues_behind 10 CircbufRawFacts.wrapped _
           (fake_init (CircbufFacts.bytes "XY")) CircbufFacts.pm0
           CircbufRawFacts.Inv_wrapped CircbufFacts.pages_ok_pm0
           ltac:(lia) CircbufRawFacts.bound_ok eq_refl).
Defined.

(** X9. copyout_n to a kernel buffer (fakeubuf_t) with a limit 0 <= max,
    on a buffer that satisfies the counters' invariant and has its page:
    the call returns n = min(queued bytes, room in the destination, max if
    max is not 0) and no error; it stores the n oldest queued bytes, in
    order, behind what the destination already held (also when they wrap
    around the end of the buffer); the n bytes are gone from the queue and
    the rest keeps its order; only tail moved, by n. *)
Theorem copyout_delivers_oldest bound cb b (dst : fakeubuf_t) max pm :
  Inv bound cb -> pages_ok pm -> 0 <= bound -> bound + bufsz cb <= INT_MAX ->
  buf cb = Some b -> fake_ok dst -> 0 <= max <= INT_MAX ->
  let n := Z.min (Z.min (head cb - tail cb) (room dst))
                 (if max =? 0 then head cb - tail cb else max) in
  exists dst',
    copyout_n cb dst max pm
      = Done (set_tail cb (tail cb + n), dst', pm, (n, 0)) /\
    stored dst' = stored dst ++ take (Z.to_nat n) (contents cb) /\
    contents (set_tail cb (tail cb + n)) = drop (Z.to_nat n) (contents cb) /\
    room dst' = room dst - n.
Proof.
  intros HI Hpm Hb Hmax Eb Hok Hm n.
  pose proof HI as [Hsz _ _ _ _].
  destruct (copyout_n_ok bound cb dst max pm HI Hpm Hb ltac:(lia) Hm)
    as [[[[cb' dst'] pm'] [n' e]] E].
  destruct (copyout_attached _ _ _ _ _ _ _ _ _ _ _ HI Hmax Eb Hok Hm E)
    as (-> & -> & -> & Hs & Hc & _ & Hr & ->).
  exists dst'. auto.
Qed.

Lemma copyout_delivers_oldest_witness :
  exists dst',
    copyout_n CircbufRawFacts.wrapped (fake_init (repeat x00 16)) 6
              CircbufFacts.pm0
      = Done (set_tail CircbufRawFacts.wrapped 9, dst', CircbufFacts.pm0,
              (6, 0)) /\
    stored dst' = [] ++ CircbufFacts.bytes "DEFGHI" /\
    contents (set_tail CircbufRawFacts.wrapped 9) = CircbufFacts.bytes "J" /\
    room dst' = 10.
Proof.
  exact (copyout_delivers_oldest 10 CircbufRawFacts.wrapped _
           (fake_init (repeat x00 16)) 6 CircbufFacts.pm0
           CircbufRawFacts.Inv_wrapped CircbufFacts.pages_ok_pm0
           ltac:(lia) CircbufRawFacts.bound_ok eq_refl
           ltac:(unfold fake_ok; cbn; lia)
           ltac:(unfold INT_MAX; lia)).
Defined.

(** X10. copyin and copyout_n on a buffer without its page (buf is nil):
    when bufsz is 0 (the struct was never initialised) both panic; when
    bufsz is not 0 and the page allocator fails, both return (0, -ENOMEM)
    and leave the buffer's fields and the user buffer as they were. *)
Theorem no_page_no_transfer {U} `{userio_i U} cb (u : U) max pm :
  buf cb = None ->
  (bufsz cb = 0 ->
     is_done (copyin cb u pm) = false /\
     is_done (copyout_n cb u max pm) = false) /\
  (bufsz cb <> 0 -> (refpg_new_nozero pm).2 = None ->
     copyin cb u pm = Done (cb, u, (refpg_new_nozero pm).1, (0, - ENOMEM)) /\
     copyout_n cb u max pm
       = Done (cb, u, (refpg_new_nozero pm).1, (0, - ENOMEM))).
Proof.
  intros Eb. unfold copyin, copyout_n, cb_ensure. rewrite Eb. split.
  - intros ->. cbn. auto.
  - intros Hsz Hnone. destruct (Z.eqb_spec (bufsz cb) 0); [lia|].
    destruct (refpg_new_nozero pm) as [pm1 [a|]]; [discriminate|].
    cbn. auto.
Qed.

Lemma no_page_no_transfer_witness :
  let cb := {| buf := None; bufsz := 8; head := 3; tail := 3; p_pg := 0 |} in
  let pm := {| reflog := []; newpages := [None] |} in
  let u := fake_init (CircbufFacts.bytes "AB") in
  (is_done (copyin zero u CircbufFacts.pm0) = false /\
   is_done (copyout_n zero u 0 CircbufFacts.pm0) = false) /\
  (copyin cb u pm = Done (cb, u, {| reflog := []; newpages := [] |}, (0, -12)) /\
   copyout_n cb u 5 pm
     = Done (cb, u, {| reflog := []; newpages := [] |}, (0, -12))).
Proof.
  split.
  - exact (proj1 (no_page_no_transfer zero
                    (fake_init (CircbufFacts.bytes "AB")) 0 CircbufFacts.pm0
                    eq_refl) eq_refl).
  - exact (proj2 (no_page_no_transfer
                    {| buf := None; bufsz := 8; head := 3; tail := 3;
                       p_pg := 0 |}
                    (fake_init (CircbufFacts.bytes "AB")) 5
                    {| reflog := []; newpages := [None] |} eq_refl)
                 ltac:(cbn; lia) eq_refl).
Defined.

(** X11. First in, first out.  Starting from cb_init(sz), run any history
    of copyin calls from kernel buffers and copyout_n calls (limits
    0 <= max) into kernel buffers, with any answers of the page allocator,
    as long as the number of calls times sz stays within the range of a Go
    int.  No call panics, and at the end the bytes accepted from the sources
    (the first n of each, n the count copyin returned), in call order, are
    exactly the bytes delivered to the destinations, in call order, followed
    by the bytes still queued: nothing is lost, duplicated or reordered. *)
Theorem circbuf_is_fifo sz cb0 pm0 cs :
  cb_init zero sz = Done (cb0, 0) -> pages_ok pm0 ->
  Z.of_nat (length cs) * sz <= INT_MAX ->
  Forall max_ok cs ->
  exists cb pm ins outs,
    play cs cb0 pm0 [] [] = Done (cb, pm, ins, outs) /\
    ins = outs ++ contents cb.
Proof.
  intros Hi Hpm Hmax Hcs.
  unfold cb_init in Hi.
  destruct (Z.leb_spec sz 0), (Z.gtb_spec sz PGSIZE); cbn in Hi;
    try discriminate.
  injection Hi as <-.
  apply (play_fifo sz cs 0); cbn; auto; try lia.
  - split; cbn; try lia. discriminate.
  - intros _. reflexivity.
Qed.

Lemma circbuf_is_fifo_witness :
  exists cb pm,
    play [Put (CircbufFacts.bytes "ABCDEFGH"); Get 16 3;
          Put (CircbufFacts.bytes "IJKL"); Get 4 0]
         {| buf := None; bufsz := 8; head := 0; tail := 0; p_pg := 0 |}
         CircbufFacts.pm0 [] []
      = Done (cb, pm, CircbufFacts.bytes "ABCDEFGHIJK",
              CircbufFacts.bytes "ABCDEFG") /\
    CircbufFacts.bytes "ABCDEFGHIJK"
      = CircbufFacts.bytes "ABCDEFG" ++ contents cb.
Proof.
  destruct (circbuf_is_fifo 8
              {| buf := None; bufsz := 8; head := 0; tail := 0; p_pg := 0 |}
              CircbufFacts.pm0
              [Put (CircbufFacts.bytes "ABCDEFGH"); Get 16 3;
               Put (CircbufFacts.bytes "IJKL"); Get 4 0]
              eq_refl CircbufFacts.pages_ok_pm0
              ltac:(cbn; unfold INT_MAX; lia)
              ltac:(repeat constructor; cbn; unfold INT_MAX; lia))
    as (cb & pm & ins & outs & E & Hq).
  vm_compute in E. injection E as <- <- <- <-.
  eexists _, _. split; [vm_compute; reflexivity | exact Hq].
Defined.

End CircbufData.

(** ** cpuidfamily and the hardware profiling driver intelprof_t *)

Module Prof.

Definition wrap_uint32 (z : Z) : Z := z mod 2 ^ 32.

(** [cpuidfamily], from the value [runtime.Cpuid(1, 0)] leaves in eax (a
    [uint32]): the displayed model and family. *)
Definition cpuidfamily (ax : Z) : Z * Z :=
  let model := Z.land (Z.shiftr ax 4) 15 in
  let family := Z.land (Z.shiftr ax 8) 15 in
  let emodel := Z.land (Z.shiftr ax 16) 15 in
  let efamily := Z.land (Z.shiftr ax 20) 255 in
  let dispmodel := wrap_uint32 (wrap_uint32 (Z.shiftl emodel 4) + model) in
  let dispfamily := wrap_uint32 (efamily + family) in
  (dispmodel, dispfamily).

(** Performance monitoring event ids ([pmevid_t], a [uint]) and flags
    ([pmflag_t]): [1 << iota]. *)
Definition EV_UNHALTED_CORE_CYCLES : Z := Z.shiftl 1 0.
Definition EV_LLC_MISSES : Z := Z.shiftl 1 1.
Definition EV_LLC_REFS : Z := Z.shiftl 1 2.
Definition EV_BRANCH_INSTR_RETIRED : Z := Z.shiftl 1 3.
Definition EV_BRANCH_MISS_RETIRED : Z := Z.shiftl 1 4.
Definition EV_INSTR_RETIRED : Z := Z.shiftl 1 5.
Definition EV_DTLB_LOAD_MISS_ANY : Z := Z.shiftl 1 6.
Definition EV_DTLB_LOAD_MISS_STLB : Z := Z.shiftl 1 7.
Definition EV_STORE_DTLB_MISS : Z := Z.shiftl 1 8.
Definition EV_L2_LD_HITS : Z := Z.shiftl 1 9.
Definition EV_ITLB_LOAD_MISS_ANY : Z := Z.shiftl 1 10.

Definition EVF_OS : Z := Z.shiftl 1 0.
Definition EVF_USR : Z := Z.shiftl 1 1.

Record pmev_t : Type := { evid : Z; pflags : Z }.

Record intelpmc_t : Type := { alloced : bool; eventid : Z }.

Record pmevent_t : Type := { event : Z; umask : Z }.

(** The driver's fields; the mutex is left out (the calls below are the
    bodies run under it). *)
Record intelprof_t : Type := {
  pmcs : list intelpmc_t;
  events : gmap Z pmevent_t
}.

(** Accesses to model specific registers, in order.  What [runtime.Rdmsr]
    returns is the hardware's business: [Rdmsr a v] records that register
    [a] was read and [v] came back. *)
Inductive msrev : Type :=
| Wrmsr (a b : Z)
| Rdmsr (a v : Z).

Definition ia32_pmc0 : Z := 193.
Definition ia32_perfevtsel0 : Z := 390.

Definition _ev2msr (ip : intelprof_t) (eid pf : Z) : outcome Z :=
  match events ip !! eid with
  | None => Panic "no such event"
  | Some ev =>
      let usr := Z.shiftl 1 16 in
      let os := Z.shiftl 1 17 in
      let en := Z.shiftl 1 22 in
      let event := event ev in
      let umask := wrap_int (Z.shiftl (umask ev) 8) in
      let v := Z.lor (Z.lor umask event) en in
      let v := if negb (Z.land pf EVF_OS =? 0) then Z.lor v os else v in
      let v := if negb (Z.land pf EVF_USR =? 0) then Z.lor v usr else v in
      let v := if pf =? 0 then Z.lor v (Z.lor os usr) else v in
      Done v
  end.

Definition _pmc_start (ip : intelprof_t) (log : list msrev) (cid eid pf : Z)
  : outcome (list msrev) :=
  if (cid <? 0) || (cid >=? len (pmcs ip)) then Panic "wtf" else
  let pmc := wrap_int (ia32_pmc0 + cid) in
  let evtsel := wrap_int (ia32_perfevtsel0 + cid) in
  let log := log ++ [Wrmsr evtsel 0] in
  let log := log ++ [Wrmsr pmc 0] in
  v ← _ev2msr ip eid pf;
  Done (log ++ [Wrmsr evtsel v]).

Section Hardware.

(** The value the next read of a register returns, given the accesses so
    far. *)
Variable rdmsr : list msrev -> Z -> Z.

Definition _pmc_stop (ip : intelprof_t) (log : list msrev) (cid : Z)
  : outcome (list msrev * Z) :=
  if (cid <? 0) || (cid >=? len (pmcs ip)) then Panic "wtf" else
  let pmc := wrap_int (ia32_pmc0 + cid) in
  let evtsel := wrap_int (ia32_perfevtsel0 + cid) in
  let ret := rdmsr log pmc in
  let log := log ++ [Rdmsr pmc ret] in
  let log := log ++ [Wrmsr evtsel 0] in
  Done (log, wrap_uint ret).

(** [prof_init], given the eax of [runtime.Cpuid(1, 0)]. *)
Definition prof_init (npmc : Z) (ax : Z) : intelprof_t :=
  let pmcs := replicate (Z.to_nat npmc) {| alloced := false; eventid := 0 |} in
  let events : gmap Z pmevent_t :=
    <[EV_UNHALTED_CORE_CYCLES := {| event := 60; umask := 0 |}]>
    (<[EV_LLC_MISSES := {| event := 46; umask := 65 |}]>
    (<[EV_LLC_REFS := {| event := 46; umask := 79 |}]>
    (<[EV_BRANCH_INSTR_RETIRED := {| event := 196; umask := 0 |}]>
    (<[EV_BRANCH_MISS_RETIRED := {| event := 197; umask := 0 |}]>
    (<[EV_INSTR_RETIRED := {| event := 192; umask := 0 |}]> ∅))))) in
  let _xeon5000 : gmap Z pmevent_t :=
    <[EV_DTLB_LOAD_MISS_ANY := {| event := 8; umask := 1 |}]>
    (<[EV_DTLB_LOAD_MISS_STLB := {| event := 8; umask := 2 |}]>
    (<[EV_STORE_DTLB_MISS := {| event := 12; umask := 1 |}]>
    (<[EV_ITLB_LOAD_MISS_ANY := {| event := 133; umask := 1 |}]>
    (<[EV_L2_LD_HITS := {| event := 36; umask := 1 |}]> ∅)))) in
  let '(dispmodel, dispfamily) := cpuidfamily ax in
  let events :=
    if (dispfamily =? 6) && (dispmodel =? 30)
    then _xeon5000 ∪ events   (* ip.events[k] = v for every k, v *)
    else events in
  {| pmcs := pmcs; events := events |}.

(** [ip.pmcs[i].alloced = a; ip.pmcs[i].eventid = e] *)
Definition set_pmc (ip : intelprof_t) (i : nat) (c : intelpmc_t)
  : intelprof_t :=
  {| pmcs := <[i := c]> (pmcs ip); events := events ip |}.

(** The inner loop of [startpmc]: the first counter that is not
    allocated. *)
Fixpoint first_free (cs : list intelpmc_t) (i : nat) : option nat :=
  match cs with
  | [] => None
  | c :: cs => if negb (alloced c) then Some i else first_free cs (S i)
  end.

(** The loop labelled [outer]. *)
Fixpoint startpmc_loop (evs : list pmev_t) (ip : intelprof_t)
    (log : list msrev) (ret : list Z) (ri : Z)
  : outcome (intelprof_t * list msrev * list Z) :=
  match evs with
  | [] => Done (ip, log, ret)
  | ev :: evs =>
      let eid := evid ev in
      match first_free (pmcs ip) 0 with
      | None => startpmc_loop evs ip log ret ri
      | Some i =>
          let ip := set_pmc ip i {| alloced := true; eventid := eid |} in
          log ← _pmc_start ip log (Z.of_nat i) eid (pflags ev);
          ret ← Passfd.store ret ri (Z.of_nat i);
          startpmc_loop evs ip log ret (wrap_int (ri + 1))
      end
  end.

(** The number of counters that are not allocated. *)
Fixpoint count_free (cs : list intelpmc_t) (cnt : Z) : Z :=
  match cs with
  | [] => cnt
  | c :: cs =>
      count_free cs (if negb (alloced c) then wrap_int (cnt + 1) else cnt)
  end.

Definition startpmc (ip : intelprof_t) (log : list msrev) (evs : list pmev_t)
  : outcome (intelprof_t * list msrev * (option (list Z) * bool)) :=
  if existsb (fun ev => bool_decide (events ip !! evid ev = None)) evs
  then Done (ip, log, (None, false)) else
  let cnt := count_free (pmcs ip) 0 in
  if cnt <? len evs then Done (ip, log, (None, false)) else
  let ret := replicate (length evs) 0 in
  '(ip, log, ret) ← startpmc_loop evs ip log ret 0;
  Done (ip, log, (Some ret, true)).

(** The loop of [stoppmc]. *)
Fixpoint stoppmc_loop (idxs : list Z) (ip : intelprof_t) (log : list msrev)
    (ret : list Z) (ri : Z)
  : outcome (intelprof_t * list msrev * list Z) :=
  match idxs with
  | [] => Done (ip, log, ret)
  | idx :: idxs =>
      c ← Passfd.index (pmcs ip) idx;
      if negb (alloced c) then
        ret ← Passfd.store ret ri 0;
        stoppmc_loop idxs ip log ret (wrap_int (ri + 1))
      else
        let ip := set_pmc ip (Z.to_nat idx)
                    {| alloced := false; eventid := eventid c |} in
        '(log, cnt) ← _pmc_stop ip log idx;
        ret ← Passfd.store ret ri cnt;
        stoppmc_loop idxs ip log ret (wrap_int (ri + 1))
  end.

Definition stoppmc (ip : intelprof_t) (log : list msrev) (idxs : list Z)
  : outcome (intelprof_t * list msrev * list Z) :=
  stoppmc_loop idxs ip log (replicate (length idxs) 0) 0.

End Hardware.
End Prof.

(** ** Properties of cpuidfamily and the profiling driver *)

Module ProfFacts.
Import Prof.

Lemma cpuidfamily_fields ax :
  0 <= ax < 2 ^ 32 ->
  cpuidfamily ax =
    (16 * ((ax / 2 ^ 16) mod 16) + (ax / 2 ^ 4) mod 16,
     (ax / 2 ^ 20) mod 256 + (ax / 2 ^ 8) mod 16).
Proof.
  intros Hax. unfold cpuidfamily, wrap_uint32.
  change 15 with (Z.ones 4). change 255 with (Z.ones 8).
  rewrite !Z.land_ones, !Z.shiftr_div_pow2, Z.shiftl_mul_pow2 by lia.
  change (2 ^ 4) with 16. change (2 ^ 8) with 256.
  change (2 ^ 16) with 65536. change (2 ^ 20) with 1048576.
  change (2 ^ 32) with 4294967296 in *.
  f_equal; Z.div_mod_to_equations; lia.
Qed.

(** X21. cpuidfamily decodes eax of CPUID leaf 1: for eax made of the
    fields stepping (bits 0-3), model (4-7), family (8-11), type (12-15),
    extended model (16-19), extended family (20-27) and the reserved top
    bits, it returns model + 16 * extended model and family + extended
    family.  The extended fields are always added in, whatever the family;
    the displayed model is below 256 and the displayed family at most
    270. *)
Theorem cpuidfamily_decodes stepping model family typ emodel efamily top :
  0 <= stepping < 16 -> 0 <= model < 16 -> 0 <= family < 16 ->
  0 <= typ < 16 -> 0 <= emodel < 16 -> 0 <= efamily < 256 ->
  0 <= top < 16 ->
  let ax := stepping + 16 * model + 256 * family + 4096 * typ
            + 65536 * emodel + 1048576 * efamily + 268435456 * top in
  cpuidfamily ax = (model + 16 * emodel, family + efamily) /\
  0 <= (cpuidfamily ax).1 < 256 /\ 0 <= (cpuidfamily ax).2 <= 270.
Proof.
  intros Hs Hm Hf Ht Hem Hef Htop ax.
  assert (Hax : 0 <= ax < 2 ^ 32)
    by (subst ax; change (2 ^ 32) with 4294967296; lia).
  rewrite (cpuidfamily_fields ax Hax).
  change (2 ^ 4) with 16. change (2 ^ 8) with 256.
  change (2 ^ 16) with 65536. change (2 ^ 20) with 1048576.
  assert (E1 : (ax / 16) mod 16 = model)
    by (subst ax; Z.div_mod_to_equations; lia).
  assert (E2 : (ax / 256) mod 16 = family)
    by (subst ax; Z.div_mod_to_equations; lia).
  assert (E3 : (ax / 65536) mod 16 = emodel)
    by (subst ax; Z.div_mod_to_equations; lia).
  assert (E4 : (ax / 1048576) mod 256 = efamily)
    by (subst ax; Z.div_mod_to_equations; lia).
  rewrite E1, E2, E3, E4. cbn [fst snd].
  split_and!; try lia. f_equal; lia.
Qed.

(** The eax of an Intel Core i7-860 (family 6, model 0x1e). *)
Lemma cpuidfamily_decodes_witness :
  cpuidfamily 67301 = (30, 6) /\
  0 <= (cpuidfamily 67301).1 < 256 /\ 0 <= (cpuidfamily 67301).2 <= 270.
Proof.
  exact (cpuidfamily_decodes 5 14 6 0 1 0 0 ltac:(lia) ltac:(lia) ltac:(lia)
           ltac:(lia) ltac:(lia) ltac:(lia) ltac:(lia)).
Defined.

Lemma land_bit0 pf : (Z.land pf EVF_OS =? 0) = negb (Z.testbit pf 0).
Proof.
  change EVF_OS with (Z.ones 1). rewrite Z.land_ones by lia.
  change (2 ^ 1) with 2. rewrite <- Z.bit0_mod.
  destruct (Z.testbit pf 0); reflexivity.
Qed.

Lemma land_bit1 pf : (Z.land pf EVF_USR =? 0) = negb (Z.testbit pf 1).
Proof.
  assert (E : Z.land pf EVF_USR = if Z.testbit pf 1 then 2 else 0).
  { apply Z.bits_inj'. intros n Hn. rewrite Z.land_spec.
    change EVF_USR with (2 ^ 1). rewrite Z.pow2_bits_eqb by lia.
    destruct (Z.eqb_spec 1 n) as [<-|Hne].
    - rewrite andb_true_r. destruct (Z.testbit pf 1); reflexivity.
    - rewrite andb_false_r. destruct (Z.testbit pf 1).
      + change 2 with (2 ^ 1). rewrite Z.pow2_bits_eqb by lia.
        symmetry. apply Z.eqb_neq. exact Hne.
      + symmetry. apply Z.bits_0. }
  rewrite E. destruct (Z.testbit pf 1); reflexivity.
Qed.

(** The architectural events, and the ones of the Xeon 5000 series. *)
Definition architectural : list Z :=
  [EV_UNHALTED_CORE_CYCLES; EV_LLC_MISSES; EV_LLC_REFS;
   EV_BRANCH_INSTR_RETIRED; EV_BRANCH_MISS_RETIRED; EV_INSTR_RETIRED].

Definition xeon5000 : list Z :=
  [EV_DTLB_LOAD_MISS_ANY; EV_DTLB_LOAD_MISS_STLB; EV_STORE_DTLB_MISS;
   EV_ITLB_LOAD_MISS_ANY; EV_L2_LD_HITS].

(** The USR (bit 16) and OS (bit 17) bits that the flags select; no flag at
    all selects both. *)
Definition flag_bits (pf : Z) : Z :=
  (if (pf =? 0) || Z.testbit pf 1 then 2 ^ 16 else 0) +
  (if (pf =? 0) || Z.testbit pf 0 then 2 ^ 17 else 0).

Ltac table H :=
  repeat (apply lookup_insert_Some in H as [[<- <-]|[_ H]];
          [|try (rewrite lookup_empty in H; discriminate H)]).

Lemma events_table npmc ax eid ev :
  events (prof_init npmc ax) !! eid = Some ev ->
  (eid ∈ architectural \/ (cpuidfamily ax = (30, 6) /\ eid ∈ xeon5000)) /\
  (eid, ev) ∈
    [(EV_UNHALTED_CORE_CYCLES, {| event := 60; umask := 0 |});
     (EV_LLC_MISSES, {| event := 46; umask := 65 |});
     (EV_LLC_REFS, {| event := 46; umask := 79 |});
     (EV_BRANCH_INSTR_RETIRED, {| event := 196; umask := 0 |});
     (EV_BRANCH_MISS_RETIRED, {| event := 197; umask := 0 |});
     (EV_INSTR_RETIRED, {| event := 192; umask := 0 |});
     (EV_DTLB_LOAD_MISS_ANY, {| event := 8; umask := 1 |});
     (EV_DTLB_LOAD_MISS_STLB, {| event := 8; umask := 2 |});
     (EV_STORE_DTLB_MISS, {| event := 12; umask := 1 |});
     (EV_ITLB_LOAD_MISS_ANY, {| event := 133; umask := 1 |});
     (EV_L2_LD_HITS, {| event := 36; umask := 1 |})].
Proof.
  unfold prof_init.
  destruct (cpuidfamily ax) as [dm df] eqn:Ec. cbn [events].
  destruct (Z.eqb_spec df 6) as [->|Hf], (Z.eqb_spec dm 30) as [->|Hm];
    cbn [andb]; intros H.
  1: apply lookup_union_Some_raw in H as [H|[_ H]].
  all: table H.
  all: split;
    [ first [ left; unfold architectural; set_solver
            | right; split; [reflexivity|]; unfold xeon5000; set_solver ]
    | set_solver ].
Qed.

(** X22. The control word _ev2msr builds for IA32_PERFEVTSELx, for the
    driver as prof_init leaves it.  The events known are the six
    architectural ones and, only on a CPU whose displayed family is 6 and
    model 0x1e, the five Xeon 5000 ones; any other id panics ("no such
    event").  For a known event the word is the event select in bits 0-7,
    the unit mask in bits 8-15, EN (bit 22), and USR (bit 16) and OS (bit
    17) as the flags ask, both when no flag is given; no other bit is
    set. *)
Theorem ev2msr_encodes npmc ax eid pf :
  (is_Some (events (prof_init npmc ax) !! eid) <->
   eid ∈ architectural \/ (cpuidfamily ax = (30, 6) /\ eid ∈ xeon5000)) /\
  (events (prof_init npmc ax) !! eid = None ->
   _ev2msr (prof_init npmc ax) eid pf = Panic "no such event") /\
  (forall ev, events (prof_init npmc ax) !! eid = Some ev ->
   0 <= event ev < 256 /\ 0 <= umask ev < 256 /\
   _ev2msr (prof_init npmc ax) eid pf =
     Done (event ev + 256 * umask ev + flag_bits pf + 2 ^ 22)).
Proof.
  split_and!.
  - split.
    + intros [ev H]. apply (events_table _ _ _ _ H).
    + unfold prof_init. destruct (cpuidfamily ax) as [dm df]. cbn [events].
      intros [Ha | [[= -> ->] Hx]].
      * unfold architectural in Ha.
        destruct ((df =? 6) && (dm =? 30));
          repeat (apply elem_of_cons in Ha as [->|Ha];
                  [eexists; vm_compute; reflexivity|]);
          apply elem_of_nil in Ha; destruct Ha.
      * unfold xeon5000 in Hx. cbn [Z.eqb Pos.eqb andb].
        repeat (apply elem_of_cons in Hx as [->|Hx];
                [eexists; vm_compute; reflexivity|]).
        apply elem_of_nil in Hx. destruct Hx.
  - intros H. unfold _ev2msr. rewrite H. reflexivity.
  - intros ev H. unfold _ev2msr, flag_bits. rewrite H, land_bit0, land_bit1.
    destruct (events_table _ _ _ _ H) as [_ Hin].
    repeat (apply elem_of_cons in Hin as [[= -> ->]|Hin];
            [cbn [event umask]; split; [lia|]; split; [lia|];
             destruct (pf =? 0), (Z.testbit pf 0), (Z.testbit pf 1);
             reflexivity|]).
    apply elem_of_nil in Hin. destruct Hin.
Qed.

Lemma ev2msr_encodes_witness :
  events (prof_init 4 67301) !! EV_L2_LD_HITS
    = Some {| event := 36; umask := 1 |} /\
  _ev2msr (prof_init 4 67301) EV_L2_LD_HITS EVF_USR = Done 4260132 /\
  _ev2msr (prof_init 4 67301) EV_LLC_MISSES 0 = Done 4407598 /\
  _ev2msr (prof_init 4 1) EV_L2_LD_HITS 0 = Panic "no such event".
Proof.
  assert (H1 : events (prof_init 4 67301) !! EV_L2_LD_HITS
               = Some {| event := 36; umask := 1 |}) by reflexivity.
  assert (H2 : events (prof_init 4 67301) !! EV_LLC_MISSES
               = Some {| event := 46; umask := 65 |}) by reflexivity.
  assert (H3 : events (prof_init 4 1) !! EV_L2_LD_HITS = None) by reflexivity.
  split_and!.
  - exact H1.
  - exact (proj2 (proj2 (proj2 (proj2
             (ev2msr_encodes 4 67301 EV_L2_LD_HITS EVF_USR)) _ H1))).
  - exact (proj2 (proj2 (proj2 (proj2
             (ev2msr_encodes 4 67301 EV_LLC_MISSES 0)) _ H2))).
  - exact (proj1 (proj2 (ev2msr_encodes 4 1 EV_L2_LD_HITS 0)) H3).
Defined.

End ProfFacts.
